(** * HdxDrawTargetTask: scheduling of draw targets

    A shallow embedding of [pxr/imaging/hdx/drawTargetTask.cpp]: the
    depth-function table, the dependency heuristic between draw targets,
    their topological sort, and the [Sync] and [Execute] phases of the
    task, followed by the properties the design document states about
    them. *)

From Stdlib Require Import ZArith QArith.
From stdpp Require Import base list gmap sets relations strings.

Close Scope Q_scope.
Close Scope Z_scope.

(** ** Values of the collaborating libraries

    Paths, vectors, matrices and the camera utilities belong to other
    libraries.  The task stores them, hands them on, or calls them, so
    they are taken as an interface. *)

Class Collaborators := {
  (** [SdfPath] and [SdfPath::HasPrefix]. *)
  SdfPath : Type;
  HasPrefix : SdfPath -> SdfPath -> bool;
  (** Plain values that are only copied. *)
  GfVec4f : Type;
  float : Type;
  HdCullStyle : Type;
  TfTokenVector : Type;
  HdRenderPassAovBindingVector : Type;
  ClipPlanes : Type;
  GlfSimpleLightVector : Type;
  GlfSimpleMaterial : Type;
  GlfSimpleShadowArray : Type;
  (** The GPU surface behind a draw target ([GlfDrawTarget]). *)
  GlfDrawTarget : Type;
  (** Matrices, the product [a * b], and the constant
      [GfMatrix4d().SetScale(GfVec3d(1.0, -1.0, 1.0))]. *)
  GfMatrix4d : Type;
  GfMatrix4d_mul : GfMatrix4d -> GfMatrix4d -> GfMatrix4d;
  SetScale_1_m1_1 : GfMatrix4d;
  (** [CameraUtilConformedWindow(projection, policy, targetAspect)]; the
      aspect is a double, held here as the rational it is. *)
  CameraUtilConformWindowPolicy : Type;
  CameraUtilConformedWindow :
    GfMatrix4d -> CameraUtilConformWindowPolicy -> Q -> GfMatrix4d;
  (** [HdChangeTracker::Clean], [DirtyParams] and [DirtyRenderTags]. *)
  Clean : Z;
  DirtyParams : Z;
  DirtyRenderTags : Z
}.

(** ** Enumerations of [hd/enums.h] *)

(** Modelled from the spec: the eight comparison functions, in the order
    the rows of [ResolvedDepthFunc] name them; [HdCmpFuncLast] is their
    number. *)
Inductive HdCompareFunction :=
| HdCmpFuncNever
| HdCmpFuncLess
| HdCmpFuncEqual
| HdCmpFuncLEqual
| HdCmpFuncGreater
| HdCmpFuncNotEqual
| HdCmpFuncGEqual
| HdCmpFuncAlways.

Definition HdCmpFuncLast : nat := 8.

(** Modelled from the spec: the two draw priorities, in the order the
    table names them; [HdDepthPriorityCount] is their number. *)
Inductive HdDepthPriority :=
| HdDepthPriorityNearest
| HdDepthPriorityFarthest.

Definition HdDepthPriorityCount : nat := 2.

(** The integer value of an enumerator, as used to index an array. *)
Definition HdCompareFunction_value (f : HdCompareFunction) : nat :=
  match f with
  | HdCmpFuncNever => 0
  | HdCmpFuncLess => 1
  | HdCmpFuncEqual => 2
  | HdCmpFuncLEqual => 3
  | HdCmpFuncGreater => 4
  | HdCmpFuncNotEqual => 5
  | HdCmpFuncGEqual => 6
  | HdCmpFuncAlways => 7
  end.

Definition HdDepthPriority_value (p : HdDepthPriority) : nat :=
  match p with
  | HdDepthPriorityNearest => 0
  | HdDepthPriorityFarthest => 1
  end.

#[global] Instance HdCompareFunction_eq_dec : EqDecision HdCompareFunction.
Proof. solve_decision. Defined.

#[global] Instance HdDepthPriority_eq_dec : EqDecision HdDepthPriority.
Proof. solve_decision. Defined.

(** ** [HdxDrawTargetTask_GetResolvedDepthFunc] *)

Definition ResolvedDepthFunc : list (list HdCompareFunction) :=
  [ (* HdDepthPriorityNearest *)
    [ HdCmpFuncNever;     (* HdCmpFuncNever *)
      HdCmpFuncLess;      (* HdCmpFuncLess *)
      HdCmpFuncEqual;     (* HdCmpFuncEqual *)
      HdCmpFuncLEqual;    (* HdCmpFuncLEqual *)
      HdCmpFuncGreater;   (* HdCmpFuncGreater *)
      HdCmpFuncNotEqual;  (* HdCmpFuncNotEqual *)
      HdCmpFuncGEqual;    (* HdCmpFuncGEqual *)
      HdCmpFuncAlways     (* HdCmpFuncAlways *) ];
    (* HdDepthPriorityFarthest *)
    [ HdCmpFuncNever;     (* HdCmpFuncNever *)
      HdCmpFuncGEqual;    (* HdCmpFuncLess *)
      HdCmpFuncEqual;     (* HdCmpFuncEqual *)
      HdCmpFuncGreater;   (* HdCmpFuncLEqual *)
      HdCmpFuncLEqual;    (* HdCmpFuncGreater *)
      HdCmpFuncNotEqual;  (* HdCmpFuncNotEqual *)
      HdCmpFuncLess;      (* HdCmpFuncGEqual *)
      HdCmpFuncAlways     (* HdCmpFuncAlways *) ] ].

(** [ResolvedDepthFunc[priority][depthFunc]].  Both indices are values of
    their enumerations, hence inside the table (see
    [ResolvedDepthFunc_in_range]); the defaults of [nth] are never used. *)
Definition HdxDrawTargetTask_GetResolvedDepthFunc
    (depthFunc : HdCompareFunction) (priority : HdDepthPriority)
  : HdCompareFunction :=
  nth (HdCompareFunction_value depthFunc)
      (nth (HdDepthPriority_value priority) ResolvedDepthFunc [])
      HdCmpFuncNever.

(** ** Draw targets and the memory they live in *)

Section DrawTargets.
Context {collaborators : Collaborators}.

(** Modelled from the spec: the collection of [hd/rprimCollection.h], as
    its root paths and exclude paths. *)
Record HdRprimCollection := {
  GetRootPaths : list SdfPath;
  GetExcludePaths : list SdfPath
}.

(** Modelled from the spec: the render pass state of a draw target
    ([hdSt/drawTargetRenderPassState.h]), as the values read here. *)
Record HdStDrawTargetRenderPassState := {
  GetCamera : SdfPath;
  GetDepthPriority : HdDepthPriority;
  GetAovBindings : HdRenderPassAovBindingVector
}.

(** Modelled from the spec: the draw target of [hdSt/drawTarget.h], as
    the values its accessors return.  The version is an [unsigned int]
    that is only copied and compared; the resolution is a [GfVec2i];
    [GetGlfDrawTarget] is a reference-counted pointer that may be null. *)
Record HdStDrawTarget := {
  GetId : SdfPath;
  GetCollection : HdRprimCollection;
  IsEnabled : bool;
  GetVersion : Z;
  GetResolution : Z * Z;
  GetRenderPassState : HdStDrawTargetRenderPassState;
  GetGlfDrawTarget : option GlfDrawTarget
}.

(** A [HdStDrawTarget *]: null, or the address of a draw target. *)
Definition HdStDrawTargetPtr : Type := option nat.

(** The draw targets by address.  Every address holds a draw target: the
    pointers the task keeps are those of the render index. *)
Definition Memory : Type := nat -> HdStDrawTarget.

(** ** Dependencies between draw targets *)

Definition _DoesCollectionContainPath
    (collection : HdRprimCollection) (path : SdfPath) : bool :=
  if existsb (fun excludePath => HasPrefix path excludePath)
             (GetExcludePaths collection)
  then false
  else if existsb (fun rootPath => HasPrefix path rootPath)
                  (GetRootPaths collection)
  then true
  else false.

Definition _IsDependentOn (mem : Memory)
    (drawTarget otherDrawTarget : HdStDrawTargetPtr) : bool :=
  match drawTarget, otherDrawTarget with
  | Some a, Some b =>
      negb (Nat.eqb a b) &&
      _DoesCollectionContainPath (GetCollection (mem a)) (GetId (mem b))
  | _, _ => false
  end.

(** Information returned by the topological sort. *)
Record _DrawTargetEntry := {
  originalIndex : nat;
  drawTarget : HdStDrawTargetPtr;
  hasDependentDrawTargets : bool
}.

(** What the task reports: [TF_CODING_ERROR] diagnostics and the calls it
    makes on the render passes and on GL. *)
Inductive GLenum :=
| GL_POLYGON_OFFSET_FILL
| GL_SAMPLE_ALPHA_TO_COVERAGE
| GL_PROGRAM_POINT_SIZE
| GL_CW
| GL_CCW.

Inductive Event :=
| TF_CODING_ERROR_Mismatch
| TF_CODING_ERROR_InvalidCamera (cameraId : SdfPath)
| RenderPassState_Prepare (renderPassIdx : nat)
| RenderPass_Sync (renderPassIdx : nat)
| RenderPass_Prepare (renderPassIdx : nat)
| glEnable (cap : GLenum)
| glDisable (cap : GLenum)
| glPolygonOffset (factor units : float)
| glFrontFace (mode : GLenum)
| RenderPassState_Bind (renderPassIdx : nat)
| RenderPass_Execute (renderPassIdx : nat) (renderTags : TfTokenVector)
| RenderPassState_Unbind (renderPassIdx : nat)
| DrawTarget_Resolve (renderPassIdx : nat) (target : GlfDrawTarget).

(** ** [_SortDrawTargets] *)

Section Sort.
Variable mem : Memory.
Variable drawTargets : list HdStDrawTargetPtr.

(** The two tables filled by the double loop over [dependent] and
    [dependency]. *)
Definition Tables : Type := list (gset nat) * list (list nat).

Definition recordDependency (dependent : nat) (t : Tables) (dependency : nat)
  : Tables :=
  if _IsDependentOn mem (drawTargets !!! dependent)
                        (drawTargets !!! dependency)
  then (alter (fun s => {[dependency]} ∪ s) dependent t.1,
        alter (fun v => v ++ [dependent]) dependency t.2)
  else t.

Definition computeDependencies (n : nat) : Tables :=
  foldl (fun t dependent => foldl (recordDependency dependent) t (seq 0 n))
        (replicate n ∅, replicate n [])
        (seq 0 n).

(** The state of the sort proper: what is left of [indexToDependencies],
    and [*result]. *)
Record SortState := {
  indexToDependencies : list (gset nat);
  result : list _DrawTargetEntry
}.

Definition newEntry (index : nat) : _DrawTargetEntry :=
  {| originalIndex := index;
     drawTarget := drawTargets !!! index;
     hasDependentDrawTargets := false |}.

Definition markDependent (entry : _DrawTargetEntry) : _DrawTargetEntry :=
  {| originalIndex := originalIndex entry;
     drawTarget := drawTarget entry;
     hasDependentDrawTargets := true |}.

(** The first loop: targets without dependencies, in the given order. *)
Definition scheduleIndependent (n : nat) (st : SortState) : SortState :=
  foldl (fun st dependent =>
           if decide (indexToDependencies st !!! dependent = ∅)
           then {| indexToDependencies := indexToDependencies st;
                   result := result st ++ [newEntry dependent] |}
           else st)
        st (seq 0 n).

(** One round of the inner loop, for the entry at position [i] of the
    result, whose target is [dependency].  [entry] is a reference to
    [( *result)[i]]: the vector was reserved for [n] entries and never
    holds more (see [loop_inv_length]), so appending leaves it valid. *)
Definition releaseDependent (i dependency : nat) (st : SortState)
    (dependent : nat) : SortState :=
  let deps :=
    alter (fun s => s ∖ {[dependency]}) dependent (indexToDependencies st) in
  let res :=
    if decide (deps !!! dependent = ∅)
    then result st ++ [newEntry dependent]
    else result st in
  {| indexToDependencies := deps;
     result := alter markDependent i res |}.

(** The main loop, [for (i = 0; i < result->size(); i++)], over a result
    that grows while it is traversed.  [None] stands for a loop that has
    not ended after [fuel] rounds. *)
Fixpoint scheduleLoop (indexToDependents : list (list nat))
    (fuel i : nat) (st : SortState) : option SortState :=
  match result st !! i with
  | None => Some st
  | Some entry =>
      match fuel with
      | O => None
      | S fuel' =>
          let dependency := originalIndex entry in
          scheduleLoop indexToDependents fuel' (S i)
            (foldl (releaseDependent i dependency) st
                   (indexToDependents !!! dependency))
      end
  end.

(** The fallback for cycles. *)
Definition scheduleCycles (n : nat) (st : SortState) : SortState :=
  if decide (length (result st) < n)
  then foldl (fun st i =>
                if decide (indexToDependencies st !!! i ≠ ∅)
                then {| indexToDependencies := indexToDependencies st;
                        result := result st ++ [newEntry i] |}
                else st)
             st (seq 0 n)
  else st.

(** The sort up to and including the main loop.  The main loop visits
    each entry of the result once, so [n] rounds are enough (see
    [sortMain_done]). *)
Definition sortMain (result0 : list _DrawTargetEntry) : option SortState :=
  let n := length drawTargets in
  let t := computeDependencies n in
  scheduleLoop t.2 n 0
    (scheduleIndependent n
       {| indexToDependencies := t.1; result := result0 |}).

(** [_SortDrawTargets(drawTargets, result)]: the new contents of
    [*result] and the diagnostics raised. *)
Definition _SortDrawTargets (result0 : list _DrawTargetEntry)
  : option (list _DrawTargetEntry * list Event) :=
  if decide (drawTargets = [])
  then Some (result0, [])
  else
    let n := length drawTargets in
    st ← sortMain result0;
    let res := result (scheduleCycles n st) in
    Some (res,
          if decide (length res ≠ length drawTargets)
          then [TF_CODING_ERROR_Mismatch]
          else []).

(** ** The dependency graph of a sequence of draw targets

    Its nodes are the positions in [drawTargets]; [dependent] has an edge
    to [dependency] when [_IsDependentOn] says so of their targets. *)

Definition dependsOn (dependent dependency : nat) : bool :=
  _IsDependentOn mem (drawTargets !!! dependent) (drawTargets !!! dependency).

Definition dependencyGraph : relation nat :=
  fun dependent dependency => dependsOn dependent dependency = true.

Definition acyclic : Prop := forall i, ~ tc dependencyGraph i i.

End Sort.

(** ** The scene, the task context and the task *)

(** Modelled from the spec: the camera of [hd/camera.h], as the four
    values read here. *)
Record HdCamera := {
  GetViewMatrix : GfMatrix4d;
  GetProjectionMatrix : GfMatrix4d;
  GetWindowPolicy : CameraUtilConformWindowPolicy;
  GetClipPlanes : ClipPlanes
}.

(** Modelled from the spec: the parameters declared in
    [hdx/drawTargetTask.h], with the fields this file copies and
    compares. *)
Record HdxDrawTargetTaskParams := {
  overrideColor : GfVec4f;
  wireframeColor : GfVec4f;
  enableLighting : bool;
  alphaThreshold : float;
  depthBiasUseDefault : bool;
  depthBiasEnable : bool;
  depthBiasConstantFactor : float;
  depthBiasSlopeFactor : float;
  depthFunc : HdCompareFunction;
  cullStyle : HdCullStyle
}.

(** Modelled from the spec: what the task asks of the scene delegate,
    its render index and the debug registry during one [Sync]. *)
Record Scene := {
  (** [_GetTaskParams(delegate, &params)]; [None] when it returns false. *)
  _GetTaskParams : option HdxDrawTargetTaskParams;
  _GetTaskRenderTags : TfTokenVector;
  (** [changeTracker.GetStateVersion(HdStDrawTargetTokens->drawTargetSet)] *)
  GetStateVersion_drawTargetSet : Z;
  (** [HdStDrawTarget::GetDrawTargets(renderIndex, ...)] *)
  GetDrawTargets : list HdStDrawTargetPtr;
  memory : Memory;
  (** [renderIndex.GetSprim(HdPrimTypeTokens->camera, cameraId)] *)
  GetSprim_camera : SdfPath -> option HdCamera;
  (** [delegate->IsEnabled(HdxOptionTokens->taskSetAlphaToCoverage)] *)
  IsEnabled_taskSetAlphaToCoverage : bool;
  (** [TfDebug::IsEnabled(HDX_DISABLE_ALPHA_TO_COVERAGE)] *)
  IsEnabled_HDX_DISABLE_ALPHA_TO_COVERAGE : bool
}.

(** Modelled from the spec: the six values [Sync] copies from the shared
    lighting context ([glf/simpleLightingContext.h]). *)
Record LightingValues := {
  GetUseLighting : bool;
  GetLights : GlfSimpleLightVector;
  GetMaterial : GlfSimpleMaterial;
  GetSceneAmbient : GfVec4f;
  GetShadows : GlfSimpleShadowArray;
  GetUseColorMaterialDiffuse : bool
}.

(** Modelled from the spec: the lighting context of a
    [HdStSimpleLightingShader]; [None] is what its constructor left
    there. *)
Record GlfSimpleLightingContext := {
  lightingCamera : option (GfMatrix4d * GfMatrix4d);
  lightingValues : option LightingValues
}.

(** Modelled from the spec: the values [Sync] sets on a
    [HdStRenderPassState] ([hdSt/renderPassState.h]). *)
Record HdStRenderPassState := {
  GetOverrideColor : GfVec4f;
  GetWireframeColor : GfVec4f;
  GetLightingEnabled : bool;
  GetAlphaThreshold : float;
  GetCullStyle : HdCullStyle;
  GetDepthFunc : HdCompareFunction;
  GetAovBindings_ : HdRenderPassAovBindingVector;
  (** view matrix, projection matrix, viewport, clip planes *)
  GetCameraFramingState :
    GfMatrix4d * GfMatrix4d * (Z * Z * Z * Z) * ClipPlanes
}.

(** [renderPassState] and [simpleLightingShader] are shared pointers to
    objects made for this entry alone; they are held by value.  A render
    pass state is [None] as long as it is as constructed. *)
Record _RenderPassInfo := {
  renderPassState : option HdStRenderPassState;
  simpleLightingShader : GlfSimpleLightingContext;
  target : HdStDrawTargetPtr;
  version : Z
}.

(** Modelled from the spec: the render pass of
    [hdx/drawTargetRenderPass.h], as the three values this task sets on
    it: the GPU draw target, the draw target whose render pass state it
    points to, and the dependency flag. *)
Record HdxDrawTargetRenderPass := {
  GetDrawTarget : option GlfDrawTarget;
  GetDrawTargetRenderPassState : nat;
  HasDependentDrawTargets : bool
}.

Definition SetDrawTarget (drawTarget : option GlfDrawTarget)
    (pass : HdxDrawTargetRenderPass) : HdxDrawTargetRenderPass :=
  {| GetDrawTarget := drawTarget;
     GetDrawTargetRenderPassState := GetDrawTargetRenderPassState pass;
     HasDependentDrawTargets := HasDependentDrawTargets pass |}.

(** Modelled from the spec: the task context, as the two entries used
    here.  [drawTargetRenderPasses] holds a pointer to the
    [_renderPasses] vector of a task, named here by the id of that task. *)
Record HdTaskContext := {
  drawTargetRenderPasses : option SdfPath;
  lightingContext : option LightingValues
}.

Record HdxDrawTargetTask := {
  taskId : SdfPath;
  _currentDrawTargetSetVersion : Z;
  _renderPassesInfo : list _RenderPassInfo;
  _renderPasses : list HdxDrawTargetRenderPass;
  _overrideColor : GfVec4f;
  _wireframeColor : GfVec4f;
  _enableLighting : bool;
  _alphaThreshold : float;
  _depthBiasUseDefault : bool;
  _depthBiasEnable : bool;
  _depthBiasConstantFactor : float;
  _depthBiasSlopeFactor : float;
  _depthFunc : HdCompareFunction;
  _cullStyle : HdCullStyle;
  _enableSampleAlphaToCoverage : bool;
  _renderTags : TfTokenVector
}.

(** ** [_GetSortedDrawTargets] *)

Definition _GetSortedDrawTargets (scene : Scene)
  : option (list _DrawTargetEntry * list Event) :=
  _SortDrawTargets (memory scene) (GetDrawTargets scene) [].

(** ** [HdxDrawTargetTask::Sync] *)

(** The assignments under [DirtyParams]. *)
Definition setParams (params : HdxDrawTargetTaskParams)
    (self : HdxDrawTargetTask) : HdxDrawTargetTask :=
  {| taskId := taskId self;
     _currentDrawTargetSetVersion := _currentDrawTargetSetVersion self;
     _renderPassesInfo := _renderPassesInfo self;
     _renderPasses := _renderPasses self;
     _overrideColor := overrideColor params;
     _wireframeColor := wireframeColor params;
     _enableLighting := enableLighting params;
     _alphaThreshold := alphaThreshold params;
     _depthBiasUseDefault := depthBiasUseDefault params;
     _depthBiasEnable := depthBiasEnable params;
     _depthBiasConstantFactor := depthBiasConstantFactor params;
     _depthBiasSlopeFactor := depthBiasSlopeFactor params;
     _depthFunc := depthFunc params;
     _cullStyle := cullStyle params;
     _enableSampleAlphaToCoverage := _enableSampleAlphaToCoverage self;
     _renderTags := _renderTags self |}.

Definition setRenderTags (tags : TfTokenVector)
    (self : HdxDrawTargetTask) : HdxDrawTargetTask :=
  {| taskId := taskId self;
     _currentDrawTargetSetVersion := _currentDrawTargetSetVersion self;
     _renderPassesInfo := _renderPassesInfo self;
     _renderPasses := _renderPasses self;
     _overrideColor := _overrideColor self;
     _wireframeColor := _wireframeColor self;
     _enableLighting := _enableLighting self;
     _alphaThreshold := _alphaThreshold self;
     _depthBiasUseDefault := _depthBiasUseDefault self;
     _depthBiasEnable := _depthBiasEnable self;
     _depthBiasConstantFactor := _depthBiasConstantFactor self;
     _depthBiasSlopeFactor := _depthBiasSlopeFactor self;
     _depthFunc := _depthFunc self;
     _cullStyle := _cullStyle self;
     _enableSampleAlphaToCoverage := _enableSampleAlphaToCoverage self;
     _renderTags := tags |}.

(** The members the draw-target-set branch and the render-state loop
    assign. *)
Definition setRenderPasses (setVersion : Z)
    (infos : list _RenderPassInfo) (passes : list HdxDrawTargetRenderPass)
    (self : HdxDrawTargetTask) : HdxDrawTargetTask :=
  {| taskId := taskId self;
     _currentDrawTargetSetVersion := setVersion;
     _renderPassesInfo := infos;
     _renderPasses := passes;
     _overrideColor := _overrideColor self;
     _wireframeColor := _wireframeColor self;
     _enableLighting := _enableLighting self;
     _alphaThreshold := _alphaThreshold self;
     _depthBiasUseDefault := _depthBiasUseDefault self;
     _depthBiasEnable := _depthBiasEnable self;
     _depthBiasConstantFactor := _depthBiasConstantFactor self;
     _depthBiasSlopeFactor := _depthBiasSlopeFactor self;
     _depthFunc := _depthFunc self;
     _cullStyle := _cullStyle self;
     _enableSampleAlphaToCoverage := _enableSampleAlphaToCoverage self;
     _renderTags := _renderTags self |}.

Definition setEnableSampleAlphaToCoverage (enable : bool)
    (self : HdxDrawTargetTask) : HdxDrawTargetTask :=
  {| taskId := taskId self;
     _currentDrawTargetSetVersion := _currentDrawTargetSetVersion self;
     _renderPassesInfo := _renderPassesInfo self;
     _renderPasses := _renderPasses self;
     _overrideColor := _overrideColor self;
     _wireframeColor := _wireframeColor self;
     _enableLighting := _enableLighting self;
     _alphaThreshold := _alphaThreshold self;
     _depthBiasUseDefault := _depthBiasUseDefault self;
     _depthBiasEnable := _depthBiasEnable self;
     _depthBiasConstantFactor := _depthBiasConstantFactor self;
     _depthBiasSlopeFactor := _depthBiasSlopeFactor self;
     _depthFunc := _depthFunc self;
     _cullStyle := _cullStyle self;
     _enableSampleAlphaToCoverage := enable;
     _renderTags := _renderTags self |}.

(** The branch taken when the draw target set changed: one render pass
    and one info per enabled draw target, in sorted order. *)
Definition rebuildStep (mem : Memory)
    (acc : list _RenderPassInfo * list HdxDrawTargetRenderPass)
    (entry : _DrawTargetEntry)
  : list _RenderPassInfo * list HdxDrawTargetRenderPass :=
  match drawTarget entry with
  | Some a =>
      if IsEnabled (mem a)
      then (acc.1 ++ [ {| renderPassState := None;
                          simpleLightingShader :=
                            {| lightingCamera := None;
                               lightingValues := None |};
                          target := Some a;
                          version := GetVersion (mem a) |} ],
            acc.2 ++ [ {| GetDrawTarget := GetGlfDrawTarget (mem a);
                          GetDrawTargetRenderPassState := a;
                          HasDependentDrawTargets :=
                            hasDependentDrawTargets entry |} ])
      else acc
  | None => acc
  end.

Definition rebuildRenderPasses (mem : Memory)
    (drawTargetEntries : list _DrawTargetEntry)
  : list _RenderPassInfo * list HdxDrawTargetRenderPass :=
  foldl (rebuildStep mem) ([], []) drawTargetEntries.

Definition setVersion (v : Z) (info : _RenderPassInfo) : _RenderPassInfo :=
  {| renderPassState := renderPassState info;
     simpleLightingShader := simpleLightingShader info;
     target := target info;
     version := v |}.

(** The branch taken when the set is unchanged: look for changes in
    individual draw targets.  [None] is an access outside a vector or
    through a null pointer. *)
Fixpoint refreshRenderPasses (mem : Memory) (indices : list nat)
    (infos : list _RenderPassInfo) (passes : list HdxDrawTargetRenderPass)
  : option (list _RenderPassInfo * list HdxDrawTargetRenderPass) :=
  match indices with
  | [] => Some (infos, passes)
  | renderPassIdx :: rest =>
      renderPassInfo ← infos !! renderPassIdx;
      a ← target renderPassInfo;
      let targetVersion := GetVersion (mem a) in
      if decide (version renderPassInfo ≠ targetVersion)
      then
        pass ← passes !! renderPassIdx;
        refreshRenderPasses mem rest
          (<[renderPassIdx := setVersion targetVersion renderPassInfo]> infos)
          (<[renderPassIdx :=
               SetDrawTarget (GetGlfDrawTarget (mem a)) pass]> passes)
      else refreshRenderPasses mem rest infos passes
  end.

(** Modelled from the spec: the components of a [GfVec2i] are [int]s of
    32 bits ([gf/vec2i.h]). *)
Definition INT_MIN : Z := (-2147483648)%Z.
Definition INT_MAX : Z := 2147483647%Z.

(** [a / b] on two [int]s: the quotient truncated towards zero.  [None]
    is undefined behaviour: [b] is zero, or the quotient cannot be
    represented, which for two [int]s is [INT_MIN / -1]. *)
Definition int_div (a b : Z) : option Z :=
  if decide (b = 0%Z) then None
  else if decide (INT_MIN <= Z.quot a b <= INT_MAX)%Z
       then Some (Z.quot a b)
       else None.

(** [resolution[1] != 0.0 ? resolution[0] / resolution[1] : 1.0].  The
    components of a [GfVec2i] are ints, so the quotient is the integer
    one, truncated towards zero, and only then becomes a double. *)
Definition targetAspect (resolution : Z * Z) : option Q :=
  if decide (resolution.2 ≠ 0%Z)
  then inject_Z <$> int_div resolution.1 resolution.2
  else Some 1%Q.

(** The body of the render-state loop once the camera is known and the
    aspect is computed. *)
Definition updateRenderPassInfo (self : HdxDrawTargetTask)
    (shared : option LightingValues) (camera : HdCamera)
    (drawTarget : HdStDrawTarget) (aspect : Q) (info : _RenderPassInfo)
  : _RenderPassInfo :=
  let drawTargetRenderPassState := GetRenderPassState drawTarget in
  let depthFunc :=
    HdxDrawTargetTask_GetResolvedDepthFunc
      (_depthFunc self) (GetDepthPriority drawTargetRenderPassState) in
  let resolution := GetResolution drawTarget in
  let viewMatrix := GetViewMatrix camera in
  let projectionMatrix :=
    GfMatrix4d_mul
      (CameraUtilConformedWindow (GetProjectionMatrix camera)
         (GetWindowPolicy camera) aspect)
      SetScale_1_m1_1 in
  let viewport := (0%Z, 0%Z, resolution.1, resolution.2) in
  {| renderPassState :=
       Some {| GetOverrideColor := _overrideColor self;
               GetWireframeColor := _wireframeColor self;
               GetLightingEnabled := _enableLighting self;
               GetAlphaThreshold := _alphaThreshold self;
               GetCullStyle := _cullStyle self;
               GetDepthFunc := depthFunc;
               GetAovBindings_ := GetAovBindings drawTargetRenderPassState;
               GetCameraFramingState :=
                 (viewMatrix, projectionMatrix, viewport,
                  GetClipPlanes camera) |};
     simpleLightingShader :=
       {| lightingCamera := Some (viewMatrix, projectionMatrix);
          lightingValues :=
            match shared with
            | Some values => Some values
            | None => lightingValues (simpleLightingShader info)
            end |};
     target := target info;
     version := version info |}.

(** How the render-state loop ended. *)
Inductive LoopEnd := Completed | Returned.

(** The render-state loop.  A missing camera makes [Sync] return on the
    spot; [None] is an access outside a vector or through a null pointer,
    or an integer division that is undefined. *)
Fixpoint syncRenderPassStates (scene : Scene) (self : HdxDrawTargetTask)
    (shared : option LightingValues) (numPasses : nat)
    (indices : list nat) (infos : list _RenderPassInfo) (events : list Event)
  : option (list _RenderPassInfo * list Event * LoopEnd) :=
  match indices with
  | [] => Some (infos, events, Completed)
  | renderPassIdx :: rest =>
      renderPassInfo ← infos !! renderPassIdx;
      _ ← guard (renderPassIdx < numPasses);
      a ← target renderPassInfo;
      let drawTarget := memory scene a in
      let cameraId := GetCamera (GetRenderPassState drawTarget) in
      match GetSprim_camera scene cameraId with
      | None =>
          Some (infos, events ++ [TF_CODING_ERROR_InvalidCamera cameraId],
                Returned)
      | Some camera =>
          aspect ← targetAspect (GetResolution drawTarget);
          syncRenderPassStates scene self shared numPasses rest
            (<[renderPassIdx :=
                 updateRenderPassInfo self shared camera drawTarget aspect
                   renderPassInfo]> infos)
            (events ++ [RenderPassState_Prepare renderPassIdx;
                        RenderPass_Sync renderPassIdx])
      end
  end.

Definition nonzero (bits : Z) : bool := negb (Z.eqb bits 0).

(** The block under [DirtyParams]; [None] when [_GetTaskParams] returns
    false. *)
Definition syncParams (scene : Scene) (dirtyBits : Z)
    (self : HdxDrawTargetTask) : option HdxDrawTargetTask :=
  if nonzero (Z.land dirtyBits DirtyParams)
  then params ← _GetTaskParams scene; Some (setParams params self)
  else Some self.

(** The block under [DirtyRenderTags]. *)
Definition syncRenderTags (scene : Scene) (dirtyBits : Z)
    (self : HdxDrawTargetTask) : HdxDrawTargetTask :=
  if nonzero (Z.land dirtyBits DirtyRenderTags)
  then setRenderTags (_GetTaskRenderTags scene) self
  else self.

(** The two branches on the version of the draw target set: the new
    [_renderPassesInfo] and [_renderPasses], and the diagnostics. *)
Definition syncDrawTargetSet (scene : Scene) (self : HdxDrawTargetTask)
  : option (list _RenderPassInfo * list HdxDrawTargetRenderPass * list Event) :=
  let drawTargetVersion := GetStateVersion_drawTargetSet scene in
  if decide (_currentDrawTargetSetVersion self ≠ drawTargetVersion)
  then
    '(drawTargetEntries, events) ← _GetSortedDrawTargets scene;
    let r := rebuildRenderPasses (memory scene) drawTargetEntries in
    Some (r.1, r.2, events)
  else
    r ← refreshRenderPasses (memory scene)
           (seq 0 (length (_renderPassesInfo self)))
           (_renderPassesInfo self) (_renderPasses self);
    Some (r.1, r.2, []).

(** [( *ctx)[HdxTokens->drawTargetRenderPasses] = &_renderPasses] *)
Definition publish (self : HdxDrawTargetTask) (ctx : HdTaskContext)
  : HdTaskContext :=
  {| drawTargetRenderPasses := Some (taskId self);
     lightingContext := lightingContext ctx |}.

(** The value given to [_enableSampleAlphaToCoverage]. *)
Definition alphaToCoverage (scene : Scene) : bool :=
  if IsEnabled_taskSetAlphaToCoverage scene
  then negb (IsEnabled_HDX_DISABLE_ALPHA_TO_COVERAGE scene)
  else true.

(** [Sync(delegate, ctx, dirtyBits)]: the task, the context and the
    dirty bits it leaves, and what it reported; [None] when its
    behaviour is undefined. *)
Definition Sync (scene : Scene) (ctx : HdTaskContext) (dirtyBits : Z)
    (self : HdxDrawTargetTask)
  : option (HdxDrawTargetTask * HdTaskContext * Z * list Event) :=
  match syncParams scene dirtyBits self with
  | None => Some (self, ctx, dirtyBits, [])
  | Some self =>
      let self := syncRenderTags scene dirtyBits self in
      '(infos, passes, events) ← syncDrawTargetSet scene self;
      let ctx := publish self ctx in
      '(infos, events, loopEnd) ←
        syncRenderPassStates scene self (lightingContext ctx)
          (length passes) (seq 0 (length infos)) infos events;
      let self :=
        setRenderPasses (GetStateVersion_drawTargetSet scene) infos passes
          self in
      match loopEnd with
      | Returned => Some (self, ctx, dirtyBits, events)
      | Completed =>
          Some (setEnableSampleAlphaToCoverage (alphaToCoverage scene) self,
                ctx, Clean, events)
      end
  end.

(** ** [HdxDrawTargetTask::Prepare] *)

Fixpoint prepareRenderPasses (numPasses : nat) (indices : list nat)
  : option (list Event) :=
  match indices with
  | [] => Some []
  | renderPassIdx :: rest =>
      _ ← guard (renderPassIdx < numPasses);
      events ← prepareRenderPasses numPasses rest;
      Some (RenderPass_Prepare renderPassIdx :: events)
  end.

Definition Prepare (self : HdxDrawTargetTask) : option (list Event) :=
  prepareRenderPasses (length (_renderPasses self))
    (seq 0 (length (_renderPassesInfo self))).

(** ** [HdxDrawTargetTask::Execute] *)

(** The resolve after a draw: only when later draw targets depend on
    this one, and only when the pass has a draw target at all. *)
Definition resolveEvents (renderPassIdx : nat)
    (renderPass : HdxDrawTargetRenderPass) : list Event :=
  if HasDependentDrawTargets renderPass
  then match GetDrawTarget renderPass with
       | Some glfDrawTarget => [DrawTarget_Resolve renderPassIdx glfDrawTarget]
       | None => []
       end
  else [].

(** One round of the loop over the render passes. *)
Definition renderPassEvents (renderTags : TfTokenVector) (renderPassIdx : nat)
    (renderPass : HdxDrawTargetRenderPass) : list Event :=
  [RenderPassState_Bind renderPassIdx;
   RenderPass_Execute renderPassIdx renderTags;
   RenderPassState_Unbind renderPassIdx]
  ++ resolveEvents renderPassIdx renderPass.

Fixpoint executeRenderPasses (self : HdxDrawTargetTask) (indices : list nat)
  : option (list Event) :=
  match indices with
  | [] => Some []
  | renderPassIdx :: rest =>
      renderPass ← _renderPasses self !! renderPassIdx;
      _ ← _renderPassesInfo self !! renderPassIdx;
      events ← executeRenderPasses self rest;
      Some (renderPassEvents (_renderTags self) renderPassIdx renderPass
            ++ events)
  end.

(** The GL state set before the loop, and its restoration after it. *)
Definition glSetup (self : HdxDrawTargetTask) : list Event :=
  (if _depthBiasUseDefault self then []
   else if _depthBiasEnable self
        then [glEnable GL_POLYGON_OFFSET_FILL;
              glPolygonOffset (_depthBiasSlopeFactor self)
                              (_depthBiasConstantFactor self)]
        else [glDisable GL_POLYGON_OFFSET_FILL])
  ++ [if _enableSampleAlphaToCoverage self
      then glEnable GL_SAMPLE_ALPHA_TO_COVERAGE
      else glDisable GL_SAMPLE_ALPHA_TO_COVERAGE]
  ++ [glEnable GL_PROGRAM_POINT_SIZE; glFrontFace GL_CW].

Definition glRestore : list Event :=
  [glDisable GL_SAMPLE_ALPHA_TO_COVERAGE;
   glDisable GL_PROGRAM_POINT_SIZE;
   glDisable GL_POLYGON_OFFSET_FILL;
   glFrontFace GL_CCW].

Definition Execute (self : HdxDrawTargetTask) : option (list Event) :=
  events ← executeRenderPasses self (seq 0 (length (_renderPassesInfo self)));
  Some (glSetup self ++ events ++ glRestore).

(** The state the constructor leaves. *)
Definition HdxDrawTargetTask_new (id : SdfPath) (zeroColor : GfVec4f)
    (zero one : float) (HdCullStyleBackUnlessDoubleSided : HdCullStyle)
    (noTags : TfTokenVector) : HdxDrawTargetTask :=
  {| taskId := id;
     _currentDrawTargetSetVersion := 0;
     _renderPassesInfo := [];
     _renderPasses := [];
     _overrideColor := zeroColor;
     _wireframeColor := zeroColor;
     _enableLighting := false;
     _alphaThreshold := zero;
     _depthBiasUseDefault := true;
     _depthBiasEnable := false;
     _depthBiasConstantFactor := zero;
     _depthBiasSlopeFactor := one;
     _depthFunc := HdCmpFuncLEqual;
     _cullStyle := HdCullStyleBackUnlessDoubleSided;
     _enableSampleAlphaToCoverage := true;
     _renderTags := noTags |}.

End DrawTargets.

(** * The accessor and the VtValue requirements *)

Section Accessors.
Context {collaborators : Collaborators}.

(** [HdxDrawTargetTask::GetRenderTags] *)
Definition GetRenderTags (self : HdxDrawTargetTask) : TfTokenVector :=
  _renderTags self.

End Accessors.

(** ** VtValue requirements of [HdxDrawTargetTaskParams] *)

Section VtValueRequirements.
Context {collaborators : Collaborators}.

(** Modelled from the spec: what [std::ostream] writes for the values the
    task only copies, and [==] on them. *)
Variable print_GfVec4f : GfVec4f -> string.
Variable print_float : float -> string.
Variable print_bool : bool -> string.
Variable print_HdCompareFunction : HdCompareFunction -> string.
Variable print_HdCullStyle : HdCullStyle -> string.
Variable GfVec4f_eq : GfVec4f -> GfVec4f -> bool.
Variable float_eq : float -> float -> bool.
Variable HdCullStyle_eq : HdCullStyle -> HdCullStyle -> bool.

Definition newline : string := String (Ascii.ascii_of_nat 10) EmptyString.

(** [operator<<(out, pv)]: the characters the stream holds afterwards. *)
Definition operator_shl (out : string) (pv : HdxDrawTargetTaskParams) : string :=
  (out ++ "HdxDrawTargetTaskParams: (...) " ++ newline
   ++ "         overrideColor           = " ++ print_GfVec4f (overrideColor pv) ++ newline
   ++ "         wireframeColor          = " ++ print_GfVec4f (wireframeColor pv) ++ newline
   ++ "         enableLighting          = " ++ print_bool (enableLighting pv) ++ newline
   ++ "         alphaThreshold          = " ++ print_float (alphaThreshold pv) ++ newline
   ++ "         depthBiasUseDefault     = "
      ++ print_bool (depthBiasUseDefault pv) ++ newline
   ++ "         depthBiasEnable         = " ++ print_bool (depthBiasEnable pv) ++ newline
   ++ "         depthBiasConstantFactor = "
      ++ print_float (depthBiasConstantFactor pv) ++ newline
   ++ "         depthFunc               = " ++ print_HdCompareFunction (depthFunc pv) ++ newline
   ++ "         cullStyle               = " ++ print_HdCullStyle (cullStyle pv) ++ newline
  )%string.

(** [operator==(lhs, rhs)] *)
Definition operator_eq (lhs rhs : HdxDrawTargetTaskParams) : bool :=
  GfVec4f_eq (overrideColor lhs) (overrideColor rhs) &&
  GfVec4f_eq (wireframeColor lhs) (wireframeColor rhs) &&
  Bool.eqb (enableLighting lhs) (enableLighting rhs) &&
  float_eq (alphaThreshold lhs) (alphaThreshold rhs) &&
  Bool.eqb (depthBiasUseDefault lhs) (depthBiasUseDefault rhs) &&
  Bool.eqb (depthBiasEnable lhs) (depthBiasEnable rhs) &&
  float_eq (depthBiasConstantFactor lhs) (depthBiasConstantFactor rhs) &&
  float_eq (depthBiasSlopeFactor lhs) (depthBiasSlopeFactor rhs) &&
  bool_decide (depthFunc lhs = depthFunc rhs) &&
  HdCullStyle_eq (cullStyle lhs) (cullStyle rhs).

(** [operator!=(lhs, rhs)] *)
Definition operator_ne (lhs rhs : HdxDrawTargetTaskParams) : bool :=
  negb (operator_eq lhs rhs).

(** [pv] with another [depthBiasSlopeFactor]. *)
Definition withSlopeFactor (slope : float) (pv : HdxDrawTargetTaskParams)
  : HdxDrawTargetTaskParams :=
  {| overrideColor := overrideColor pv;
     wireframeColor := wireframeColor pv;
     enableLighting := enableLighting pv;
     alphaThreshold := alphaThreshold pv;
     depthBiasUseDefault := depthBiasUseDefault pv;
     depthBiasEnable := depthBiasEnable pv;
     depthBiasConstantFactor := depthBiasConstantFactor pv;
     depthBiasSlopeFactor := slope;
     depthFunc := depthFunc pv;
     cullStyle := cullStyle pv |}.

End VtValueRequirements.

(** * Vocabulary of the properties *)

Section Vocabulary.
Context {collaborators : Collaborators}.

Section SortVocabulary.
Variable mem : Memory.
Variable drawTargets : list HdStDrawTargetPtr.

(** The dependents of [dependency] among the first [k] targets, in the
    order they were given. *)
Definition dependents_upto (k dependency : nat) : list nat :=
  filter (fun dependent => dependsOn mem drawTargets dependent dependency = true)
         (seq 0 k).

(** The tables after [k] full rounds of the outer loop and [m] rounds of
    the inner loop of round [k]. *)
Definition tables_inv (k m : nat) (t : Tables) : Prop :=
  length t.1 = length drawTargets /\ length t.2 = length drawTargets /\
  (forall i j, j ∈ t.1 !!! i <->
     dependsOn mem drawTargets i j = true /\ (i < k \/ (i = k /\ j < m))) /\
  (forall j, t.2 !!! j =
     dependents_upto k j ++
     (if decide (j < m /\ dependsOn mem drawTargets k j = true)
      then [k] else [])).

(** The original indices of a result, in its order. *)
Definition indices (st : SortState) : list nat := originalIndex <$> result st.

(** While the entry at position [i] is being visited and the dependents
    in [done] have been dealt with: dependency [j] has been erased from
    the set of [x]. *)
Definition released (i : nat) (done : list nat) (st : SortState)
    (j x : nat) : Prop :=
  j ∈ take i (indices st) \/ (indices st !! i = Some j /\ x ∈ done).

(** What holds of the entry [e] at position [k] of the result. *)
Definition entry_ok (i : nat) (done : list nat) (st : SortState)
    (k : nat) (e : _DrawTargetEntry) : Prop :=
  drawTarget e = drawTargets !!! originalIndex e /\
  (hasDependentDrawTargets e = true <->
     (k < i /\ exists x, dependsOn mem drawTargets x (originalIndex e) = true) \/
     (k = i /\ done <> [])) /\
  (forall j, dependsOn mem drawTargets (originalIndex e) j = true ->
     exists k', k' < k /\ indices st !! k' = Some j).

(** The invariant of the main loop. *)
Definition loop_inv (i : nat) (done : list nat) (st : SortState) : Prop :=
  length (indexToDependencies st) = length drawTargets /\
  NoDup (indices st) /\
  (forall x, x ∈ indices st -> x < length drawTargets) /\
  (forall x j, j ∈ indexToDependencies st !!! x <->
     dependsOn mem drawTargets x j = true /\ ~ released i done st j x) /\
  (forall x, x < length drawTargets ->
     (x ∈ indices st <->
      forall j, dependsOn mem drawTargets x j = true -> released i done st j x)) /\
  (forall k e, result st !! k = Some e -> entry_ok i done st k e).

(** The invariant once the main loop is over. *)
Definition main_done (st : SortState) : Prop :=
  loop_inv (length (result st)) [] st.

(** The targets the main loop left out, in the order they were given. *)
Definition leftOver (st : SortState) : list nat :=
  filter (fun x => x ∉ indices st) (seq 0 (length drawTargets)).

(** The statement that a flag tells whether some target of the batch
    depends on the entry's target. *)
Definition flags_match_dependents : Prop :=
  forall res events, _SortDrawTargets mem drawTargets [] = Some (res, events) ->
  forall e, e ∈ res ->
    (hasDependentDrawTargets e = true <->
     exists t, t ∈ drawTargets /\ _IsDependentOn mem t (drawTarget e) = true).

End SortVocabulary.

(** The two vectors of the task run in parallel, and every info points
    to a draw target. *)
Definition wf_task (self : HdxDrawTargetTask) : Prop :=
  length (_renderPasses self) = length (_renderPassesInfo self) /\
  Forall (fun info => is_Some (target info)) (_renderPassesInfo self).

(** What the branch for an unchanged draw target set does to one info
    and to its render pass. *)
Definition refreshInfo (mem : Memory) (info : _RenderPassInfo)
  : _RenderPassInfo :=
  match target info with
  | Some a =>
      if decide (version info <> GetVersion (mem a))
      then setVersion (GetVersion (mem a)) info else info
  | None => info
  end.

Definition refreshPass (mem : Memory) (info : _RenderPassInfo)
    (pass : HdxDrawTargetRenderPass) : HdxDrawTargetRenderPass :=
  match target info with
  | Some a =>
      if decide (version info <> GetVersion (mem a))
      then SetDrawTarget (GetGlfDrawTarget (mem a)) pass else pass
  | None => pass
  end.

Definition sameTarget (a b : _RenderPassInfo) : Prop :=
  target a = target b /\ version a = version b.

Definition isInvalidCamera (e : Event) : Prop :=
  match e with TF_CODING_ERROR_InvalidCamera _ => True | _ => False end.

(** The statement that a resolve follows a draw exactly when the flag of
    the pass is set. *)
Definition resolves_iff_flagged (self : HdxDrawTargetTask) : Prop :=
  forall events, Execute self = Some events ->
  forall idx pass, _renderPasses self !! idx = Some pass ->
    (HasDependentDrawTargets pass = true <->
     exists g, DrawTarget_Resolve idx g ∈ events).

(** The statement that [Sync] leaves the dirty bits clean however it
    returns. *)
Definition always_cleans (scene : Scene) (ctx : HdTaskContext) (dirtyBits : Z)
    (self : HdxDrawTargetTask) : Prop :=
  forall self' ctx' dirtyBits' events,
    Sync scene ctx dirtyBits self = Some (self', ctx', dirtyBits', events) ->
    dirtyBits' = Clean.

(** The statement that the aspect is the ratio of width to height, and 1
    for a height of zero. *)
Definition aspect_is_ratio (resolution : Z * Z) : Prop :=
  (resolution.2 <> 0%Z ->
   exists aspect,
     targetAspect resolution = Some aspect /\
     (aspect == inject_Z resolution.1 / inject_Z resolution.2)%Q) /\
  (resolution.2 = 0%Z -> targetAspect resolution = Some 1%Q).

(** No draw target of the scene has a resolution whose integer quotient
    is undefined. *)
Definition aspectsDefined (scene : Scene) : Prop :=
  forall a, is_Some (targetAspect (GetResolution (memory scene a))).

End Vocabulary.

(** * A sample scene

    Concrete collaborators, draw targets and scenes on which the model is
    run. *)

Module Sample.

Open Scope string_scope.

Definition collaborators : Collaborators := {|
  SdfPath := list string;
  HasPrefix := fun path prefix => bool_decide (prefix `prefix_of` path);
  GfVec4f := unit;
  float := unit;
  HdCullStyle := unit;
  TfTokenVector := list string;
  HdRenderPassAovBindingVector := unit;
  ClipPlanes := unit;
  GlfSimpleLightVector := unit;
  GlfSimpleMaterial := unit;
  GlfSimpleShadowArray := unit;
  GlfDrawTarget := nat;
  GfMatrix4d := list Q;
  GfMatrix4d_mul := fun a b => (a ++ b)%list;
  SetScale_1_m1_1 := [];
  CameraUtilConformWindowPolicy := unit;
  CameraUtilConformedWindow := fun projection _ aspect => (projection ++ [aspect])%list;
  Clean := 0%Z;
  DirtyParams := 4%Z;
  DirtyRenderTags := 16%Z
|}.

#[local] Existing Instance collaborators.

Definition drawTargetAt (id : list string) (roots : list (list string))
    (ver : Z) (surface : option nat) : HdStDrawTarget :=
  {| GetId := id;
     GetCollection := {| GetRootPaths := roots; GetExcludePaths := [] |};
     IsEnabled := true;
     GetVersion := ver;
     GetResolution := (1920, 1080)%Z;
     GetRenderPassState :=
       {| GetCamera := ["cameras"; "main"];
          GetDepthPriority := HdDepthPriorityFarthest;
          GetAovBindings := tt |};
     GetGlfDrawTarget := surface |}.

(** Mirror <- Screen <- Portal is a chain; LoopA and LoopB contain each
    other. *)
Definition mem : Memory := fun a =>
  match a with
  | 0 => drawTargetAt ["World"; "Mirror"] [] 1 (Some 10)
  | 1 => drawTargetAt ["World"; "Screen"] [["World"; "Mirror"]] 1 (Some 11)
  | 2 => drawTargetAt ["World"; "Portal"] [["World"; "Screen"]] 1 (Some 12)
  | 3 => drawTargetAt ["Loop"; "A"] [["Loop"; "B"]] 1 (Some 13)
  | _ => drawTargetAt ["Loop"; "B"] [["Loop"; "A"]] 1 (Some 14)
  end.

Definition chain : list HdStDrawTargetPtr := [Some 2; Some 1; Some 0].
Definition twoCycle : list HdStDrawTargetPtr := [Some 3; Some 4].
Definition mixed : list HdStDrawTargetPtr := [Some 3; Some 1; Some 4; Some 0].

Definition camera : HdCamera :=
  {| GetViewMatrix := []; GetProjectionMatrix := [];
     GetWindowPolicy := tt; GetClipPlanes := tt |}.

Definition params : HdxDrawTargetTaskParams :=
  {| overrideColor := tt; wireframeColor := tt; enableLighting := true;
     alphaThreshold := tt; depthBiasUseDefault := true;
     depthBiasEnable := false; depthBiasConstantFactor := tt;
     depthBiasSlopeFactor := tt; depthFunc := HdCmpFuncLess;
     cullStyle := tt |}.

Definition sceneWith (m : Memory) (p : option HdxDrawTargetTaskParams)
    (cam : option HdCamera) : Scene :=
  {| _GetTaskParams := p;
     _GetTaskRenderTags := ["geometry"];
     GetStateVersion_drawTargetSet := 1;
     GetDrawTargets := [Some 1; Some 0];
     memory := m;
     GetSprim_camera := fun _ => cam;
     IsEnabled_taskSetAlphaToCoverage := false;
     IsEnabled_HDX_DISABLE_ALPHA_TO_COVERAGE := false |}.

Definition scene : Scene := sceneWith mem (Some params) (Some camera).
Definition sceneNoParams : Scene := sceneWith mem None (Some camera).
Definition sceneNoCamera : Scene := sceneWith mem (Some params) None.

(** The mirror has no GPU surface yet. *)
Definition memNoSurface : Memory := fun a =>
  match a with
  | 0 => drawTargetAt ["World"; "Mirror"] [] 1 None
  | _ => mem a
  end.
Definition sceneNoSurface : Scene := sceneWith memNoSurface (Some params) (Some camera).

(** The mirror has changed since the last [Sync]. *)
Definition memMirrorChanged : Memory := fun a =>
  match a with
  | 0 => drawTargetAt ["World"; "Mirror"] [] 2 (Some 20)
  | _ => mem a
  end.
Definition sceneMirrorChanged : Scene :=
  sceneWith memMirrorChanged (Some params) (Some camera).

Definition ctx : HdTaskContext :=
  {| drawTargetRenderPasses := None; lightingContext := None |}.

Definition task0 : HdxDrawTargetTask :=
  HdxDrawTargetTask_new ["tasks"; "drawTargets"] tt tt tt tt [].

Definition taskAfter (s : Scene) (dirtyBits : Z) (self : HdxDrawTargetTask)
  : HdxDrawTargetTask :=
  match Sync s ctx dirtyBits self with
  | Some (self', _, _, _) => self'
  | None => self
  end.

Definition task1 : HdxDrawTargetTask := taskAfter scene 20 task0.
Definition taskNoSurface : HdxDrawTargetTask := taskAfter sceneNoSurface 20 task0.

End Sample.

(** * More vocabulary *)

Section MoreVocabulary.
Context {collaborators : Collaborators}.

(** The target at position [x] depends on no target of the batch. *)
Definition dependsOnNone (mem : Memory) (drawTargets : list HdStDrawTargetPtr)
    (x : nat) : bool :=
  forallb (fun j => negb (dependsOn mem drawTargets x j))
          (seq 0 (length drawTargets)).

(** The target at position [x] lies on a cycle of the dependency graph or
    depends, directly or not, on a target that does. *)
Definition reachesCycle (mem : Memory) (drawTargets : list HdStDrawTargetPtr)
    (x : nat) : Prop :=
  exists z, rtc (dependencyGraph mem drawTargets) x z /\
            tc (dependencyGraph mem drawTargets) z z.

End MoreVocabulary.

Section TaskVocabulary.
Context {collaborators : Collaborators}.

(** The camera the render-state loop looks up for an info. *)
Definition cameraIdOf (scene : Scene) (info : _RenderPassInfo) : option SdfPath :=
  a ← target info; Some (GetCamera (GetRenderPassState (memory scene a))).

Definition cameraOf (scene : Scene) (info : _RenderPassInfo) : option HdCamera :=
  cameraIdOf scene info ≫= GetSprim_camera scene.

(** The aspect the render-state loop computes for an info. *)
Definition aspectOf (scene : Scene) (info : _RenderPassInfo) : option Q :=
  a ← target info; targetAspect (GetResolution (memory scene a)).

(** An info the render-state loop gets through: its camera exists and
    its aspect is defined. *)
Definition ready (scene : Scene) (info : _RenderPassInfo) : Prop :=
  is_Some (cameraOf scene info) /\ is_Some (aspectOf scene info).

(** An info once the render-state loop has dealt with it. *)
Definition rebuiltInfo (scene : Scene) (self : HdxDrawTargetTask)
    (shared : option LightingValues) (info : _RenderPassInfo) : _RenderPassInfo :=
  match target info, cameraOf scene info, aspectOf scene info with
  | Some a, Some camera, Some aspect =>
      updateRenderPassInfo self shared camera (memory scene a) aspect info
  | _, _, _ => info
  end.

(** What the loop reports for the entries from [s] on, [m] of them. *)
Definition stateEvents (s m : nat) : list Event :=
  concat ((fun i => [RenderPassState_Prepare i; RenderPass_Sync i]) <$> seq s m).

(** The enabled draw target of an entry of the sort, if it has one. *)
Definition enabledTarget (mem : Memory) (entry : _DrawTargetEntry) : option nat :=
  a ← drawTarget entry; if IsEnabled (mem a) then Some a else None.

(** The render pass made for an entry of the sort. *)
Definition renderPassOf (mem : Memory) (entry : _DrawTargetEntry)
  : option HdxDrawTargetRenderPass :=
  a ← enabledTarget mem entry;
  Some {| GetDrawTarget := GetGlfDrawTarget (mem a);
          GetDrawTargetRenderPassState := a;
          HasDependentDrawTargets := hasDependentDrawTargets entry |}.

(** The target and the version of the info made for an entry. *)
Definition targetVersionOf (mem : Memory) (entry : _DrawTargetEntry)
  : option (HdStDrawTargetPtr * Z) :=
  a ← enabledTarget mem entry; Some (Some a, GetVersion (mem a)).

(** The info made for an entry of the sort. *)
Definition renderPassInfoOf (mem : Memory) (entry : _DrawTargetEntry)
  : option _RenderPassInfo :=
  a ← enabledTarget mem entry;
  Some {| renderPassState := None;
          simpleLightingShader :=
            {| lightingCamera := None; lightingValues := None |};
          target := Some a;
          version := GetVersion (mem a) |}.

(** The cached version of an info is the version of its draw target. *)
Definition upToDate (mem : Memory) (info : _RenderPassInfo) : Prop :=
  exists a, target info = Some a /\ version info = GetVersion (mem a).

(** The parameters a task holds. *)
Definition taskParams (self : HdxDrawTargetTask) : HdxDrawTargetTaskParams :=
  {| overrideColor := _overrideColor self;
     wireframeColor := _wireframeColor self;
     enableLighting := _enableLighting self;
     alphaThreshold := _alphaThreshold self;
     depthBiasUseDefault := _depthBiasUseDefault self;
     depthBiasEnable := _depthBiasEnable self;
     depthBiasConstantFactor := _depthBiasConstantFactor self;
     depthBiasSlopeFactor := _depthBiasSlopeFactor self;
     depthFunc := _depthFunc self;
     cullStyle := _cullStyle self |}.

End TaskVocabulary.

Section ExecuteVocabulary.
Context {collaborators : Collaborators}.

(** The tasks that exist: the one the constructor makes, and what [Sync]
    makes of a task that exists. *)
Inductive reachable : HdxDrawTargetTask -> Prop :=
| reachable_new id zeroColor zero one cullStyle noTags :
    reachable (HdxDrawTargetTask_new id zeroColor zero one cullStyle noTags)
| reachable_Sync scene ctx dirtyBits self self' ctx' dirtyBits' events :
    reachable self ->
    Sync scene ctx dirtyBits self = Some (self', ctx', dirtyBits', events) ->
    reachable self'.

End ExecuteVocabulary.

(** * More sample scenes *)

Module MoreSamples.

Open Scope string_scope.

#[local] Existing Instance Sample.collaborators.

(** The mirror and the portal do not see each other. *)
Definition separate : list HdStDrawTargetPtr := [Some 0; Some 2].

(** Two collections with the same paths in another order. *)
Definition collectionAB : HdRprimCollection :=
  {| GetRootPaths := [["World"]; ["Loop"]];
     GetExcludePaths := [["World"; "Mirror"]; ["Loop"; "A"]] |}.
Definition collectionBA : HdRprimCollection :=
  {| GetRootPaths := [["Loop"]; ["World"]];
     GetExcludePaths := [["Loop"; "A"]; ["World"; "Mirror"]] |}.

(** The screen shows the whole world but the mirror. *)
Definition memExcluding : Memory := fun a =>
  match a with
  | 1 => {| GetId := ["World"; "Screen"];
            GetCollection := {| GetRootPaths := [["World"]];
                                GetExcludePaths := [["World"; "Mirror"]] |};
            IsEnabled := true;
            GetVersion := 1;
            GetResolution := (1920, 1080)%Z;
            GetRenderPassState :=
              {| GetCamera := ["cameras"; "main"];
                 GetDepthPriority := HdDepthPriorityNearest;
                 GetAovBindings := tt |};
            GetGlfDrawTarget := Some 11 |}
  | _ => Sample.mem a
  end.

(** Every draw target is switched off. *)
Definition memDisabled : Memory := fun a =>
  {| GetId := GetId (Sample.mem a);
     GetCollection := GetCollection (Sample.mem a);
     IsEnabled := false;
     GetVersion := GetVersion (Sample.mem a);
     GetResolution := GetResolution (Sample.mem a);
     GetRenderPassState := GetRenderPassState (Sample.mem a);
     GetGlfDrawTarget := GetGlfDrawTarget (Sample.mem a) |}.
Definition sceneDisabled : Scene :=
  Sample.sceneWith memDisabled (Some Sample.params) (Some Sample.camera).

(** The screen, which shows the mirror, is switched off. *)
Definition memScreenOff : Memory := fun a =>
  match a with
  | 1 => {| GetId := GetId (Sample.mem 1);
            GetCollection := GetCollection (Sample.mem 1);
            IsEnabled := false;
            GetVersion := GetVersion (Sample.mem 1);
            GetResolution := GetResolution (Sample.mem 1);
            GetRenderPassState := GetRenderPassState (Sample.mem 1);
            GetGlfDrawTarget := GetGlfDrawTarget (Sample.mem 1) |}
  | _ => Sample.mem a
  end.
Definition sceneScreenOff : Scene :=
  Sample.sceneWith memScreenOff (Some Sample.params) (Some Sample.camera).

(** A tail that shows the first target of the loop and lies on no
    cycle itself. *)
Definition memTail : Memory := fun a =>
  match a with
  | 5 => Sample.drawTargetAt ["Tail"] [["Loop"; "A"]] 1 (Some 15)
  | _ => Sample.mem a
  end.
Definition withTail : list HdStDrawTargetPtr :=
  [Some 3; Some 5; Some 1; Some 4; Some 0].

(** The camera of the screen is lost; the one of the mirror is there. *)
Definition memLostCamera : Memory := fun a =>
  match a with
  | 1 => {| GetId := GetId (Sample.mem 1);
            GetCollection := GetCollection (Sample.mem 1);
            IsEnabled := true;
            GetVersion := GetVersion (Sample.mem 1);
            GetResolution := GetResolution (Sample.mem 1);
            GetRenderPassState :=
              {| GetCamera := ["cameras"; "lost"];
                 GetDepthPriority := HdDepthPriorityFarthest;
                 GetAovBindings := tt |};
            GetGlfDrawTarget := GetGlfDrawTarget (Sample.mem 1) |}
  | _ => Sample.mem a
  end.
Definition sceneLostCamera : Scene :=
  {| _GetTaskParams := Some Sample.params;
     _GetTaskRenderTags := ["geometry"];
     GetStateVersion_drawTargetSet := 1;
     GetDrawTargets := [Some 1; Some 0];
     memory := memLostCamera;
     GetSprim_camera := fun id =>
       if bool_decide (id = ["cameras"; "main"]) then Some Sample.camera else None;
     IsEnabled_taskSetAlphaToCoverage := false;
     IsEnabled_HDX_DISABLE_ALPHA_TO_COVERAGE := false |}.

(** The screen has the resolution whose quotient cannot be represented. *)
Definition memOverflow : Memory := fun a =>
  match a with
  | 1 => {| GetId := GetId (Sample.mem 1);
            GetCollection := GetCollection (Sample.mem 1);
            IsEnabled := true;
            GetVersion := GetVersion (Sample.mem 1);
            GetResolution := (INT_MIN, -1)%Z;
            GetRenderPassState := GetRenderPassState (Sample.mem 1);
            GetGlfDrawTarget := GetGlfDrawTarget (Sample.mem 1) |}
  | _ => Sample.mem a
  end.
Definition sceneOverflow : Scene :=
  Sample.sceneWith memOverflow (Some Sample.params) (Some Sample.camera).

(** Values whose floats are integers. *)
Definition numbers : Collaborators := {|
  SdfPath := unit;
  HasPrefix := fun _ _ => false;
  GfVec4f := Z;
  float := Z;
  HdCullStyle := nat;
  TfTokenVector := unit;
  HdRenderPassAovBindingVector := unit;
  ClipPlanes := unit;
  GlfSimpleLightVector := unit;
  GlfSimpleMaterial := unit;
  GlfSimpleShadowArray := unit;
  GlfDrawTarget := unit;
  GfMatrix4d := unit;
  GfMatrix4d_mul := fun _ _ => tt;
  SetScale_1_m1_1 := tt;
  CameraUtilConformWindowPolicy := unit;
  CameraUtilConformedWindow := fun _ _ _ => tt;
  Clean := 0%Z;
  DirtyParams := 4%Z;
  DirtyRenderTags := 16%Z
|}.

Definition numberParams : @HdxDrawTargetTaskParams numbers :=
  @Build_HdxDrawTargetTaskParams numbers
    0%Z 0%Z true 0%Z false true 1%Z 2%Z HdCmpFuncLEqual 0.

Definition printSign (z : Z) : string :=
  if (z <? 0)%Z then "-" else "+".
Definition printBool (b : bool) : string := if b then "1" else "0".
Definition printFunc (f : HdCompareFunction) : string :=
  if decide (f = HdCmpFuncLEqual) then "lequal" else "other".
Definition printCull (c : nat) : string := if c is 0 then "0" else "n".

End MoreSamples.

(** * Properties of the topological sort *)

Section SortProperties.
Context {collaborators : Collaborators}.
Variable mem : Memory.
Variable dts : list HdStDrawTargetPtr.

Local Abbreviation dep := (dependsOn mem dts).

(** An edge of the dependency graph joins two positions of the input. *)
Lemma dependsOn_lt i j : dep i j = true -> i < length dts /\ j < length dts.
Proof.
  unfold dependsOn, _IsDependentOn. intros Hd.
  destruct (dts !!! i) as [a|] eqn:Hi; [|done].
  destruct (dts !!! j) as [b|] eqn:Hj; [|done].
  split.
  - destruct (decide (i < length dts)); [done|].
    rewrite list_lookup_total_alt, lookup_ge_None_2 in Hi by lia. done.
  - destruct (decide (j < length dts)); [done|].
    rewrite list_lookup_total_alt, lookup_ge_None_2 in Hj by lia. done.
Qed.

(** ** The dependency tables *)

Lemma recordDependency_inv k m t :
  tables_inv mem dts k m t -> tables_inv mem dts k (S m) (recordDependency mem dts k t m).
Proof.
  intros (Hl1 & Hl2 & Hd & Hr). unfold recordDependency.
  fold (dependsOn mem dts k m).
  destruct (dep k m) eqn:Hkm.
  - destruct (dependsOn_lt _ _ Hkm) as [Hk Hm].
    split_and!; simpl.
    + by rewrite length_alter.
    + by rewrite length_alter.
    + intros i j.
      destruct (decide (k = i)) as [<-|Hne]; simpl.
      * rewrite list_lookup_total_alter_eq by lia.
        rewrite elem_of_union, elem_of_singleton, Hd.
        destruct (decide (j = m)) as [-> |]; [(intuition (subst; try congruence; try lia))|(intuition (subst; try congruence; try lia))].
      * rewrite list_lookup_total_alter_ne by done. rewrite Hd. (intuition (subst; try congruence; try lia)).
    + intros j.
      destruct (decide (m = j)) as [<-|Hne]; simpl.
      * rewrite list_lookup_total_alter_eq by lia. rewrite Hr. rewrite decide_False by lia. rewrite decide_True by (split; [lia|done]).
        by rewrite app_nil_r.
      * rewrite list_lookup_total_alter_ne by done.
        rewrite Hr. f_equal. apply decide_ext. (intuition (subst; try congruence; try lia)).
  - split_and!; try done.
    + intros i j. rewrite Hd.
      destruct (decide (j = m)) as [-> |]; [|(intuition (subst; try congruence; try lia))].
      destruct (decide (i = k)) as [-> |]; [|(intuition (subst; try congruence; try lia))].
      (intuition (subst; try congruence; try lia)).
    + intros j. rewrite Hr. f_equal. apply decide_ext.
      destruct (decide (j = m)) as [-> |]; [|(intuition (subst; try congruence; try lia))].
      (intuition (subst; try congruence; try lia)).
Qed.

Lemma dependents_upto_S k j :
  dependents_upto mem dts (S k) j =
  dependents_upto mem dts k j ++ (if decide (dep k j = true) then [k] else []).
Proof.
  unfold dependents_upto. rewrite seq_S, filter_app. f_equal.
Qed.

Lemma recordRow_inv k m t :
  tables_inv mem dts k 0 t ->
  tables_inv mem dts k m (foldl (recordDependency mem dts k) t (seq 0 m)).
Proof.
  intros Ht. induction m as [|m IH]; [done|].
  rewrite seq_S, foldl_app. simpl. by apply recordDependency_inv.
Qed.

Lemma tables_inv_next_row k t :
  tables_inv mem dts k (length dts) t -> tables_inv mem dts (S k) 0 t.
Proof.
  intros (Hl1 & Hl2 & Hd & Hr). split_and!; try done.
  - intros i j. rewrite Hd. split.
    + intros [Hij Hc]. split; [done|]. lia.
    + intros [Hij Hc]. split; [done|]. destruct (dependsOn_lt _ _ Hij). lia.
  - intros j. rewrite Hr, dependents_upto_S.
    rewrite (decide_False (P := j < 0 /\ _)) by lia.
    rewrite app_nil_r. f_equal. apply decide_ext. split; [intuition|].
    intros Hkj. destruct (dependsOn_lt _ _ Hkj). done.
Qed.

Lemma computeRows_inv k :
  tables_inv mem dts k 0
    (foldl (fun t dependent =>
              foldl (recordDependency mem dts dependent) t (seq 0 (length dts)))
           (replicate (length dts) ∅, replicate (length dts) [])
           (seq 0 k)).
Proof.
  induction k as [|k IH].
  - split_and!; simpl.
    + by rewrite length_replicate.
    + by rewrite length_replicate.
    + intros i j. split; [|lia]. intros Hin. exfalso.
      destruct (decide (i < length dts)).
      * rewrite list_lookup_total_alt, lookup_replicate_2 in Hin by done. set_solver.
      * rewrite list_lookup_total_alt, lookup_ge_None_2 in Hin
          by (rewrite length_replicate; lia). set_solver.
    + intros j.
      destruct (decide (j < length dts)).
      * by rewrite list_lookup_total_alt, lookup_replicate_2.
      * by rewrite list_lookup_total_alt, lookup_ge_None_2
          by (rewrite length_replicate; lia).
  - rewrite seq_S, foldl_app. simpl. apply tables_inv_next_row.
    by apply recordRow_inv.
Qed.

(** The double loop fills [indexToDependencies] with the dependencies of
    each target and [indexToDependents] with its dependents, in
    increasing order. *)
Lemma computeDependencies_spec :
  let t := computeDependencies mem dts (length dts) in
  length t.1 = length dts /\
  (forall i j, j ∈ t.1 !!! i <-> dep i j = true) /\
  (forall j, t.2 !!! j = dependents_upto mem dts (length dts) j).
Proof.
  destruct (computeRows_inv (length dts)) as (Hl1 & Hl2 & Hd & Hr).
  split_and!; [done| |].
  - intros i j. unfold computeDependencies. rewrite Hd. split; [intuition|].
    intros Hij. split; [done|]. destruct (dependsOn_lt _ _ Hij). lia.
  - intros j. unfold computeDependencies. rewrite Hr.
    rewrite decide_False by lia. by rewrite app_nil_r.
Qed.


(** ** The main loop *)

Lemma indices_alter_mark i (l : list _DrawTargetEntry) :
  originalIndex <$> alter (markDependent) i l = originalIndex <$> l.
Proof.
  revert i. induction l as [|e l IH]; intros [|i]; simpl; try done.
  f_equal. apply IH.
Qed.

Lemma NoDup_not_in_take (l : list nat) i d :
  NoDup l -> l !! i = Some d -> d ∉ take i l.
Proof.
  intros Hnd Hi [k [Hk Hlt]]%elem_of_take.
  assert (k = i) by (eapply NoDup_lookup; eauto). lia.
Qed.

Lemma NoDup_bounded_length (l : list nat) m :
  NoDup l -> (forall x, x ∈ l -> x < m) -> length l <= m.
Proof.
  intros Hnd Hb. transitivity (length (seq 0 m)); [|by rewrite length_seq].
  apply submseteq_length, NoDup_submseteq; [done|].
  intros x Hx. apply elem_of_seq. specialize (Hb x Hx). lia.
Qed.

Lemma gset_empty_iff (s : gset nat) : s = ∅ <-> forall j, j ∉ s.
Proof. set_solver. Qed.

(** One round of the inner loop keeps the invariant. *)
Lemma releaseDependent_inv i d done st x :
  loop_inv mem dts i done st ->
  indices st !! i = Some d ->
  dep x d = true ->
  x ∉ done ->
  loop_inv mem dts i (done ++ [x]) (releaseDependent dts i d st x) /\
  indices (releaseDependent dts i d st x) !! i = Some d.
Proof.
  intros (Hlen & Hnd & Hbound & Hdeps & Hsched & Hent) Hi Hxd Hxdone.
  destruct (dependsOn_lt _ _ Hxd) as [Hxn Hdn].
  pose proof (NoDup_not_in_take _ _ _ Hnd Hi) as Hdtake.
  assert (Hilt : i < length (indices st)) by (by eapply lookup_lt_Some).
  (* the set of [x] once [d] is erased from it *)
  set (deps' := alter (fun s => s ∖ {[d]}) x (indexToDependencies st)).
  assert (Hdeps'x : forall j, j ∈ deps' !!! x <->
            dep x j = true /\ (j ∉ take i (indices st)) /\ j <> d).
  { intros j. unfold deps'. rewrite list_lookup_total_alter_eq by lia.
    rewrite elem_of_difference, elem_of_singleton, Hdeps. unfold released.
    rewrite Hi. split.
    - intros [[Hxj Hnr] Hjd]. tauto.
    - intros (Hxj & Hnt & Hjd). split; [|done]. split; [done|].
      intros [?|[[= ->] _]]; done. }
  assert (Hdeps'y : forall y, y <> x -> deps' !!! y = indexToDependencies st !!! y).
  { intros y Hy. unfold deps'. by rewrite list_lookup_total_alter_ne. }
  assert (Hxnot : x ∉ indices st).
  { intros Hin. destruct (proj1 (Hsched x Hxn) Hin d Hxd) as [?|[_ ?]]; done. }
  (* the indices after the round *)
  set (st' := releaseDependent dts i d st x).
  assert (Hidx' : indices st' =
            indices st ++ (if decide (deps' !!! x = ∅) then [x] else [])).
  { unfold st', releaseDependent, indices. simpl. fold deps'.
    rewrite indices_alter_mark.
    destruct (decide (deps' !!! x = ∅)); [|by rewrite app_nil_r].
    by rewrite fmap_app. }
  assert (Htake' : take i (indices st') = take i (indices st)).
  { rewrite Hidx'. apply take_app_le. lia. }
  assert (Hi' : indices st' !! i = Some d).
  { rewrite Hidx'. by apply lookup_app_l_Some. }
  assert (Hrel : forall j y, released i (done ++ [x]) st' j y <->
            released i done st j y \/ (j = d /\ y = x)).
  { intros j y. unfold released. rewrite Htake', Hi', Hi, elem_of_app, list_elem_of_singleton.
    split.
    - intros [?|[[= ->] [?| ->]]]; auto.
    - intros [[?|[[= ->] ?]]|[-> ->]]; auto. }
  split; [|done].
  split_and!.
  - unfold st', releaseDependent. simpl. by rewrite length_alter.
  - rewrite Hidx'. destruct (decide (deps' !!! x = ∅)); [|by rewrite app_nil_r].
    apply NoDup_app. split_and!; [done| |apply NoDup_singleton].
    intros y Hy ->%list_elem_of_singleton. done.
  - intros y. rewrite Hidx', elem_of_app. intros [Hy|Hy]; [by apply Hbound|].
    destruct (decide (deps' !!! x = ∅)); [|by apply elem_of_nil in Hy].
    by apply list_elem_of_singleton in Hy as ->.
  - intros y j. rewrite Hrel.
    change (indexToDependencies st') with deps'.
    destruct (decide (y = x)) as [-> |Hy].
    + rewrite Hdeps'x. unfold released. rewrite Hi. split.
      * intros (Hxj & Hnt & Hjd). split; [done|].
        intros [[?|[[= ->] ?]]|[-> _]]; done.
      * intros (Hxj & Hnr). split; [done|]. split.
        -- intros ?. apply Hnr. left. by left.
        -- intros ->. apply Hnr. by right.
    + rewrite Hdeps'y, Hdeps by done. split.
      * intros [Hyj Hnr]. split; [done|]. intros [?|[_ ?]]; done.
      * intros [Hyj Hnr]. split; [done|]. intros ?. apply Hnr. by left.
  - intros y Hyn. rewrite Hidx', elem_of_app.
    destruct (decide (y = x)) as [-> |Hy].
    + split.
      * intros [?|Hx]; [done|].
        destruct (decide (deps' !!! x = ∅)) as [He|]; [|by apply elem_of_nil in Hx].
        intros j Hxj. apply Hrel. destruct (decide (j = d)) as [-> |Hjd]; [by right|].
        left. left. destruct (decide (j ∈ take i (indices st))); [done|].
        exfalso. eapply (proj1 (gset_empty_iff _) He j). apply Hdeps'x. done.
      * intros Hall. right.
        rewrite decide_True; [by apply list_elem_of_singleton|].
        apply gset_empty_iff. intros j (Hxj & Hnt & Hjd)%Hdeps'x.
        specialize (Hall j Hxj). apply Hrel in Hall.
        unfold released in Hall. rewrite Hi in Hall.
        destruct Hall as [[?|[[= ->] ?]]|[-> _]]; done.
    + rewrite (Hsched y Hyn). split.
      * intros [Hall|Hyx] j Hyj; [apply Hrel; left; by apply Hall|].
        destruct (decide (deps' !!! x = ∅)); [|by apply elem_of_nil in Hyx].
        by apply list_elem_of_singleton in Hyx.
      * intros Hall. left. intros j Hyj. specialize (Hall j Hyj).
        apply Hrel in Hall. destruct Hall as [?|[_ ?]]; done.
  - intros k e Hk.
    assert (Hsome : exists e0, (result st ++
               (if decide (deps' !!! x = ∅) then [newEntry dts x] else [])) !! k = Some e0 /\
              originalIndex e = originalIndex e0 /\ drawTarget e = drawTarget e0 /\
              hasDependentDrawTargets e =
                (if decide (k = i) then true else hasDependentDrawTargets e0)).
    { unfold st', releaseDependent in Hk. simpl in Hk. fold deps' in Hk.
      rewrite list_lookup_alter in Hk.
      replace (if decide (deps' !!! x = ∅) then result st ++ [newEntry dts x] else result st)
        with (result st ++ (if decide (deps' !!! x = ∅) then [newEntry dts x] else [])) in Hk
        by (destruct (decide (deps' !!! x = ∅)); [done|by rewrite app_nil_r]).
      destruct (decide (i = k)) as [-> |Hik].
      - apply fmap_Some in Hk as (e0 & He0 & ->).
        exists e0. rewrite (decide_True (P := k = k)) by done. by split_and!.
      - exists e. rewrite (decide_False (P := k = i)) by done.
        by destruct (hasDependentDrawTargets e); split_and!. }
    destruct Hsome as (e0 & He0 & Hoi & Hdt & Hflag).
    unfold entry_ok. rewrite Hoi, Hdt, Hflag. clear Hoi Hdt Hflag Hk.
    apply lookup_app_Some in He0 as [He0|[Hklen He0]].
    + destruct (Hent k e0 He0) as (Hdt0 & Hfl0 & Hord0).
      split_and!; [done| |].
      * destruct (decide (k = i)) as [-> |Hki].
        -- split; [|done]. intros _. right. split; [done|]. by destruct done.
        -- rewrite Hfl0. split.
           ++ intros [?|[? ?]]; [by left|lia].
           ++ intros [?|[? ?]]; [by left|lia].
      * intros j Hj. destruct (Hord0 j Hj) as (k' & Hk' & Hjk').
        exists k'. split; [done|]. rewrite Hidx'. by apply lookup_app_l_Some.
    + destruct (decide (deps' !!! x = ∅)) as [He|]; [|by rewrite lookup_nil in He0].
      apply list_lookup_singleton_Some in He0 as [Hk0 <-].
      unfold indices in Hilt. rewrite length_fmap in Hilt.
      simpl. split_and!; [done| |].
      * rewrite decide_False by lia. split; [done|].
        intros [[? _]|[? _]]; lia.
      * intros j Hxj.
        destruct (decide (j = d)) as [-> |Hjd].
        -- exists i. split; [lia|done].
        -- destruct (decide (j ∈ take i (indices st))) as [Hin|Hnin].
           ++ apply elem_of_take in Hin as (k' & Hk' & Hlt).
              exists k'. split; [lia|]. rewrite Hidx'. by apply lookup_app_l_Some.
           ++ exfalso. eapply (proj1 (gset_empty_iff _) He j). apply Hdeps'x. done.
Qed.


(** So does the whole inner loop. *)
Lemma releaseDependents_inv i d todo :
  forall done st,
  loop_inv mem dts i done st ->
  indices st !! i = Some d ->
  (forall x, x ∈ todo -> dep x d = true) ->
  NoDup (done ++ todo) ->
  loop_inv mem dts i (done ++ todo) (foldl (releaseDependent dts i d) st todo) /\
  indices (foldl (releaseDependent dts i d) st todo) !! i = Some d.
Proof.
  induction todo as [|x todo IH]; intros done st Hinv Hi Hdep Hnd.
  - by rewrite app_nil_r.
  - simpl.
    apply NoDup_app in Hnd as (Hnd1 & Hdis & Hnd2).
    destruct (releaseDependent_inv i d done st x) as [Hinv' Hi']; try done.
    + apply Hdep. by left.
    + intros Hx. apply (Hdis x Hx). by left.
    + rewrite (assoc_L (++) done [x] todo : done ++ x :: todo = (done ++ [x]) ++ todo).
      apply IH; try done.
      * intros y Hy. apply Hdep. by right.
      * apply NoDup_app. split_and!.
        -- apply NoDup_app. split_and!; [done| |apply NoDup_singleton].
           intros y Hy ->%list_elem_of_singleton. apply (Hdis x Hy). by left.
        -- intros y [Hy| ->%list_elem_of_singleton]%elem_of_app Hy'.
           ++ apply (Hdis y Hy). by right.
           ++ by apply NoDup_cons in Hnd2 as [? _].
        -- by apply NoDup_cons in Hnd2 as [_ ?].
Qed.

Lemma elem_of_dependents_upto x k j :
  x ∈ dependents_upto mem dts k j <-> dep x j = true /\ x < k.
Proof.
  unfold dependents_upto. rewrite list_elem_of_filter, elem_of_seq.
  intuition lia.
Qed.

Lemma elem_of_dependents x j :
  x ∈ dependents_upto mem dts (length dts) j <-> dep x j = true.
Proof.
  rewrite elem_of_dependents_upto. split; [tauto|].
  intros Hx. split; [done|]. by destruct (dependsOn_lt _ _ Hx).
Qed.

(** Once all dependents of the entry at [i] are dealt with, the
    invariant holds for [i + 1]. *)
Lemma loop_inv_next i d st :
  loop_inv mem dts i (dependents_upto mem dts (length dts) d) st ->
  indices st !! i = Some d ->
  loop_inv mem dts (S i) [] st.
Proof.
  intros (Hlen & Hnd & Hbound & Hdeps & Hsched & Hent) Hi.
  assert (Hrel : forall j x, dep x j = true ->
            (released i (dependents_upto mem dts (length dts) d) st j x <->
             released (S i) [] st j x)).
  { intros j x Hxj. unfold released.
    rewrite (take_S_r _ _ _ Hi), elem_of_app, list_elem_of_singleton, Hi.
    rewrite elem_of_dependents. split.
    - intros [?|[[= ->] _]]; auto.
    - intros [[?| ->]|[_ []%elem_of_nil]]; auto. }
  split_and!; try done.
  - intros x j. rewrite Hdeps. split; intros [Hxj Hnr]; (split; [done|]);
      by rewrite (Hrel j x Hxj) in *.
  - intros x Hx. rewrite (Hsched x Hx).
    split; intros Hall j Hxj; apply (Hrel j x Hxj); by apply Hall.
  - intros k e Hk. destruct (Hent k e Hk) as (Hdt & Hfl & Hord).
    split_and!; [done| |done].
    rewrite Hfl. split.
    + intros [[Hlt Hex]|[-> Hne]]; left; (split; [lia|]); [done|].
      assert (originalIndex e = d) as ->.
      { unfold indices in Hi. rewrite list_lookup_fmap, Hk in Hi. by injection Hi. }
      destruct (dependents_upto mem dts (length dts) d) as [|x l] eqn:Hdu; [done|].
      exists x. apply elem_of_dependents. rewrite Hdu. by left.
    + intros [[Hlt [x Hx]]|[_ ?]]; [|done].
      destruct (decide (k = i)) as [->|]; [|left; split; [lia|by exists x]].
      right. split; [done|].
      assert (originalIndex e = d) as Hed.
      { unfold indices in Hi. rewrite list_lookup_fmap, Hk in Hi. by injection Hi. }
      rewrite Hed in Hx. apply elem_of_dependents in Hx.
      intros Hnil. rewrite Hnil in Hx. by apply elem_of_nil in Hx.
Qed.

Lemma scheduleIndependent_spec m st :
  scheduleIndependent dts m st =
  {| indexToDependencies := indexToDependencies st;
     result := result st ++
               (newEntry dts <$> filter (fun x => indexToDependencies st !!! x = ∅)
                                        (seq 0 m)) |}.
Proof.
  unfold scheduleIndependent. induction m as [|m IH].
  - simpl. rewrite app_nil_r. by destruct st.
  - rewrite seq_S, foldl_app, IH, filter_app, fmap_app. simpl.
    rewrite filter_cons, filter_nil.
    destruct (decide (indexToDependencies st !!! m = ∅)); simpl.
    + by rewrite <- (assoc_L (++)).
    + by rewrite app_nil_r.
Qed.

Lemma indices_newEntry (l : list nat) : originalIndex <$> (newEntry dts <$> l) = l.
Proof. induction l as [|x l IH]; simpl; [done|]. by f_equal. Qed.

(** The first loop establishes the invariant. *)
Lemma loop_inv_start :
  let t := computeDependencies mem dts (length dts) in
  loop_inv mem dts 0 []
    (scheduleIndependent dts (length dts)
       {| indexToDependencies := t.1; result := [] |}).
Proof.
  intros t. destruct computeDependencies_spec as (Hlen & Hd & _). fold t in Hlen, Hd.
  rewrite scheduleIndependent_spec. simpl.
  assert (Hrel : forall st j x, ~ released 0 [] st j x).
  { intros st j x [Hin|[_ Hin]]; by apply elem_of_nil in Hin. }
  assert (Hin : forall x (l : list nat), x ∈ filter (fun x => t.1 !!! x = ∅) l <->
                            (forall j, dep x j = false) /\ x ∈ l).
  { intros x l. rewrite list_elem_of_filter, gset_empty_iff.
    split; intros [He ?]; (split; [|done]); intros j; specialize (He j);
      rewrite Hd in *; by destruct (dep x j). }
  split_and!; simpl.
  - done.
  - unfold indices. simpl. rewrite indices_newEntry.
    apply NoDup_filter, NoDup_seq.
  - unfold indices. simpl. rewrite indices_newEntry.
    intros x [_ Hx%elem_of_seq]%list_elem_of_filter. lia.
  - intros x j. rewrite Hd. split; [|tauto]. intros ?. split; [done|apply Hrel].
  - intros x Hx. unfold indices. simpl. rewrite indices_newEntry, Hin, elem_of_seq.
    split.
    + intros [He _] j Hj. rewrite He in Hj. done.
    + intros Hall. split; [|lia]. intros j.
      destruct (dep x j) eqn:Hj; [|done]. by destruct (Hrel _ _ _ (Hall j Hj)).
  - intros k e Hk. rewrite list_lookup_fmap in Hk.
    apply fmap_Some in Hk as (x & Hx & ->).
    apply list_elem_of_lookup_2, Hin in Hx as [He _].
    split_and!; simpl; [done| |].
    + split; [done|]. intros [[? _]|[_ ?]]; [lia|done].
    + intros j Hj. rewrite He in Hj. done.
Qed.

Lemma loop_inv_length i done st :
  loop_inv mem dts i done st -> length (result st) <= length dts.
Proof.
  intros (_ & Hnd & Hbound & _).
  replace (length (result st)) with (length (indices st))
    by (unfold indices; apply length_fmap).
  by apply NoDup_bounded_length.
Qed.

(** The main loop ends within the rounds it is given, and keeps the
    invariant. *)
Lemma scheduleLoop_inv (indexToDependents : list (list nat)) :
  (forall j, indexToDependents !!! j = dependents_upto mem dts (length dts) j) ->
  forall fuel i st,
  loop_inv mem dts i [] st ->
  i <= length (result st) ->
  length dts <= fuel + i ->
  exists st', scheduleLoop dts indexToDependents fuel i st = Some st' /\
              loop_inv mem dts (length (result st')) [] st'.
Proof.
  intros Ht. induction fuel as [|fuel IH]; intros i st Hinv Hi Hfuel.
  - simpl. destruct (result st !! i) as [entry|] eqn:He.
    + apply lookup_lt_Some in He. pose proof (loop_inv_length _ _ _ Hinv). lia.
    + apply lookup_ge_None in He. exists st. split; [done|].
      by replace (length (result st)) with i by lia.
  - simpl. destruct (result st !! i) as [entry|] eqn:He.
    + assert (Hidx : indices st !! i = Some (originalIndex entry)).
      { unfold indices. by rewrite list_lookup_fmap, He. }
      rewrite Ht.
      destruct (releaseDependents_inv i (originalIndex entry)
                  (dependents_upto mem dts (length dts) (originalIndex entry)) [] st)
        as [Hinv' Hidx']; try done.
      * intros x. by rewrite elem_of_dependents.
      * simpl. apply NoDup_filter, NoDup_seq.
      * simpl in Hinv'. apply IH.
        -- by eapply loop_inv_next.
        -- apply lookup_lt_Some in Hidx'. unfold indices in Hidx'.
           rewrite length_fmap in Hidx'. lia.
        -- lia.
    + apply lookup_ge_None in He. exists st. split; [done|].
      by replace (length (result st)) with i by lia.
Qed.


(** ** After the main loop *)

Lemma main_done_released st j x :
  released (length (result st)) [] st j x <-> j ∈ indices st.
Proof.
  unfold released. rewrite take_ge by (unfold indices; by rewrite length_fmap).
  split; [|by left]. intros [?|[_ []%elem_of_nil]]. done.
Qed.

Lemma main_done_scheduled st x :
  main_done mem dts st -> x < length dts ->
  (x ∈ indices st <-> indexToDependencies st !!! x = ∅).
Proof.
  intros (_ & _ & _ & Hdeps & Hsched & _) Hx.
  rewrite (Hsched x Hx), gset_empty_iff. split.
  - intros Hall j [Hxj Hnr]%Hdeps. apply Hnr, Hall, Hxj.
  - intros He j Hxj. apply main_done_released.
    destruct (decide (j ∈ indices st)) as [|Hnin]; [done|].
    exfalso. apply (He j), Hdeps. split; [done|]. by rewrite main_done_released.
Qed.

Lemma main_done_unscheduled st x :
  main_done mem dts st -> x < length dts -> x ∉ indices st ->
  exists j, dep x j = true /\ j < length dts /\ j ∉ indices st.
Proof.
  intros Hst Hx Hnin.
  destruct (set_choose_L (indexToDependencies st !!! x)) as [j Hj].
  { intros He. by apply Hnin, main_done_scheduled. }
  destruct Hst as (_ & _ & _ & Hdeps & _).
  apply Hdeps in Hj as [Hxj Hnr]. rewrite main_done_released in Hnr.
  exists j. split_and!; [done| |done]. by destruct (dependsOn_lt _ _ Hxj).
Qed.

Lemma main_done_order st p e j :
  main_done mem dts st -> result st !! p = Some e -> dep (originalIndex e) j = true ->
  exists q, q < p /\ indices st !! q = Some j.
Proof.
  intros (_ & _ & _ & _ & _ & Hent) He Hj.
  destruct (Hent p e He) as (_ & _ & Hord). by apply Hord.
Qed.

Lemma sortMain_done :
  exists st, sortMain mem dts [] = Some st /\ main_done mem dts st.
Proof.
  unfold sortMain. destruct computeDependencies_spec as (_ & _ & Ht).
  apply scheduleLoop_inv; [done| |lia|lia].
  apply loop_inv_start.
Qed.

(** A set of nodes each of which has an edge into the set holds a cycle. *)
Lemma descent_chain (R : relation nat) (P : nat -> Prop) (bound : nat) :
  (forall x, P x -> x < bound) ->
  (forall x, P x -> exists y, P y /\ R x y) ->
  forall m (l : list nat) h,
  bound < m + length l -> NoDup l -> h ∈ l ->
  (forall z, z ∈ l -> P z /\ rtc R z h) ->
  exists z, tc R z z.
Proof.
  intros Hb Hstep. induction m as [|m IH]; intros l h Hm Hnd Hh Hl.
  - exfalso. assert (length l <= bound); [|lia].
    apply NoDup_bounded_length; [done|]. intros z Hz. by apply Hb, Hl.
  - destruct (Hstep h) as (y & Hy & Hhy); [by apply Hl|].
    destruct (decide (y ∈ l)) as [Hin|Hnin].
    + exists y. eapply tc_rtc_l; [by apply Hl|]. by apply tc_once.
    + apply (IH (y :: l) y).
      * simpl. lia.
      * by apply NoDup_cons.
      * by left.
      * intros z [->|Hz]%elem_of_cons; [done|].
        split; [by apply Hl|]. eapply rtc_r; [by apply Hl|done].
Qed.

(** In an acyclic graph the main loop schedules every target. *)
Lemma acyclic_all_scheduled st x :
  acyclic mem dts -> main_done mem dts st -> x < length dts -> x ∈ indices st.
Proof.
  intros Hac Hst Hx. destruct (decide (x ∈ indices st)) as [|Hnin]; [done|].
  exfalso.
  destruct (descent_chain (dependencyGraph mem dts)
              (fun x => x < length dts /\ x ∉ indices st) (length dts))
    with (m := S (length dts)) (l := [x]) (h := x) as [z Hz].
  - tauto.
  - intros y [Hy Hyn]. destruct (main_done_unscheduled st y) as (j & ? & ? & ?); eauto.
  - simpl. lia.
  - apply NoDup_singleton.
  - by left.
  - intros z ->%list_elem_of_singleton. done.
  - by apply (Hac z).
Qed.

(** It schedules no target that lies on a cycle. *)
Lemma on_cycle_unscheduled st x :
  main_done mem dts st -> tc (dependencyGraph mem dts) x x -> x ∉ indices st.
Proof.
  intros Hst Hcyc Hin.
  assert (Hreach : forall a b, tc (dependencyGraph mem dts) a b ->
            forall p, indices st !! p = Some a ->
            exists q, q < p /\ indices st !! q = Some b).
  { induction 1 as [a b Hab|a b c Hab _ IH]; intros p Hp.
    - unfold indices in Hp. rewrite list_lookup_fmap in Hp.
      apply fmap_Some in Hp as (e & He & ->). by eapply main_done_order.
    - unfold indices in Hp. rewrite list_lookup_fmap in Hp.
      apply fmap_Some in Hp as (e & He & ->).
      destruct (main_done_order st p e b Hst He Hab) as (q & Hq & Hb).
      destruct (IH q Hb) as (r & Hr & Hc). exists r. split; [lia|done]. }
  apply list_elem_of_lookup in Hin as [p Hp].
  destruct (Hreach x x Hcyc p Hp) as (q & Hq & Hx).
  destruct Hst as (_ & Hnd & _).
  assert (p = q) by (eapply NoDup_lookup; eauto). lia.
Qed.

(** ** The fallback and the whole sort *)

Lemma scheduleCycles_spec st :
  main_done mem dts st ->
  result (scheduleCycles dts (length dts) st) =
  result st ++ (newEntry dts <$> leftOver dts st).
Proof.
  intros Hst. unfold scheduleCycles, leftOver.
  destruct (decide (length (result st) < length dts)) as [Hlt|Hge].
  - assert (Hgen : forall m, m <= length dts ->
      foldl (fun st0 i =>
               if decide (indexToDependencies st0 !!! i ≠ ∅)
               then {| indexToDependencies := indexToDependencies st0;
                       result := result st0 ++ [newEntry dts i] |}
               else st0) st (seq 0 m) =
      {| indexToDependencies := indexToDependencies st;
         result := result st ++
                   (newEntry dts <$> filter (fun x => x ∉ indices st) (seq 0 m)) |}).
    { induction m as [|m IH]; intros Hm.
      - simpl. rewrite app_nil_r. by destruct st.
      - rewrite seq_S, foldl_app, IH, filter_app, fmap_app by lia. simpl.
        rewrite filter_cons, filter_nil.
        destruct (decide (indexToDependencies st !!! m ≠ ∅)) as [Hne|He].
        + rewrite decide_True; [by rewrite <- (assoc_L (++))|].
          intros Hin. apply Hne. apply main_done_scheduled; [done|lia|done].
        + rewrite decide_False; [by rewrite app_nil_r|].
          intros Hnin. apply Hnin. apply main_done_scheduled; [done|lia|].
          by destruct (decide (indexToDependencies st !!! m = ∅)). }
    by rewrite Hgen.
  - destruct Hst as (_ & Hnd & Hbound & _).
    assert (Hperm : indices st ≡ₚ seq 0 (length dts)).
    { apply submseteq_length_Permutation.
      - apply NoDup_submseteq; [done|]. intros x Hx%Hbound. apply elem_of_seq. lia.
      - rewrite length_seq. unfold indices. rewrite length_fmap. lia. }
    destruct (filter _ _) as [|y l] eqn:Hf; [by rewrite app_nil_r|]. exfalso.
    assert (Hy : y ∈ filter (fun x => x ∉ indices st) (seq 0 (length dts)))
      by (rewrite Hf; by left).
    apply list_elem_of_filter in Hy as [Hnin Hy]. apply Hnin. by rewrite Hperm.
Qed.

Lemma leftOver_perm st :
  main_done mem dts st -> (indices st ++ leftOver dts st) ≡ₚ seq 0 (length dts).
Proof.
  intros (_ & Hnd & Hbound & _). apply NoDup_Permutation.
  - apply NoDup_app. split_and!; [done| |apply NoDup_filter, NoDup_seq].
    intros x Hx [Hnin _]%list_elem_of_filter. done.
  - apply NoDup_seq.
  - intros x. unfold leftOver.
    rewrite elem_of_app, list_elem_of_filter, elem_of_seq. split.
    + intros [Hx%Hbound|[_ ?]]; lia.
    + intros Hx. destruct (decide (x ∈ indices st)); [by left|right].
      split; [done|lia].
Qed.

(** The whole sort, started on an empty result. *)
Lemma sort_spec :
  exists st,
    sortMain mem dts [] = Some st /\ main_done mem dts st /\
    _SortDrawTargets mem dts [] =
      Some (result st ++ (newEntry dts <$> leftOver dts st), []).
Proof.
  destruct sortMain_done as (st & Hmain & Hst).
  exists st. split_and!; [done|done|].
  assert (Hlen : length (result st ++ (newEntry dts <$> leftOver dts st)) = length dts).
  { rewrite <- (length_seq (length dts) 0), <- (leftOver_perm st Hst).
    unfold indices. by rewrite !length_app, !length_fmap. }
  unfold _SortDrawTargets. destruct (decide (dts = [])) as [->|Hne].
  - destruct (result st ++ _); [done|]. simpl in Hlen. lia.
  - rewrite Hmain. simpl. rewrite scheduleCycles_spec by done.
    by rewrite decide_False by (intros Hn; by apply Hn).
Qed.



Lemma main_done_drawTarget st k e :
  main_done mem dts st -> result st !! k = Some e ->
  drawTarget e = dts !!! originalIndex e.
Proof.
  intros (_ & _ & _ & _ & _ & Hent) He. by destruct (Hent k e He).
Qed.

Lemma main_done_flag st k e :
  main_done mem dts st -> result st !! k = Some e ->
  (hasDependentDrawTargets e = true <-> exists x, dep x (originalIndex e) = true).
Proof.
  intros (_ & _ & _ & _ & _ & Hent) He. destruct (Hent k e He) as (_ & Hfl & _).
  rewrite Hfl. apply lookup_lt_Some in He. split.
  - intros [[_ ?]|[? ?]]; [done|lia].
  - intros ?. by left.
Qed.

Lemma has_dependent_iff i :
  (exists x, dep x i = true) <->
  (exists t, t ∈ dts /\ _IsDependentOn mem t (dts !!! i) = true).
Proof.
  split.
  - intros [x Hx]. exists (dts !!! x). split; [|done].
    apply list_elem_of_lookup_total_2. by destruct (dependsOn_lt _ _ Hx).
  - intros (t' & [x Hx]%list_elem_of_lookup & Ht'). exists x.
    unfold dependsOn. by rewrite (list_lookup_total_correct _ _ _ Hx).
Qed.

Lemma sort_entries_drawTarget st e :
  main_done mem dts st -> e ∈ result st ++ (newEntry dts <$> leftOver dts st) ->
  drawTarget e = dts !!! originalIndex e.
Proof.
  intros Hst [[k Hk]%list_elem_of_lookup|He]%elem_of_app.
  - by eapply main_done_drawTarget.
  - apply list_elem_of_fmap in He as (x & -> & _). done.
Qed.

Lemma acyclic_leftOver st :
  acyclic mem dts -> main_done mem dts st -> leftOver dts st = [].
Proof.
  intros Hac Hst. unfold leftOver.
  destruct (filter _ _) as [|y l] eqn:Hf; [done|]. exfalso.
  assert (Hy : y ∈ filter (fun x => x ∉ indices st) (seq 0 (length dts)))
    by (rewrite Hf; by left).
  apply list_elem_of_filter in Hy as [Hnin Hy%elem_of_seq].
  apply Hnin, acyclic_all_scheduled; [done|done|lia].
Qed.

Lemma sort_empty : _SortDrawTargets mem [] [] = Some ([], []).
Proof. reflexivity. Qed.

(** C1. When the dependency graph of the draw targets is acyclic, the
    sort ends without a diagnostic and its order is a valid one: if the
    target at position [x] of the input depends on the one at position
    [y], the result holds the entry of [y] strictly before the entry of
    [x]; and whenever the target of an entry depends on the target of
    another entry, the other entry comes strictly first. *)
Theorem sort_topological_order :
  acyclic mem dts ->
  exists res,
    _SortDrawTargets mem dts [] = Some (res, []) /\
    (forall x y, dependsOn mem dts x y = true ->
       exists p q ex ey,
         res !! p = Some ex /\ res !! q = Some ey /\
         originalIndex ex = x /\ originalIndex ey = y /\ q < p) /\
    (forall p q ex ey,
       res !! p = Some ex -> res !! q = Some ey ->
       _IsDependentOn mem (drawTarget ex) (drawTarget ey) = true -> q < p).
Proof.
  intros Hac. destruct sort_spec as (st & _ & Hst & Hsort).
  rewrite (acyclic_leftOver st Hac Hst) in Hsort.
  simpl in Hsort. rewrite app_nil_r in Hsort.
  exists (result st). split_and!; [done| |].
  - intros x y Hxy. destruct (dependsOn_lt _ _ Hxy) as [Hx Hy].
    pose proof (acyclic_all_scheduled st x Hac Hst Hx) as [p Hp]%list_elem_of_lookup.
    unfold indices in Hp. rewrite list_lookup_fmap in Hp.
    apply fmap_Some in Hp as (ex & Hex & ->).
    destruct (main_done_order st p ex y Hst Hex Hxy) as (q & Hq & Hqy).
    unfold indices in Hqy. rewrite list_lookup_fmap in Hqy.
    apply fmap_Some in Hqy as (ey & Hey & ->).
    by exists p, q, ex, ey.
  - intros p q ex ey Hex Hey Hd.
    rewrite (main_done_drawTarget st p ex Hst Hex) in Hd.
    rewrite (main_done_drawTarget st q ey Hst Hey) in Hd.
    destruct (main_done_order st p ex (originalIndex ey) Hst Hex Hd) as (q' & Hq' & Hqy).
    assert (q' = q); [|lia].
    destruct Hst as (_ & Hnd & _). eapply NoDup_lookup; [done|done|].
    unfold indices. by rewrite list_lookup_fmap, Hey.
Qed.

(** C4. For every sequence of draw targets, empty or cyclic ones
    included, the sort ends without a diagnostic and its result has one
    entry per target: as many entries as targets, the original indices
    form a permutation of the positions of the input, and each entry
    holds the target found at its original index. *)
Theorem sort_covers_every_target :
  exists res,
    _SortDrawTargets mem dts [] = Some (res, []) /\
    length res = length dts /\
    (originalIndex <$> res) ≡ₚ seq 0 (length dts) /\
    (forall e, e ∈ res -> drawTarget e = dts !!! originalIndex e).
Proof.
  destruct sort_spec as (st & _ & Hst & Hsort).
  exists (result st ++ (newEntry dts <$> leftOver dts st)).
  assert (Hperm : (originalIndex <$> result st ++ (newEntry dts <$> leftOver dts st))
                  ≡ₚ seq 0 (length dts)).
  { rewrite fmap_app, indices_newEntry. by apply leftOver_perm. }
  split_and!; [done| |done|].
  - rewrite <- (length_seq (length dts) 0), <- Hperm. by rewrite length_fmap.
  - intros e He. by eapply sort_entries_drawTarget.
Qed.

(** C6, amended. The flag of an entry is true exactly when the entry was
    scheduled by the main pass, that is, stands among the first
    [length (result st)] entries, and some draw target of the batch
    depends on its target.  When the dependency graph is acyclic the main
    pass schedules every entry. *)
Theorem sort_flag_main_pass :
  exists st res,
    sortMain mem dts [] = Some st /\
    _SortDrawTargets mem dts [] = Some (res, []) /\
    (forall k e, res !! k = Some e ->
       (hasDependentDrawTargets e = true <->
        k < length (result st) /\
        exists t, t ∈ dts /\ _IsDependentOn mem t (drawTarget e) = true)) /\
    (acyclic mem dts -> length (result st) = length res).
Proof.
  destruct sort_spec as (st & Hmain & Hst & Hsort).
  exists st, (result st ++ (newEntry dts <$> leftOver dts st)).
  split_and!; [done|done| |].
  - intros k e [He|[Hk He]]%lookup_app_Some.
    + rewrite (main_done_flag st k e Hst He), (main_done_drawTarget st k e Hst He).
      rewrite has_dependent_iff. apply lookup_lt_Some in He. tauto.
    + rewrite list_lookup_fmap in He. apply fmap_Some in He as (x & _ & ->).
      simpl. split; [done|]. intros [? _]. lia.
  - intros Hac. rewrite (acyclic_leftOver st Hac Hst).
    rewrite length_app. simpl. lia.
Qed.

End SortProperties.

(** * Properties of the task *)

Section TaskProperties.
Context {collaborators : Collaborators}.

(** ** The branch for an unchanged draw target set *)

Lemma insert_middle {A} (l1 l2 : list A) (x y : A) n :
  n = length l1 -> <[n := y]> (l1 ++ x :: l2) = (l1 ++ [y]) ++ l2.
Proof.
  intros ->. rewrite <- (assoc_L (++)). simpl.
  rewrite insert_app_r_alt by lia. by rewrite Nat.sub_diag.
Qed.

Lemma refresh_spec mem (post_i : list _RenderPassInfo) :
  forall (post_p : list HdxDrawTargetRenderPass) pre_i pre_p,
  length pre_i = length pre_p ->
  length post_i = length post_p ->
  Forall (fun info => is_Some (target info)) post_i ->
  refreshRenderPasses mem (seq (length pre_i) (length post_i))
    (pre_i ++ post_i) (pre_p ++ post_p) =
  Some (pre_i ++ (refreshInfo mem <$> post_i),
        pre_p ++ zip_with (refreshPass mem) post_i post_p).
Proof.
  induction post_i as [|info rest IH]; intros post_p pre_i pre_p Hpre Hpost Hsome.
  - destruct post_p; [|done]. done.
  - destruct post_p as [|pass restp]; [done|].
    apply Forall_cons in Hsome as [[a Ha] Hsome].
    rewrite fmap_cons.
    change (zip_with (refreshPass mem) (info :: rest) (pass :: restp))
      with (refreshPass mem info pass :: zip_with (refreshPass mem) rest restp).
    change (length (info :: rest)) with (S (length rest)).
    rewrite <- cons_seq. cbn [refreshRenderPasses].
    rewrite !list_lookup_middle by lia. cbn [mbind option_bind]. rewrite Ha.
    cbn [mbind option_bind].
    unfold refreshInfo at 1. unfold refreshPass at 1. rewrite Ha.
    assert (Hseq : seq (S (length pre_i)) (length rest) =
                   seq (length (pre_i ++ [info])) (length rest))
      by (rewrite length_app; simpl; f_equal; lia).
    destruct (decide (version info <> GetVersion (mem a))) as [Hne|He].
    + rewrite !(insert_middle _ _ _ _ (length pre_i)) by lia.
      replace (S (length pre_i)) with
        (length (pre_i ++ [setVersion (GetVersion (mem a)) info]))
        by (rewrite length_app; simpl; lia).
      rewrite IH.
      * by rewrite <- !(assoc_L (++)).
      * rewrite !length_app. simpl. lia.
      * simpl in Hpost. lia.
      * done.
    + rewrite Hseq.
      rewrite (cons_middle info pre_i rest), (cons_middle pass pre_p restp).
      rewrite !(assoc_L (++)). rewrite IH.
      * by rewrite <- !(assoc_L (++)).
      * rewrite !length_app. simpl. lia.
      * simpl in Hpost. lia.
      * done.
Qed.

Lemma refresh_all mem infos passes :
  length passes = length infos ->
  Forall (fun info => is_Some (target info)) infos ->
  refreshRenderPasses mem (seq 0 (length infos)) infos passes =
  Some (refreshInfo mem <$> infos, zip_with (refreshPass mem) infos passes).
Proof.
  intros Hlen Hsome.
  apply (refresh_spec mem infos passes [] []); done.
Qed.

Lemma sameTarget_update self shared camera dt aspect info :
  sameTarget info (updateRenderPassInfo self shared camera dt aspect info).
Proof. done. Qed.

Lemma sameTarget_refresh mem info :
  target (refreshInfo mem info) = target info.
Proof.
  unfold refreshInfo. destruct (target info) as [a|] eqn:Ha; [|done].
  by destruct (decide _).
Qed.

(** ** The render-state loop *)

Lemma sameTarget_insert (infos : list _RenderPassInfo) idx info info' :
  infos !! idx = Some info -> sameTarget info info' ->
  Forall2 sameTarget infos (<[idx := info']> infos).
Proof.
  intros Hinfo Hsame.
  apply Forall2_same_length_lookup_2; [by rewrite length_insert|].
  intros i x y Hx Hy. destruct (decide (i = idx)) as [->|Hne].
  - rewrite list_lookup_insert_eq in Hy by (by eapply lookup_lt_Some).
    injection Hy as <-. rewrite Hinfo in Hx. by injection Hx as <-.
  - rewrite list_lookup_insert_ne in Hy by done.
    rewrite Hx in Hy. by injection Hy as ->.
Qed.

Lemma sameTarget_trans (l1 l2 l3 : list _RenderPassInfo) :
  Forall2 sameTarget l1 l2 -> Forall2 sameTarget l2 l3 -> Forall2 sameTarget l1 l3.
Proof.
  intros H12 H23.
  apply Forall2_same_length_lookup_2.
  { rewrite (Forall2_length _ _ _ H12). by eapply Forall2_length. }
  intros i x z Hx Hz.
  destruct (Forall2_lookup_l _ _ _ _ _ H12 Hx) as (y & Hy & [Ht Hv]).
  destruct (Forall2_lookup_lr _ _ _ _ _ _ H23 Hy Hz) as [Ht' Hv'].
  split; congruence.
Qed.

Lemma sameTarget_refl (infos : list _RenderPassInfo) : Forall2 sameTarget infos infos.
Proof. induction infos; by constructor. Qed.

Lemma sameTarget_some (infos infos' : list _RenderPassInfo) :
  Forall2 sameTarget infos infos' ->
  Forall (fun info => is_Some (target info)) infos ->
  Forall (fun info => is_Some (target info)) infos'.
Proof.
  intros Hsame Hsome. apply Forall_lookup. intros i y Hy.
  destruct (Forall2_lookup_r _ _ _ _ _ Hsame Hy) as (x & Hx & [Ht _]).
  rewrite <- Ht. by eapply (proj1 (Forall_lookup _ _) Hsome).
Qed.

(** Whenever the loop ends, it has kept the target and the version of
    every info, and it has returned early exactly when it reported a
    missing camera. *)
Lemma syncRenderPassStates_spec scene self shared numPasses indices :
  forall infos events infos' events' loopEnd,
  syncRenderPassStates scene self shared numPasses indices infos events =
    Some (infos', events', loopEnd) ->
  exists more,
    events' = events ++ more /\
    Forall2 sameTarget infos infos' /\
    match loopEnd with
    | Returned => Exists isInvalidCamera more
    | Completed => Forall (fun e => ~ isInvalidCamera e) more
    end.
Proof.
  induction indices as [|idx rest IH]; intros infos events infos' events' loopEnd Hrun.
  - injection Hrun as <- <- <-. exists []. rewrite app_nil_r.
    split_and!; [done|apply sameTarget_refl|done].
  - simpl in Hrun.
    destruct (infos !! idx) as [info|] eqn:Hinfo; [|done]. simpl in Hrun.
    destruct (guard (idx < numPasses)) as [?|]; [|done]. simpl in Hrun.
    destruct (target info) as [a|] eqn:Ha; [|done]. simpl in Hrun.
    destruct (GetSprim_camera scene _) as [camera|] eqn:Hcam.
    + destruct (targetAspect _) as [aspect|]; [|done]. simpl in Hrun.
      destruct (IH _ _ _ _ _ Hrun) as (more & -> & Hsame' & Hend).
      exists ([RenderPassState_Prepare idx; RenderPass_Sync idx] ++ more).
      split_and!.
      * by rewrite <- (assoc_L (++)).
      * eapply sameTarget_trans; [|exact Hsame'].
        eapply sameTarget_insert; [done|]. apply sameTarget_update.
      * destruct loopEnd.
        -- apply Forall_app. split; [|done]. repeat constructor; by intros [].
        -- apply Exists_app. by right.
    + injection Hrun as <- <- <-.
      exists [TF_CODING_ERROR_InvalidCamera (GetCamera (GetRenderPassState (memory scene a)))].
      split_and!; [done|apply sameTarget_refl|by left].
Qed.

(** On well-formed vectors, and when no aspect is undefined, the loop
    ends. *)
Lemma syncRenderPassStates_defined scene self shared numPasses indices :
  aspectsDefined scene ->
  forall infos events,
  (forall i, i ∈ indices -> i < numPasses /\ i < length infos) ->
  Forall (fun info => is_Some (target info)) infos ->
  is_Some (syncRenderPassStates scene self shared numPasses indices infos events).
Proof.
  intros Haspects.
  induction indices as [|idx rest IH]; intros infos events Hidx Hsome; [by eexists|].
  destruct (Hidx idx) as [Hn Hl]; [by left|].
  destruct (lookup_lt_is_Some_2 infos idx Hl) as [info Hinfo].
  pose proof (proj1 (Forall_lookup _ _) Hsome idx info Hinfo) as [a Ha].
  simpl. rewrite Hinfo. simpl. rewrite option_guard_True by done.
  rewrite Ha. simpl.
  destruct (GetSprim_camera scene _) as [camera|] eqn:Hcam; [|by eexists].
  destruct (Haspects a) as [aspect ->]. simpl.
  apply IH.
  - intros i Hi. rewrite length_insert. apply Hidx. by right.
  - eapply sameTarget_some; [|exact Hsome].
    eapply sameTarget_insert; [done|]. apply sameTarget_update.
Qed.


(** ** [Sync] as a whole *)

Lemma rebuild_wf mem entries :
  forall acc : list _RenderPassInfo * list HdxDrawTargetRenderPass,
  length acc.2 = length acc.1 ->
  Forall (fun info => is_Some (target info)) acc.1 ->
  length (foldl (rebuildStep mem) acc entries).2 =
    length (foldl (rebuildStep mem) acc entries).1 /\
  Forall (fun info => is_Some (target info)) (foldl (rebuildStep mem) acc entries).1.
Proof.
  induction entries as [|entry entries IH]; intros acc Hlen Hsome; [done|].
  simpl. apply IH; unfold rebuildStep.
  - destruct (drawTarget entry) as [a|]; [|done].
    destruct (IsEnabled (mem a)); [|done]. simpl. rewrite !length_app. simpl. lia.
  - destruct (drawTarget entry) as [a|]; [|done].
    destruct (IsEnabled (mem a)); [|done]. simpl.
    apply Forall_app. split; [done|]. by repeat constructor.
Qed.

Lemma syncParams_fields scene dirtyBits self self0 :
  syncParams scene dirtyBits self = Some self0 ->
  taskId self0 = taskId self /\
  _currentDrawTargetSetVersion self0 = _currentDrawTargetSetVersion self /\
  _renderPassesInfo self0 = _renderPassesInfo self /\
  _renderPasses self0 = _renderPasses self.
Proof.
  unfold syncParams. destruct (nonzero _).
  - destruct (_GetTaskParams scene); [|done]. by intros [= <-].
  - by intros [= <-].
Qed.

Lemma syncRenderTags_fields scene dirtyBits self :
  taskId (syncRenderTags scene dirtyBits self) = taskId self /\
  _currentDrawTargetSetVersion (syncRenderTags scene dirtyBits self) =
    _currentDrawTargetSetVersion self /\
  _renderPassesInfo (syncRenderTags scene dirtyBits self) = _renderPassesInfo self /\
  _renderPasses (syncRenderTags scene dirtyBits self) = _renderPasses self.
Proof. unfold syncRenderTags. by destruct (nonzero _). Qed.

Lemma syncDrawTargetSet_spec scene self :
  wf_task self ->
  exists infos1 passes1,
    syncDrawTargetSet scene self = Some (infos1, passes1, []) /\
    (if decide (_currentDrawTargetSetVersion self <> GetStateVersion_drawTargetSet scene)
     then exists entries,
            _GetSortedDrawTargets scene = Some (entries, []) /\
            (infos1, passes1) = rebuildRenderPasses (memory scene) entries
     else infos1 = refreshInfo (memory scene) <$> _renderPassesInfo self /\
          passes1 = zip_with (refreshPass (memory scene))
                      (_renderPassesInfo self) (_renderPasses self)) /\
    length passes1 = length infos1 /\
    Forall (fun info => is_Some (target info)) infos1.
Proof.
  intros [Hlen Hsome]. unfold syncDrawTargetSet.
  destruct (decide (_currentDrawTargetSetVersion self <> _)) as [Hne|He].
  - destruct (sort_spec (memory scene) (GetDrawTargets scene)) as (st & _ & _ & Hsort).
    set (entries := result st ++ _) in Hsort.
    destruct (rebuildRenderPasses (memory scene) entries) as [infos1 passes1] eqn:Hr.
    exists infos1, passes1.
    destruct (rebuild_wf (memory scene) entries ([], [])) as [Hl Hs]; [done|done|].
    fold (rebuildRenderPasses (memory scene) entries) in Hl, Hs. rewrite Hr in Hl, Hs.
    split_and!; [|exists entries|done|done].
    + unfold _GetSortedDrawTargets. rewrite Hsort. simpl. by rewrite Hr.
    + unfold _GetSortedDrawTargets. by rewrite Hsort.
  - exists (refreshInfo (memory scene) <$> _renderPassesInfo self),
           (zip_with (refreshPass (memory scene)) (_renderPassesInfo self) (_renderPasses self)).
    split_and!; [|done|done| |].
    + by rewrite refresh_all.
    + rewrite length_zip_with, length_fmap. lia.
    + apply Forall_fmap. eapply Forall_impl; [exact Hsome|].
      intros info His. simpl. by rewrite sameTarget_refresh.
Qed.

Lemma wf_task_fields self self' :
  _renderPassesInfo self' = _renderPassesInfo self ->
  _renderPasses self' = _renderPasses self ->
  wf_task self -> wf_task self'.
Proof. unfold wf_task. by intros -> ->. Qed.

(** [Sync] past the parameters, with the render-state loop still to
    run. *)
Lemma Sync_unfold scene ctx dirtyBits self self0 :
  wf_task self ->
  syncParams scene dirtyBits self = Some self0 ->
  let self1 := syncRenderTags scene dirtyBits self0 in
  exists infos1 passes1,
    syncDrawTargetSet scene self1 = Some (infos1, passes1, []) /\
    length passes1 = length infos1 /\
    Forall (fun info => is_Some (target info)) infos1 /\
    Sync scene ctx dirtyBits self =
      '(infos, events, loopEnd) ←
        syncRenderPassStates scene self1 (lightingContext ctx)
          (length passes1) (seq 0 (length infos1)) infos1 [];
      Some (match loopEnd with
            | Returned => fun s => s
            | Completed => setEnableSampleAlphaToCoverage (alphaToCoverage scene)
            end
              (setRenderPasses (GetStateVersion_drawTargetSet scene) infos passes1
                 self1),
            publish self1 ctx,
            match loopEnd with Returned => dirtyBits | Completed => Clean end,
            events).
Proof.
  intros Hwf Hparams self1.
  destruct (syncParams_fields _ _ _ _ Hparams) as (_ & _ & Hi0 & Hp0).
  destruct (syncRenderTags_fields scene dirtyBits self0) as (_ & _ & Hi1 & Hp1).
  fold self1 in Hi1, Hp1.
  assert (Hwf1 : wf_task self1).
  { eapply wf_task_fields; [| |exact Hwf]; congruence. }
  destruct (syncDrawTargetSet_spec scene self1 Hwf1)
    as (infos1 & passes1 & Hset & _ & Hlen1 & Hsome1).
  exists infos1, passes1. split_and!; [done|done|done|].
  unfold Sync. rewrite Hparams. cbv zeta. fold self1.
  rewrite Hset. cbn [mbind option_bind].
  destruct (syncRenderPassStates _ _ _ _ _ _ _) as [[[infos events] loopEnd]|]; [|done].
  cbn [mbind option_bind]. by destruct loopEnd.
Qed.

(** A run of [Sync] that gets past the parameters and returns. *)
Lemma Sync_run scene ctx dirtyBits self self0 self' ctx' dirtyBits' events :
  wf_task self ->
  syncParams scene dirtyBits self = Some self0 ->
  Sync scene ctx dirtyBits self = Some (self', ctx', dirtyBits', events) ->
  let self1 := syncRenderTags scene dirtyBits self0 in
  exists infos1 passes1 infos' loopEnd,
    syncDrawTargetSet scene self1 = Some (infos1, passes1, []) /\
    length passes1 = length infos1 /\
    Forall2 sameTarget infos1 infos' /\
    Forall (fun info => is_Some (target info)) infos' /\
    match loopEnd with
    | Returned => Exists isInvalidCamera events
    | Completed => Forall (fun e => ~ isInvalidCamera e) events
    end /\
    self' = match loopEnd with
            | Returned => fun s => s
            | Completed => setEnableSampleAlphaToCoverage (alphaToCoverage scene)
            end
              (setRenderPasses (GetStateVersion_drawTargetSet scene) infos' passes1
                 self1) /\
    ctx' = publish self1 ctx /\
    dirtyBits' = match loopEnd with Returned => dirtyBits | Completed => Clean end.
Proof.
  intros Hwf Hparams Hsync self1.
  destruct (Sync_unfold scene ctx dirtyBits self self0 Hwf Hparams)
    as (infos1 & passes1 & Hset & Hlen & Hsome & Hrun).
  fold self1 in Hset, Hrun. rewrite Hrun in Hsync.
  destruct (syncRenderPassStates _ _ _ _ _ _ _) as [[[infos' more] loopEnd]|] eqn:Hloop;
    [|done].
  simpl in Hsync. injection Hsync as <- <- <- <-.
  destruct (syncRenderPassStates_spec _ _ _ _ _ _ _ _ _ _ Hloop)
    as (more' & -> & Hsame & Hend).
  exists infos1, passes1, infos', loopEnd.
  split_and!; try done.
  by eapply sameTarget_some.
Qed.

(** From a well-formed task, and when no aspect is undefined, [Sync]
    returns. *)
Lemma Sync_returns scene ctx dirtyBits self :
  wf_task self -> aspectsDefined scene ->
  is_Some (Sync scene ctx dirtyBits self).
Proof.
  intros Hwf Haspects.
  destruct (syncParams scene dirtyBits self) as [self0|] eqn:Hparams.
  - destruct (Sync_unfold scene ctx dirtyBits self self0 Hwf Hparams)
      as (infos1 & passes1 & Hset & Hlen & Hsome & Hrun).
    rewrite Hrun.
    destruct (syncRenderPassStates_defined scene
                (syncRenderTags scene dirtyBits self0) (lightingContext ctx)
                (length passes1) (seq 0 (length infos1)) Haspects infos1 [])
      as [[[infos' more] loopEnd] ->]; [|done|by eexists].
    intros i Hi%elem_of_seq. lia.
  - unfold Sync. rewrite Hparams. by eexists.
Qed.

(** A run of [Sync] leaves a well-formed task well-formed. *)
Lemma Sync_wf scene ctx dirtyBits self self' ctx' dirtyBits' events :
  wf_task self ->
  Sync scene ctx dirtyBits self = Some (self', ctx', dirtyBits', events) ->
  wf_task self'.
Proof.
  intros Hwf Hsync.
  destruct (syncParams scene dirtyBits self) as [self0|] eqn:Hp.
  - destruct (Sync_run scene ctx dirtyBits self self0 _ _ _ _ Hwf Hp Hsync)
      as (infos1 & passes1 & infos' & loopEnd & _ & Hlen & Hsame & Hsome & _ & -> & _).
    apply Forall2_length in Hsame.
    split; [|by destruct loopEnd].
    destruct loopEnd; simpl; congruence.
  - unfold Sync in Hsync. rewrite Hp in Hsync. by injection Hsync as <- _ _ _.
Qed.

Lemma Exists_isInvalidCamera (events : list Event) :
  Exists isInvalidCamera events <->
  exists cameraId, TF_CODING_ERROR_InvalidCamera cameraId ∈ events.
Proof.
  rewrite Exists_exists. split.
  - intros (e & He & Hc). destruct e; try done. by eexists.
  - intros (c & Hc). by eexists.
Qed.

Lemma syncParams_None scene dirtyBits self :
  syncParams scene dirtyBits self = None <->
  Z.land dirtyBits DirtyParams <> 0%Z /\ _GetTaskParams scene = None.
Proof.
  unfold syncParams, nonzero.
  destruct (Z.eqb_spec (Z.land dirtyBits DirtyParams) 0) as [->|Hne]; simpl.
  - split; [done|]. by intros [[] _].
  - destruct (_GetTaskParams scene); simpl; split; try done. by intros [_ ?].
Qed.

(** C10. When the parameter-dirty bit is set and the task parameters
    cannot be fetched, [Sync] returns at once: the task (its render
    passes, their infos and the cached version of the draw target set
    among the rest), the task context and the dirty bits are what they
    were, and nothing is reported. *)
Theorem Sync_params_failure scene ctx dirtyBits self :
  Z.land dirtyBits DirtyParams <> 0%Z ->
  _GetTaskParams scene = None ->
  Sync scene ctx dirtyBits self = Some (self, ctx, dirtyBits, []).
Proof.
  intros Hbit Hparams. unfold Sync.
  by rewrite (proj2 (syncParams_None scene dirtyBits self)).
Qed.

(** C9, amended. Whenever [Sync] returns from a well-formed task, it
    has left the dirty bits clean if it ran to its end.  On its two early
    returns, that is, when the parameters could not be fetched or when
    the camera of a render pass is missing, which is reported as a coding
    error, the dirty bits are left as they were. *)
Theorem Sync_dirty_bits scene ctx dirtyBits self self' ctx' dirtyBits' events :
  wf_task self ->
  Sync scene ctx dirtyBits self = Some (self', ctx', dirtyBits', events) ->
  wf_task self' /\
  (((Z.land dirtyBits DirtyParams <> 0%Z /\ _GetTaskParams scene = None) \/
    (exists cameraId, TF_CODING_ERROR_InvalidCamera cameraId ∈ events)) ->
   dirtyBits' = dirtyBits) /\
  (~ (Z.land dirtyBits DirtyParams <> 0%Z /\ _GetTaskParams scene = None) ->
   (forall cameraId, TF_CODING_ERROR_InvalidCamera cameraId ∉ events) ->
   dirtyBits' = Clean).
Proof.
  intros Hwf Hsync. split; [by eapply Sync_wf|].
  destruct (syncParams scene dirtyBits self) as [self0|] eqn:Hparams.
  - destruct (Sync_run scene ctx dirtyBits self self0 _ _ _ _ Hwf Hparams Hsync)
      as (infos1 & passes1 & infos' & loopEnd & _ & Hlen & Hsame & Hsome & Hend & _ & _ & ->).
    assert (Hnot : ~ (Z.land dirtyBits DirtyParams <> 0%Z /\ _GetTaskParams scene = None)).
    { intros Hf. apply (syncParams_None scene dirtyBits self) in Hf. congruence. }
    split.
    + intros [?|Hcam]; [done|]. destruct loopEnd; [|done].
      apply Exists_isInvalidCamera in Hcam. apply Exists_exists in Hcam as (e & He & Hc).
      by destruct (proj1 (Forall_forall _ _) Hend e He).
    + intros _ Hnone. destruct loopEnd; [done|].
      apply Exists_isInvalidCamera in Hend as [c Hc]. by destruct (Hnone c).
  - unfold Sync in Hsync. rewrite Hparams in Hsync. injection Hsync as <- <- <- <-.
    apply syncParams_None in Hparams.
    split; [done|]. by intros [].
Qed.

(** C7. A [Sync] that returns, on an unchanged draw target set, with
    the entry at position [k] the only one whose cached version differs
    from the version of its draw target: the entries stay as many and
    keep their targets position by position; the entry at [k] takes the
    version of its target and its render pass takes the target's GPU draw
    target; every other entry keeps its cached version and its render
    pass. *)
Theorem Sync_fresh_refresh_isolated scene ctx dirtyBits self k infok a :
  wf_task self ->
  (Z.land dirtyBits DirtyParams <> 0%Z -> is_Some (_GetTaskParams scene)) ->
  _currentDrawTargetSetVersion self = GetStateVersion_drawTargetSet scene ->
  _renderPassesInfo self !! k = Some infok ->
  target infok = Some a ->
  version infok <> GetVersion (memory scene a) ->
  (forall i info b, i <> k -> _renderPassesInfo self !! i = Some info ->
     target info = Some b -> version info = GetVersion (memory scene b)) ->
  forall self' ctx' dirtyBits' events,
    Sync scene ctx dirtyBits self = Some (self', ctx', dirtyBits', events) ->
    length (_renderPassesInfo self') = length (_renderPassesInfo self) /\
    length (_renderPasses self') = length (_renderPasses self) /\
    (forall i info, _renderPassesInfo self !! i = Some info ->
       exists info', _renderPassesInfo self' !! i = Some info' /\
         target info' = target info /\
         version info' = if decide (i = k) then GetVersion (memory scene a)
                         else version info) /\
    (forall i, i <> k -> _renderPasses self' !! i = _renderPasses self !! i) /\
    _renderPasses self' !! k =
      SetDrawTarget (GetGlfDrawTarget (memory scene a)) <$> _renderPasses self !! k.
Proof.
  intros Hwf Hparams Hfresh Hk Ha Hstale Hothers self' ctx' dirtyBits' events Hsync.
  destruct (syncParams scene dirtyBits self) as [self0|] eqn:Hp; cycle 1.
  { apply syncParams_None in Hp as [Hbit Hnone].
    destruct (Hparams Hbit) as [? Hsome]. congruence. }
  destruct (Sync_run scene ctx dirtyBits self self0 _ _ _ _ Hwf Hp Hsync)
    as (infos1 & passes1 & infos' & loopEnd & Hset & Hlen & Hsame & _ & _ & -> & _ & _).
  destruct (syncParams_fields _ _ _ _ Hp) as (_ & Hv0 & Hi0 & Hp0).
  destruct (syncRenderTags_fields scene dirtyBits self0) as (_ & Hv1 & Hi1 & Hp1).
  destruct Hwf as [Hwlen Hwsome].
  unfold syncDrawTargetSet in Hset.
  rewrite Hv1, Hv0, Hi1, Hi0, Hp1, Hp0 in Hset.
  rewrite decide_False in Hset by (intros Hne; by apply Hne).
  rewrite refresh_all in Hset by done. simpl in Hset.
  injection Hset as <- <-.
  assert (Hinfos : _renderPassesInfo
            (match loopEnd with
             | Returned => fun s => s
             | Completed => setEnableSampleAlphaToCoverage (alphaToCoverage scene)
             end (setRenderPasses (GetStateVersion_drawTargetSet scene) infos'
                    (zip_with (refreshPass (memory scene)) (_renderPassesInfo self)
                       (_renderPasses self))
                    (syncRenderTags scene dirtyBits self0))) = infos')
    by (by destruct loopEnd).
  assert (Hpasses : _renderPasses
            (match loopEnd with
             | Returned => fun s => s
             | Completed => setEnableSampleAlphaToCoverage (alphaToCoverage scene)
             end (setRenderPasses (GetStateVersion_drawTargetSet scene) infos'
                    (zip_with (refreshPass (memory scene)) (_renderPassesInfo self)
                       (_renderPasses self))
                    (syncRenderTags scene dirtyBits self0))) =
            zip_with (refreshPass (memory scene)) (_renderPassesInfo self)
              (_renderPasses self))
    by (by destruct loopEnd).
  rewrite Hinfos, Hpasses. clear Hinfos Hpasses.
  split_and!.
  - rewrite <- (Forall2_length _ _ _ Hsame). by rewrite length_fmap.
  - rewrite length_zip_with. lia.
  - intros i info Hi.
    assert (Hi1' : (refreshInfo (memory scene) <$> _renderPassesInfo self) !! i =
                   Some (refreshInfo (memory scene) info))
      by (by rewrite list_lookup_fmap, Hi).
    destruct (Forall2_lookup_l _ _ _ _ _ Hsame Hi1') as (info' & Hinfo' & [Ht Hv]).
    exists info'. split; [done|]. rewrite <- Ht, <- Hv, sameTarget_refresh.
    split; [done|]. unfold refreshInfo.
    destruct (decide (i = k)) as [->|Hne].
    + rewrite Hk in Hi. injection Hi as <-. rewrite Ha. by rewrite decide_True.
    + destruct (target info) as [b|] eqn:Hb; [|done].
      by rewrite decide_False by (intros Hn; apply Hn; by eapply Hothers).
  - intros i Hne. rewrite lookup_zip_with.
    destruct (_renderPassesInfo self !! i) as [info|] eqn:Hi; simpl.
    + destruct (_renderPasses self !! i) as [pass|] eqn:Hpass; [|done]. simpl.
      unfold refreshPass. destruct (target info) as [b|] eqn:Hb; [|done].
      by rewrite decide_False by (intros Hn; apply Hn; by eapply Hothers).
    + apply lookup_ge_None in Hi. symmetry. apply lookup_ge_None. lia.
  - rewrite lookup_zip_with, Hk. simpl.
    destruct (_renderPasses self !! k) as [pass|]; [|done]. simpl.
    unfold refreshPass. rewrite Ha. by rewrite decide_True.
Qed.

(** The task the constructor leaves is well-formed. *)
Lemma HdxDrawTargetTask_new_wf id zeroColor zero one cullStyle noTags :
  wf_task (HdxDrawTargetTask_new id zeroColor zero one cullStyle noTags).
Proof. split; [done|constructor]. Qed.

(** ** [Execute] *)

Lemma executeRenderPasses_spec self (post : list HdxDrawTargetRenderPass) :
  forall pre,
  _renderPasses self = pre ++ post ->
  length (_renderPassesInfo self) = length (_renderPasses self) ->
  executeRenderPasses self (seq (length pre) (length post)) =
  Some (concat (imap (fun i => renderPassEvents (_renderTags self) (length pre + i)) post)).
Proof.
  induction post as [|pass post IH]; intros pre Hpasses Hlen; [done|].
  change (length (pass :: post)) with (S (length post)).
  rewrite <- cons_seq. cbn [executeRenderPasses].
  rewrite Hpasses, list_lookup_middle by done. cbn [mbind option_bind].
  destruct (lookup_lt_is_Some_2 (_renderPassesInfo self) (length pre)) as [info ->].
  { rewrite Hlen, Hpasses, length_app. simpl. lia. }
  cbn [mbind option_bind].
  replace (S (length pre)) with (length (pre ++ [pass]))
    by (rewrite length_app; simpl; lia).
  rewrite IH; [|by rewrite Hpasses, <- (assoc_L (++))|done].
  cbn [mbind option_bind]. rewrite imap_cons. simpl. rewrite Nat.add_0_r.
  do 6 f_equal. apply imap_ext. intros i x _. simpl.
  rewrite length_app. simpl. f_equal. lia.
Qed.

Lemma elem_of_concat {A} (x : A) (ls : list (list A)) :
  x ∈ concat ls <-> exists l, x ∈ l /\ l ∈ ls.
Proof.
  induction ls as [|l ls IH]; simpl.
  - split; [by intros ?%elem_of_nil|]. by intros (l & _ & ?%elem_of_nil).
  - rewrite elem_of_app, IH. split.
    + intros [?|(l' & ? & ?)]; [exists l; split; [done|by left]|].
      exists l'. split; [done|by right].
    + intros (l' & Hx & [->|?]%elem_of_cons); [by left|]. right. by exists l'.
Qed.

Lemma elem_of_renderPassEvents_Resolve tags i pass idx g :
  DrawTarget_Resolve idx g ∈ renderPassEvents tags i pass <->
  i = idx /\ HasDependentDrawTargets pass = true /\ GetDrawTarget pass = Some g.
Proof.
  unfold renderPassEvents, resolveEvents.
  rewrite elem_of_app. split.
  - intros [Hin|Hin].
    + repeat (apply elem_of_cons in Hin as [?|Hin]; [done|]). by apply elem_of_nil in Hin.
    + destruct (HasDependentDrawTargets pass); [|by apply elem_of_nil in Hin].
      destruct (GetDrawTarget pass); [|by apply elem_of_nil in Hin].
      apply list_elem_of_singleton in Hin. by injection Hin as <- <-.
  - intros (-> & -> & ->). right. by left.
Qed.

(** C2, amended. [Execute] walks the render passes in their stored
    order: after the GL set-up come, pass by pass, bind, draw and unbind,
    followed at once by the resolve of that pass when there is one, and
    then the GL restoration.  The pass at position [idx] is resolved
    exactly when its flag is set and it has a draw target. *)
Theorem Execute_order self :
  length (_renderPasses self) = length (_renderPassesInfo self) ->
  exists events,
    Execute self = Some events /\
    events = glSetup self ++
             concat (imap (renderPassEvents (_renderTags self)) (_renderPasses self)) ++
             glRestore /\
    (forall idx g, DrawTarget_Resolve idx g ∈ events <->
       exists pass, _renderPasses self !! idx = Some pass /\
                    HasDependentDrawTargets pass = true /\
                    GetDrawTarget pass = Some g).
Proof.
  intros Hlen. eexists. split_and!.
  - unfold Execute. rewrite <- Hlen.
    pose proof (executeRenderPasses_spec self (_renderPasses self) []) as Hrun.
    simpl in Hrun. rewrite Hrun by done. done.
  - done.
  - intros idx g. rewrite !elem_of_app. split.
    + intros [Hin|[Hin|Hin]].
      * exfalso. unfold glSetup in Hin.
        destruct (_depthBiasUseDefault self), (_depthBiasEnable self),
          (_enableSampleAlphaToCoverage self); simpl in Hin;
          repeat (apply elem_of_cons in Hin as [?|Hin]; [done|]);
          by apply elem_of_nil in Hin.
      * apply elem_of_concat in Hin as (block & Hin & Hblock).
        apply elem_of_lookup_imap in Hblock as (i & pass & -> & Hpass).
        apply elem_of_renderPassEvents_Resolve in Hin as (-> & ? & ?).
        by exists pass.
      * exfalso. unfold glRestore in Hin.
        repeat (apply elem_of_cons in Hin as [?|Hin]; [done|]).
        by apply elem_of_nil in Hin.
    + intros (pass & Hpass & Hflag & Hg). right. left.
      apply elem_of_concat. exists (renderPassEvents (_renderTags self) idx pass).
      split; [by apply elem_of_renderPassEvents_Resolve|].
      apply elem_of_lookup_imap. by exists idx, pass.
Qed.

End TaskProperties.

(** * The depth function table and the aspect ratio *)

Section TableProperties.
Context {collaborators : Collaborators}.

(** A rank that decreases along every edge rules out cycles. *)
Lemma acyclic_by_rank (mem : Memory) (dts : list HdStDrawTargetPtr) (rank : nat -> nat) :
  (forall i j, dependsOn mem dts i j = true -> rank j < rank i) ->
  acyclic mem dts.
Proof.
  intros Hrank i Hcyc.
  assert (Hlt : forall a b, tc (dependencyGraph mem dts) a b -> rank b < rank a).
  { induction 1 as [a b Hab|a b c Hab _ IH].
    - by apply Hrank.
    - apply Hrank in Hab. lia. }
  specialize (Hlt i i Hcyc). lia.
Qed.

(** C3. The resolved depth function is the one of the fixed table: with
    priority nearest it is the requested function, for each of the eight;
    with priority farthest, never, equal, not-equal and always stay, less
    becomes greater-or-equal, less-or-equal becomes greater, greater
    becomes less-or-equal and greater-or-equal becomes less. *)
Theorem resolved_depth_func_table :
  (forall depthFunc,
     HdxDrawTargetTask_GetResolvedDepthFunc depthFunc HdDepthPriorityNearest
     = depthFunc) /\
  HdxDrawTargetTask_GetResolvedDepthFunc HdCmpFuncNever HdDepthPriorityFarthest
    = HdCmpFuncNever /\
  HdxDrawTargetTask_GetResolvedDepthFunc HdCmpFuncLess HdDepthPriorityFarthest
    = HdCmpFuncGEqual /\
  HdxDrawTargetTask_GetResolvedDepthFunc HdCmpFuncEqual HdDepthPriorityFarthest
    = HdCmpFuncEqual /\
  HdxDrawTargetTask_GetResolvedDepthFunc HdCmpFuncLEqual HdDepthPriorityFarthest
    = HdCmpFuncGreater /\
  HdxDrawTargetTask_GetResolvedDepthFunc HdCmpFuncGreater HdDepthPriorityFarthest
    = HdCmpFuncLEqual /\
  HdxDrawTargetTask_GetResolvedDepthFunc HdCmpFuncNotEqual HdDepthPriorityFarthest
    = HdCmpFuncNotEqual /\
  HdxDrawTargetTask_GetResolvedDepthFunc HdCmpFuncGEqual HdDepthPriorityFarthest
    = HdCmpFuncLess /\
  HdxDrawTargetTask_GetResolvedDepthFunc HdCmpFuncAlways HdDepthPriorityFarthest
    = HdCmpFuncAlways.
Proof. split_and!; try done. by intros []. Qed.

(** The table has [HdDepthPriorityCount] rows of [HdCmpFuncLast] cells,
    and the function reads the cell at the values of its arguments. *)
Lemma ResolvedDepthFunc_in_range depthFunc priority :
  exists row,
    ResolvedDepthFunc !! HdDepthPriority_value priority = Some row /\
    length ResolvedDepthFunc = HdDepthPriorityCount /\
    length row = HdCmpFuncLast /\
    row !! HdCompareFunction_value depthFunc =
      Some (HdxDrawTargetTask_GetResolvedDepthFunc depthFunc priority).
Proof. destruct priority; eexists; (split; [done|]); by destruct depthFunc. Qed.

(** The aspect is the truncated quotient of the two ints when it can be
    represented, or 1 for a height of zero: nothing is divided by zero.
    At [INT_MIN / -1] the quotient overflows and the behaviour is
    undefined. *)
Lemma targetAspect_spec (width height : Z) :
  (height <> 0%Z -> (INT_MIN <= width ÷ height <= INT_MAX)%Z ->
   targetAspect (width, height) = Some (inject_Z (width ÷ height))) /\
  (height = 0%Z -> targetAspect (width, height) = Some 1%Q) /\
  targetAspect (INT_MIN, (-1)%Z) = None.
Proof.
  unfold targetAspect, int_div. simpl. split_and!.
  - intros Hh Hq. rewrite decide_True by done. rewrite decide_False by done.
    by rewrite decide_True by done.
  - intros Hh. by rewrite decide_False by (intros Hn; by apply Hn).
  - done.
Qed.

(** Between two [int]s that overflow is the only undefined quotient. *)
Lemma targetAspect_defined (width height : Z) :
  (INT_MIN <= width <= INT_MAX)%Z ->
  ~ (width = INT_MIN /\ height = (-1)%Z) ->
  is_Some (targetAspect (width, height)).
Proof.
  intros Hw Hne. unfold targetAspect, int_div. simpl.
  destruct (decide (height ≠ 0%Z)) as [Hh|Hh]; [|by eexists].
  rewrite decide_False by done.
  destruct (decide (INT_MIN <= width ÷ height <= INT_MAX)%Z) as [Hq|Hq]; [by eexists|].
  exfalso. apply Hq. clear Hq. unfold INT_MIN, INT_MAX in *.
  assert (Hmul := Z.mul_quot_le (Z.abs width) (Z.abs height) ltac:(lia) ltac:(lia)).
  rewrite Z.quot_abs in Hmul by done.
  destruct (decide (height = (-1)%Z)) as [->|Hm].
  - change (-1)%Z with (- (1))%Z. rewrite Z.quot_opp_r by done.
    rewrite Z.quot_1_r. lia.
  - destruct (decide (height = 1%Z)) as [->|H1]; [rewrite Z.quot_1_r; lia|].
    assert (2 <= Z.abs height)%Z by lia. nia.
Qed.

End TableProperties.

(** * The properties on the sample scene *)

Example Sample_chain_sorted :
  _SortDrawTargets Sample.mem Sample.chain [] =
  Some ([ {| originalIndex := 2; drawTarget := Some 0;
             hasDependentDrawTargets := true |};
          {| originalIndex := 1; drawTarget := Some 1;
             hasDependentDrawTargets := true |};
          {| originalIndex := 0; drawTarget := Some 2;
             hasDependentDrawTargets := false |} ], []).
Proof. vm_compute. reflexivity. Qed.

Example Sample_twoCycle_sorted :
  _SortDrawTargets Sample.mem Sample.twoCycle [] =
  Some ([ {| originalIndex := 0; drawTarget := Some 3;
             hasDependentDrawTargets := false |};
          {| originalIndex := 1; drawTarget := Some 4;
             hasDependentDrawTargets := false |} ], []).
Proof. vm_compute. reflexivity. Qed.

Example Sample_mixed_sorted :
  _SortDrawTargets Sample.mem Sample.mixed [] =
  Some ([ {| originalIndex := 3; drawTarget := Some 0;
             hasDependentDrawTargets := true |};
          {| originalIndex := 1; drawTarget := Some 1;
             hasDependentDrawTargets := false |};
          {| originalIndex := 0; drawTarget := Some 3;
             hasDependentDrawTargets := false |};
          {| originalIndex := 2; drawTarget := Some 4;
             hasDependentDrawTargets := false |} ], []).
Proof. vm_compute. reflexivity. Qed.

Lemma Sample_chain_acyclic : acyclic Sample.mem Sample.chain.
Proof.
  apply (acyclic_by_rank _ _ (fun i => 3 - i)). intros i j Hij.
  destruct (dependsOn_lt _ _ _ _ Hij) as [Hi Hj]. simpl in Hi, Hj.
  destruct i as [|[|[|i]]]; [| | |lia];
    (destruct j as [|[|[|j]]]; [| | |lia]);
    vm_compute in Hij; try discriminate; lia.
Qed.

Lemma sort_topological_order_witness :
  acyclic Sample.mem Sample.chain /\
  exists res,
    _SortDrawTargets Sample.mem Sample.chain [] = Some (res, []) /\
    forall p q ex ey,
      res !! p = Some ex -> res !! q = Some ey ->
      _IsDependentOn Sample.mem (drawTarget ex) (drawTarget ey) = true -> q < p.
Proof.
  split; [exact Sample_chain_acyclic|].
  destruct (sort_topological_order Sample.mem Sample.chain Sample_chain_acyclic)
    as (res & Hsort & _ & Horder).
  exists res. split; [exact Hsort|exact Horder].
Defined.

Lemma sort_covers_every_target_witness :
  exists res,
    _SortDrawTargets Sample.mem Sample.mixed [] = Some (res, []) /\
    length res = 4.
Proof.
  destruct (sort_covers_every_target Sample.mem Sample.mixed)
    as (res & Hsort & Hlen & _).
  exists res. split; [exact Hsort|exact Hlen].
Defined.

Lemma sort_flag_cycle_counterexample :
  ~ flags_match_dependents Sample.mem Sample.twoCycle.
Proof.
  intros Hclaim.
  specialize (Hclaim
    [ {| originalIndex := 0; drawTarget := Some 3; hasDependentDrawTargets := false |};
      {| originalIndex := 1; drawTarget := Some 4; hasDependentDrawTargets := false |} ]
    []).
  specialize (Hclaim ltac:(vm_compute; reflexivity)
    {| originalIndex := 0; drawTarget := Some 3; hasDependentDrawTargets := false |}
    ltac:(by left)).
  destruct Hclaim as [_ Hflag]. simpl in Hflag.
  assert (false = true); [|discriminate].
  apply Hflag. exists (Some 4). split; [by right; left|]. vm_compute. reflexivity.
Qed.

Lemma sort_flag_main_pass_witness :
  exists st res,
    sortMain Sample.mem Sample.mixed [] = Some st /\
    _SortDrawTargets Sample.mem Sample.mixed [] = Some (res, []) /\
    forall k e, res !! k = Some e ->
      (hasDependentDrawTargets e = true <->
       k < length (result st) /\
       exists t, t ∈ Sample.mixed /\ _IsDependentOn Sample.mem t (drawTarget e) = true).
Proof.
  destruct (sort_flag_main_pass Sample.mem Sample.mixed)
    as (st & res & Hmain & Hsort & Hflag & _).
  exists st, res. split; [exact Hmain|]. split; [exact Hsort|exact Hflag].
Defined.

Lemma Sample_task1_wf : wf_task Sample.task1.
Proof. split; [reflexivity|]. vm_compute. repeat constructor; by eexists. Qed.

Lemma Execute_resolve_needs_surface :
  ~ resolves_iff_flagged Sample.taskNoSurface.
Proof.
  intros Hclaim.
  destruct (Execute Sample.taskNoSurface) as [events|] eqn:Hrun; [|by vm_compute in Hrun].
  specialize (Hclaim events Hrun 0
    {| GetDrawTarget := None; GetDrawTargetRenderPassState := 0;
       HasDependentDrawTargets := true |} ltac:(vm_compute; reflexivity)).
  destruct Hclaim as [Hresolve _]. destruct (Hresolve eq_refl) as [g Hg].
  vm_compute in Hrun. injection Hrun as <-.
  repeat (apply elem_of_cons in Hg as [Hg|Hg]; [discriminate|]).
  by apply elem_of_nil in Hg.
Qed.

Lemma Execute_order_witness :
  length (_renderPasses Sample.task1) = length (_renderPassesInfo Sample.task1) /\
  exists events,
    Execute Sample.task1 = Some events /\
    events = [@glEnable Sample.collaborators GL_SAMPLE_ALPHA_TO_COVERAGE;
               glEnable GL_PROGRAM_POINT_SIZE; glFrontFace GL_CW;
               RenderPassState_Bind 0;
               RenderPass_Execute 0 (_renderTags Sample.task1);
               RenderPassState_Unbind 0;
               @DrawTarget_Resolve Sample.collaborators 0 10;
               RenderPassState_Bind 1;
               RenderPass_Execute 1 (_renderTags Sample.task1);
               RenderPassState_Unbind 1;
               glDisable GL_SAMPLE_ALPHA_TO_COVERAGE;
               glDisable GL_PROGRAM_POINT_SIZE; glDisable GL_POLYGON_OFFSET_FILL;
               glFrontFace GL_CCW].
Proof.
  split; [reflexivity|].
  destruct (Execute_order Sample.task1 eq_refl) as (events & Hrun & Hevents & _).
  exists events. split; [exact Hrun|]. rewrite Hevents. vm_compute. reflexivity.
Defined.

Lemma Sync_params_failure_witness :
  Z.land 4 (@DirtyParams Sample.collaborators) <> 0%Z /\
  _GetTaskParams Sample.sceneNoParams = None /\
  Sync Sample.sceneNoParams Sample.ctx 4 Sample.task1 =
    Some (Sample.task1, Sample.ctx, 4%Z, []).
Proof.
  split; [vm_compute; discriminate|]. split; [reflexivity|].
  apply Sync_params_failure; [vm_compute; discriminate|reflexivity].
Defined.

Lemma Sync_early_return_keeps_dirty_bits :
  ~ always_cleans Sample.sceneNoCamera Sample.ctx 4 Sample.task0 /\
  ~ always_cleans Sample.sceneNoParams Sample.ctx 4 Sample.task0.
Proof.
  split; intros Hclaim.
  - destruct (Sync Sample.sceneNoCamera Sample.ctx 4 Sample.task0)
      as [[[[self' ctx'] bits'] events]|] eqn:Hrun; [|by vm_compute in Hrun].
    specialize (Hclaim _ _ _ _ Hrun).
    vm_compute in Hrun. injection Hrun as _ _ <- _. vm_compute in Hclaim. discriminate.
  - destruct (Sync Sample.sceneNoParams Sample.ctx 4 Sample.task0)
      as [[[[self' ctx'] bits'] events]|] eqn:Hrun; [|by vm_compute in Hrun].
    specialize (Hclaim _ _ _ _ Hrun).
    vm_compute in Hrun. injection Hrun as _ _ <- _. vm_compute in Hclaim. discriminate.
Qed.

Lemma Sync_dirty_bits_witness :
  wf_task Sample.task0 /\
  exists self' ctx' events,
    Sync Sample.scene Sample.ctx 4 Sample.task0 = Some (self', ctx', 0%Z, events).
Proof.
  assert (Hwf : wf_task Sample.task0) by (split; [reflexivity|constructor]).
  split; [exact Hwf|].
  destruct (Sync Sample.scene Sample.ctx 4 Sample.task0)
    as [[[[self' ctx'] bits'] events]|] eqn:Hrun; [|by vm_compute in Hrun].
  destruct (Sync_dirty_bits Sample.scene Sample.ctx 4 Sample.task0
              self' ctx' bits' events Hwf Hrun) as (_ & _ & Hclean).
  exists self', ctx', events. do 2 f_equal.
  f_equal. apply Hclean.
  - intros [_ Hnone]. discriminate Hnone.
  - intros cameraId Hin. vm_compute in Hrun. injection Hrun as _ _ _ <-.
    repeat (apply elem_of_cons in Hin as [Hin|Hin]; [discriminate|]).
    by apply elem_of_nil in Hin.
Defined.

Lemma Sync_fresh_refresh_isolated_witness :
  exists self' ctx' dirtyBits' events,
    Sync Sample.sceneMirrorChanged Sample.ctx 0 Sample.task1 =
      Some (self', ctx', dirtyBits', events) /\
    length (_renderPassesInfo self') = 2 /\
    length (_renderPasses self') = 2 /\
    _renderPasses self' !! 1 = _renderPasses Sample.task1 !! 1 /\
    _renderPasses self' !! 0 =
      Some (@Build_HdxDrawTargetRenderPass Sample.collaborators (Some 20) 0 true).
Proof.
  assert (Hlook : exists infok,
            _renderPassesInfo Sample.task1 !! 0 = Some infok /\
            target infok = Some 0 /\ version infok = 1%Z).
  { eexists. split; [vm_compute; reflexivity|]. split; reflexivity. }
  destruct Hlook as (infok & Hlook & Htarget & Hversion).
  destruct (Sync Sample.sceneMirrorChanged Sample.ctx 0 Sample.task1)
    as [[[[self' ctx'] bits'] events]|] eqn:Hrun; [|by vm_compute in Hrun].
  destruct (Sync_fresh_refresh_isolated Sample.sceneMirrorChanged Sample.ctx 0
              Sample.task1 0 infok 0)
    with (self' := self') (ctx' := ctx') (dirtyBits' := bits') (events := events)
    as (Hli & Hlp & _ & Hothers & Hk).
  - exact Sample_task1_wf.
  - intros Hbit. by vm_compute in Hbit.
  - reflexivity.
  - exact Hlook.
  - exact Htarget.
  - rewrite Hversion. vm_compute. discriminate.
  - intros i info b Hi Hinfo Hb.
    destruct i as [|[|i]]; [done| |by vm_compute in Hinfo].
    vm_compute in Hinfo. injection Hinfo as <-. injection Hb as <-. reflexivity.
  - exact Hrun.
  - exists self', ctx', bits', events.
    split; [reflexivity|]. split; [exact Hli|]. split; [exact Hlp|].
    split; [by apply Hothers|]. rewrite Hk. reflexivity.
Defined.

(** C8, at a resolution of 1920 by 1080: the aspect handed to
    [CameraUtilConformedWindow] is the truncated integer quotient, 1, and
    not the ratio 16/9 of width to height.  The sample collaborators
    record the aspects they are called with in the projection matrix:
    after [Sync] it holds 1. *)
Theorem targetAspect_truncates :
  (exists aspect,
     targetAspect (1920, 1080)%Z = Some aspect /\ aspect = 1%Q /\
     ~ (aspect == inject_Z 1920 / inject_Z 1080)%Q) /\
  ~ aspect_is_ratio (1920, 1080)%Z /\
  exists info state,
    _renderPassesInfo Sample.task1 !! 0 = Some info /\
    GetResolution (Sample.mem 0) = (1920, 1080)%Z /\
    renderPassState info = Some state /\
    (GetCameraFramingState state).1.1.2 = [1%Q].
Proof.
  split_and!.
  - exists 1%Q. split_and!; [reflexivity|reflexivity|].
    intros Heq. vm_compute in Heq. discriminate.
  - intros [Hratio _]. simpl in Hratio.
    destruct (Hratio ltac:(done)) as (aspect & Haspect & Heq).
    vm_compute in Haspect. injection Haspect as <-.
    vm_compute in Heq. discriminate.
  - eexists _, _. split_and!; [vm_compute; reflexivity|reflexivity| |].
    + reflexivity.
    + reflexivity.
Qed.

(** * Further properties of the sort and of the dependency heuristic *)

Section MoreSortProperties.
Context {collaborators : Collaborators}.
Variable mem : Memory.
Variable dts : list HdStDrawTargetPtr.

Lemma dependsOnNone_spec x :
  dependsOnNone mem dts x = true <-> forall j, dependsOn mem dts x j = false.
Proof.
  unfold dependsOnNone. rewrite forallb_forall. split.
  - intros Hall j. destruct (dependsOn mem dts x j) eqn:Hxj; [|done].
    destruct (dependsOn_lt _ _ _ _ Hxj) as [_ Hj].
    specialize (Hall j). rewrite Hxj in Hall. simpl in Hall.
    symmetry. apply Hall. apply in_seq. lia.
  - intros Hall j _. by rewrite Hall.
Qed.

Lemma releaseDependent_prefix i d st x :
  indices st `prefix_of` indices (releaseDependent dts i d st x).
Proof.
  unfold releaseDependent, indices. simpl. rewrite indices_alter_mark.
  destruct (decide _).
  - rewrite fmap_app. by apply prefix_app_r.
  - done.
Qed.

Lemma releaseDependents_prefix i d todo : forall st,
  indices st `prefix_of` indices (foldl (releaseDependent dts i d) st todo).
Proof.
  induction todo as [|x todo IH]; intros st; [done|]. simpl.
  etrans; [apply (releaseDependent_prefix i d st x)|apply IH].
Qed.

Lemma scheduleLoop_prefix t fuel : forall i st st',
  scheduleLoop dts t fuel i st = Some st' ->
  indices st `prefix_of` indices st'.
Proof.
  induction fuel as [|fuel IH]; intros i st st'; simpl.
  - destruct (result st !! i); [done|]. by intros [= ->].
  - destruct (result st !! i) as [entry|]; [|by intros [= ->]].
    intros Hrun. etrans; [|by eapply IH]. apply releaseDependents_prefix.
Qed.

Lemma sortMain_prefix st :
  sortMain mem dts [] = Some st ->
  filter (fun x => dependsOnNone mem dts x = true) (seq 0 (length dts))
    `prefix_of` indices st.
Proof.
  unfold sortMain. intros Hrun. apply scheduleLoop_prefix in Hrun.
  rewrite scheduleIndependent_spec in Hrun. unfold indices in Hrun at 1.
  simpl in Hrun. rewrite indices_newEntry in Hrun.
  erewrite list_filter_iff; [exact Hrun|].
  intros x. rewrite dependsOnNone_spec.
  destruct (computeDependencies_spec mem dts) as (_ & Hd & _).
  rewrite gset_empty_iff. split.
  - intros Hall j Hj%Hd. by rewrite Hall in Hj.
  - intros He j. destruct (dependsOn mem dts x j) eqn:Hxj; [|done].
    by destruct (He j); apply Hd.
Qed.

(** X1. The sort always returns without a diagnostic, and its result
    begins with the draw targets that depend on no other target of the
    batch, in the order they were given. *)
Theorem sort_independent_first :
  exists res,
    _SortDrawTargets mem dts [] = Some (res, []) /\
    filter (fun x => dependsOnNone mem dts x = true) (seq 0 (length dts))
      `prefix_of` (originalIndex <$> res).
Proof.
  destruct (sort_spec mem dts) as (st & Hmain & Hst & Hsort).
  eexists. split; [exact Hsort|].
  rewrite fmap_app. apply prefix_app_r. by apply sortMain_prefix.
Qed.

Lemma entry_eta (e : _DrawTargetEntry) :
  e = {| originalIndex := originalIndex e; drawTarget := drawTarget e;
         hasDependentDrawTargets := hasDependentDrawTargets e |}.
Proof. by destruct e. Qed.

(** X2. When no draw target depends on another, the sort returns the
    targets in the order given, each with its own index and with no
    dependents flagged. *)
Theorem sort_without_dependencies :
  (forall i j, dependsOn mem dts i j = false) ->
  _SortDrawTargets mem dts [] =
  Some ((fun i => {| originalIndex := i; drawTarget := dts !!! i;
                     hasDependentDrawTargets := false |}) <$> seq 0 (length dts),
        []).
Proof.
  intros Hnone.
  destruct (sort_spec mem dts) as (st & Hmain & Hst & Hsort).
  rewrite Hsort. do 2 f_equal.
  pose proof (sortMain_prefix st Hmain) as Hpre.
  assert (Hall : filter (fun x => dependsOnNone mem dts x = true)
                   (seq 0 (length dts)) = seq 0 (length dts)).
  { clear Hpre. induction (seq 0 (length dts)) as [|x l IH]; [done|].
    rewrite filter_cons_True by (by apply dependsOnNone_spec). by rewrite IH. }
  rewrite Hall in Hpre.
  assert (Hidx : indices st = seq 0 (length dts)).
  { destruct Hpre as [k Hk]. rewrite Hk.
    assert (length (indices st) <= length dts).
    { unfold indices. rewrite length_fmap. by eapply loop_inv_length. }
    rewrite Hk, length_app, length_seq in H.
    destruct k; [by rewrite app_nil_r|simpl in H; lia]. }
  assert (Hleft : leftOver dts st = []).
  { unfold leftOver. rewrite Hidx.
    induction (seq 0 (length dts)) as [|x l IH] using rev_ind; [done|].
    clear IH. generalize (l ++ [x]). intros l'.
    assert (forall l1 : list nat, filter (fun y => y ∉ l') l1 = [] \/
              exists y, y ∈ l1 /\ y ∉ l') as Hgen.
    { induction l1 as [|y l1 IH1]; [by left|].
      destruct (decide (y ∈ l')).
      - rewrite filter_cons_False by (intros Hn; by apply Hn).
        destruct IH1 as [?|(z & ? & ?)]; [by left|right]. exists z. split; [by right|done].
      - right. exists y. split; [by left|done]. }
    destruct (Hgen l') as [?|(y & ? & ?)]; done. }
  rewrite Hleft. simpl. rewrite app_nil_r.
  apply list_eq. intros k. rewrite list_lookup_fmap.
  destruct (result st !! k) as [e|] eqn:He.
  - assert (Hk : originalIndex e = k).
    { assert (indices st !! k = Some (originalIndex e))
        by (unfold indices; by rewrite list_lookup_fmap, He).
      rewrite Hidx in H. apply lookup_seq in H. lia. }
    assert (Hlt : k < length dts).
    { apply lookup_lt_Some in He. pose proof (loop_inv_length _ _ _ _ _ Hst). lia. }
    rewrite lookup_seq_lt by done. simpl.
    rewrite (entry_eta e). f_equal. f_equal.
    + done.
    + rewrite <- Hk. by eapply main_done_drawTarget.
    + destruct (hasDependentDrawTargets e) eqn:Hf; [|done].
      apply (main_done_flag mem dts st k e Hst He) in Hf as [x Hx].
      by rewrite Hnone in Hx.
  - apply lookup_ge_None in He.
    assert (length (result st) = length dts).
    { transitivity (length (indices st)); [unfold indices; by rewrite length_fmap|].
      by rewrite Hidx, length_seq. }
    symmetry. apply fmap_None. apply lookup_ge_None. rewrite length_seq. lia.
Qed.


(** X3. Also when the dependency graph has cycles, the entries the
    main pass schedules come first in the result, and every target of the
    batch that such an entry depends on stands before it. *)
Theorem sort_main_pass_ordered :
  exists st res,
    sortMain mem dts [] = Some st /\
    _SortDrawTargets mem dts [] = Some (res, []) /\
    result st `prefix_of` res /\
    (forall p e t,
       result st !! p = Some e -> t ∈ dts ->
       _IsDependentOn mem (drawTarget e) t = true ->
       exists q e', q < p /\ res !! q = Some e' /\ drawTarget e' = t).
Proof.
  destruct (sort_spec mem dts) as (st & Hmain & Hst & Hsort).
  eexists st, _. split_and!; [done|exact Hsort|by apply prefix_app_r|].
  intros p e t He [j Hj]%list_elem_of_lookup Hdep.
  rewrite (main_done_drawTarget mem dts st p e Hst He) in Hdep.
  rewrite <- (list_lookup_total_correct _ _ _ Hj) in Hdep.
  destruct (main_done_order mem dts st p e j Hst He Hdep) as (q & Hq & Hqj).
  unfold indices in Hqj. rewrite list_lookup_fmap in Hqj.
  apply fmap_Some in Hqj as (e' & He' & ->).
  exists q, e'. split_and!; [done|by apply lookup_app_l_Some|].
  rewrite (main_done_drawTarget mem dts st q e' Hst He').
  by apply list_lookup_total_correct.
Qed.

(** From a node of a set each of whose nodes has an edge into the set, a
    cycle can be reached. *)
Lemma descent_reaches_cycle (R : relation nat) (P : nat -> Prop) (bound x : nat) :
  (forall y, P y -> y < bound) ->
  (forall y, P y -> exists z, P z /\ R y z) ->
  forall m (l : list nat) h,
  bound < m + length l -> NoDup l -> h ∈ l ->
  (forall z, z ∈ l -> P z /\ rtc R x z /\ rtc R z h) ->
  exists z, rtc R x z /\ tc R z z.
Proof.
  intros Hb Hstep. induction m as [|m IH]; intros l h Hm Hnd Hh Hl.
  - exfalso. assert (length l <= bound); [|lia].
    apply NoDup_bounded_length; [done|]. intros z Hz. by apply Hb, Hl.
  - destruct (Hstep h) as (y & Hy & Hhy); [by apply Hl|].
    destruct (decide (y ∈ l)) as [Hin|Hnin].
    + exists y. split; [apply (Hl y Hin)|].
      eapply tc_rtc_l; [apply (Hl y Hin)|]. by apply tc_once.
    + apply (IH (y :: l) y).
      * simpl. lia.
      * by apply NoDup_cons.
      * by left.
      * intros z [->|Hz]%elem_of_cons.
        -- split_and!; [done| |done].
           eapply rtc_r; [apply (Hl h Hh)|done].
        -- split_and!; [apply (Hl z Hz)|apply (Hl z Hz)|].
           eapply rtc_r; [apply (Hl z Hz)|done].
Qed.

Lemma scheduled_closed st x y :
  main_done mem dts st -> x ∈ indices st ->
  rtc (dependencyGraph mem dts) x y -> y ∈ indices st.
Proof.
  intros Hst Hx Hxy. induction Hxy as [x|x y z Hxy _ IH]; [done|].
  apply IH. apply list_elem_of_lookup in Hx as [p Hp].
  unfold indices in Hp. rewrite list_lookup_fmap in Hp.
  apply fmap_Some in Hp as (e & He & ->).
  destruct (main_done_order mem dts st p e y Hst He Hxy) as (q & _ & Hq).
  apply list_elem_of_lookup. by exists q.
Qed.

(** What the main pass leaves out. *)
Lemma unscheduled_iff_reaches_cycle st x :
  main_done mem dts st -> x < length dts ->
  (x ∉ indices st <-> reachesCycle mem dts x).
Proof.
  intros Hst Hx. split.
  - intros Hnin.
    apply (descent_reaches_cycle (dependencyGraph mem dts)
             (fun y => y < length dts /\ y ∉ indices st) (length dts) x)
      with (m := S (length dts)) (l := [x]) (h := x).
    + tauto.
    + intros y [Hy Hyn].
      destruct (main_done_unscheduled mem dts st y) as (j & ? & ? & ?); eauto.
    + simpl. lia.
    + apply NoDup_singleton.
    + by left.
    + intros z ->%list_elem_of_singleton. done.
  - intros (z & Hxz & Hz) Hin.
    apply (on_cycle_unscheduled mem dts st z Hst Hz).
    by eapply scheduled_closed.
Qed.

(** X4. The main pass leaves out exactly the targets that lie on a
    cycle of the dependency graph or depend, directly or through other
    targets, on one that does. *)
Theorem sort_fallback_iff_reaches_cycle :
  exists st,
    sortMain mem dts [] = Some st /\
    forall x, x < length dts ->
      (x ∉ originalIndex <$> result st <-> reachesCycle mem dts x).
Proof.
  destruct (sort_spec mem dts) as (st & Hmain & Hst & _).
  exists st. split; [done|]. intros x Hx.
  by apply unscheduled_iff_reaches_cycle.
Qed.

(** C5. The result of the sort is the result [result st] of the main
    pass followed by the targets that pass did not schedule, each once,
    in the order of the input and with a false flag.  The main pass
    schedules exactly the targets that neither lie on a cycle of the
    dependency graph nor depend, directly or through other targets, on
    one that does; all the others are appended after them.  In
    particular, of two targets that depend on each other, both are
    appended. *)
Theorem sort_cycle_fallback :
  exists st,
    sortMain mem dts [] = Some st /\
    _SortDrawTargets mem dts [] =
      Some (result st ++
            ((fun i => {| originalIndex := i;
                          drawTarget := dts !!! i;
                          hasDependentDrawTargets := false |}) <$>
             filter (fun i => i ∉ originalIndex <$> result st)
                    (seq 0 (length dts))),
            []) /\
    NoDup ((originalIndex <$> result st) ++
           filter (fun i => i ∉ originalIndex <$> result st)
                  (seq 0 (length dts))) /\
    (forall x, x < length dts ->
       (x ∈ originalIndex <$> result st <-> ~ reachesCycle mem dts x)) /\
    (forall x,
       x ∈ filter (fun i => i ∉ originalIndex <$> result st) (seq 0 (length dts)) <->
       x < length dts /\ reachesCycle mem dts x) /\
    (forall x, tc (dependencyGraph mem dts) x x ->
       x ∉ originalIndex <$> result st) /\
    (forall a b, dependsOn mem dts a b = true -> dependsOn mem dts b a = true ->
       a ∈ filter (fun i => i ∉ originalIndex <$> result st) (seq 0 (length dts)) /\
       b ∈ filter (fun i => i ∉ originalIndex <$> result st) (seq 0 (length dts))).
Proof.
  destruct (sort_spec mem dts) as (st & Hmain & Hst & Hsort).
  exists st. split_and!; [done|done| | | | |].
  - pose proof (leftOver_perm mem dts st Hst) as Hperm.
    unfold leftOver, indices in Hperm. rewrite Hperm. apply NoDup_seq.
  - intros x Hx. fold (indices st).
    pose proof (unscheduled_iff_reaches_cycle st x Hst Hx) as Hiff.
    destruct (decide (x ∈ indices st)); tauto.
  - intros x. rewrite list_elem_of_filter, elem_of_seq. fold (indices st).
    split.
    + intros [Hnin [_ Hx]]. split; [lia|].
      by apply (unscheduled_iff_reaches_cycle st x Hst).
    + intros [Hx Hcyc]. split; [|lia].
      by apply (unscheduled_iff_reaches_cycle st x Hst).
  - intros x Hx. by apply (on_cycle_unscheduled mem dts st).
  - intros a b Hab Hba. destruct (dependsOn_lt _ _ _ _ Hab) as [Ha Hb].
    rewrite !list_elem_of_filter, !elem_of_seq. split_and!; try lia.
    + apply (on_cycle_unscheduled mem dts st); [done|].
      eapply tc_l; [exact Hab|]. by apply tc_once.
    + apply (on_cycle_unscheduled mem dts st); [done|].
      eapply tc_l; [exact Hba|]. by apply tc_once.
Qed.

(** X5. An entry flagged as having dependents is followed, later in
    the result, by an entry whose target depends on it. *)
Theorem sort_flag_has_later_dependent :
  exists res,
    _SortDrawTargets mem dts [] = Some (res, []) /\
    forall k e, res !! k = Some e -> hasDependentDrawTargets e = true ->
      exists k' e', k < k' /\ res !! k' = Some e' /\
        _IsDependentOn mem (drawTarget e') (drawTarget e) = true.
Proof.
  destruct (sort_spec mem dts) as (st & Hmain & Hst & Hsort).
  eexists. split; [exact Hsort|].
  intros k e [He|[Hk He]]%lookup_app_Some Hflag; cycle 1.
  { rewrite list_lookup_fmap in He. by apply fmap_Some in He as (y & _ & ->). }
  apply (main_done_flag mem dts st k e Hst He) in Hflag as [x Hx].
  destruct (dependsOn_lt _ _ _ _ Hx) as [Hxn _].
  assert (Hdt : _IsDependentOn mem (dts !!! x) (drawTarget e) = true).
  { by rewrite (main_done_drawTarget mem dts st k e Hst He). }
  destruct (decide (x ∈ indices st)) as [Hin|Hnin].
  - apply list_elem_of_lookup in Hin as [p Hp].
    unfold indices in Hp. rewrite list_lookup_fmap in Hp.
    apply fmap_Some in Hp as (e' & He' & ->).
    destruct (main_done_order mem dts st p e' _ Hst He' Hx) as (q & Hq & Hqk).
    assert (q = k).
    { destruct Hst as (_ & Hnd & _). eapply NoDup_lookup; [done|done|].
      unfold indices. by rewrite list_lookup_fmap, He. }
    subst q. exists p, e'. split_and!; [done|by apply lookup_app_l_Some|].
    by rewrite (main_done_drawTarget mem dts st p e' Hst He').
  - assert (Hleft : x ∈ leftOver dts st).
    { unfold leftOver. apply list_elem_of_filter. split; [done|].
      apply elem_of_seq. lia. }
    apply list_elem_of_lookup in Hleft as [p Hp].
    exists (length (result st) + p), (newEntry dts x).
    apply lookup_lt_Some in He. split_and!; [lia| |done].
    rewrite lookup_app_r by lia.
    replace (length (result st) + p - length (result st)) with p by lia.
    by rewrite list_lookup_fmap, Hp.
Qed.

End MoreSortProperties.

Section DependencyProperties.
Context {collaborators : Collaborators}.

(** X6. No draw target depends on itself, and a null pointer neither
    depends on anything nor is depended upon. *)
Theorem _IsDependentOn_never :
  forall (mem : Memory) (t : HdStDrawTargetPtr),
    _IsDependentOn mem t t = false /\
    _IsDependentOn mem None t = false /\
    _IsDependentOn mem t None = false.
Proof.
  intros mem [a|]; split_and!; try done.
  unfold _IsDependentOn. by rewrite Nat.eqb_refl.
Qed.

Lemma existsb_elem_of {A} (f : A -> bool) (l l' : list A) :
  (forall x, x ∈ l <-> x ∈ l') -> existsb f l = existsb f l'.
Proof.
  intros Hsame.
  destruct (existsb f l) eqn:Hl, (existsb f l') eqn:Hl'; try done.
  - apply existsb_exists in Hl as (x & Hx & Hfx).
    apply list_elem_of_In, Hsame, list_elem_of_In in Hx.
    assert (existsb f l' = true) by (apply existsb_exists; eauto). congruence.
  - apply existsb_exists in Hl' as (x & Hx & Hfx).
    apply list_elem_of_In, Hsame, list_elem_of_In in Hx.
    assert (existsb f l = true) by (apply existsb_exists; eauto). congruence.
Qed.

(** X7. Whether a collection contains a path depends only on which
    root paths and which exclude paths it has, not on their order or on
    repetitions. *)
Theorem _DoesCollectionContainPath_order_independent
    (c c' : HdRprimCollection) (path : SdfPath) :
  (forall r, r ∈ GetRootPaths c <-> r ∈ GetRootPaths c') ->
  (forall e, e ∈ GetExcludePaths c <-> e ∈ GetExcludePaths c') ->
  _DoesCollectionContainPath c path = _DoesCollectionContainPath c' path.
Proof.
  intros Hroots Hexcl. unfold _DoesCollectionContainPath.
  by rewrite (existsb_elem_of _ _ _ Hexcl), (existsb_elem_of _ _ _ Hroots).
Qed.

(** X8. A draw target whose path lies under an exclude path of
    another target's collection is no dependency of that target, whatever
    the root paths are. *)
Theorem excluded_target_is_no_dependency (mem : Memory) (a b : nat)
    (excludePath : SdfPath) :
  excludePath ∈ GetExcludePaths (GetCollection (mem a)) ->
  HasPrefix (GetId (mem b)) excludePath = true ->
  _IsDependentOn mem (Some a) (Some b) = false.
Proof.
  intros Hin Hprefix. unfold _IsDependentOn, _DoesCollectionContainPath.
  replace (existsb _ (GetExcludePaths _)) with true; [by rewrite andb_false_r|].
  symmetry. apply existsb_exists. exists excludePath.
  split; [by apply list_elem_of_In|done].
Qed.

End DependencyProperties.

(** * Further properties of [Sync] *)

Section MoreTaskProperties.
Context {collaborators : Collaborators}.

Lemma stateEvents_S s m :
  stateEvents s (S m) =
  [RenderPassState_Prepare s; RenderPass_Sync s] ++ stateEvents (S s) m.
Proof. done. Qed.

Lemma ready_inv scene info :
  ready scene info ->
  exists a camera aspect,
    target info = Some a /\
    GetSprim_camera scene (GetCamera (GetRenderPassState (memory scene a)))
      = Some camera /\
    targetAspect (GetResolution (memory scene a)) = Some aspect /\
    cameraOf scene info = Some camera /\
    aspectOf scene info = Some aspect.
Proof.
  intros [[camera Hcamera] [aspect Haspect]].
  unfold cameraOf, cameraIdOf, aspectOf in *.
  destruct (target info) as [a|]; [|done]. by exists a, camera, aspect.
Qed.

(** The loop runs through a stretch of entries whose cameras are found
    and whose aspects are defined. *)
Lemma syncRenderPassStates_found scene self shared numPasses
    (found : list _RenderPassInfo) :
  forall pre rest events,
  length pre + length found + length rest <= numPasses ->
  Forall (ready scene) found ->
  syncRenderPassStates scene self shared numPasses
    (seq (length pre) (length found + length rest))
    (pre ++ found ++ rest) events =
  syncRenderPassStates scene self shared numPasses
    (seq (length pre + length found) (length rest))
    ((pre ++ (rebuiltInfo scene self shared <$> found)) ++ rest)
    (events ++ stateEvents (length pre) (length found)).
Proof.
  induction found as [|info found IH]; intros pre rest events Hlen Hcam.
  - simpl. by rewrite Nat.add_0_r, !app_nil_r.
  - apply Forall_cons in Hcam as [Hready Hcam].
    destruct (ready_inv _ _ Hready)
      as (a & camera & aspect & Ha & Hlookup & Haspect & Hcamera & Haspect').
    change (length (info :: found) + length rest)
      with (S (length found + length rest)).
    change ((info :: found) ++ rest) with (info :: (found ++ rest)).
    rewrite <- cons_seq. cbn [syncRenderPassStates].
    rewrite list_lookup_middle by done. cbn [mbind option_bind].
    rewrite option_guard_True by (simpl in Hlen; lia).
    rewrite Ha. cbn [mbind option_bind]. rewrite Hlookup, Haspect.
    cbn [mbind option_bind].
    rewrite (insert_middle pre (found ++ rest) info _ (length pre)) by done.
    replace (S (length pre)) with
      (length (pre ++ [updateRenderPassInfo self shared camera (memory scene a)
                         aspect info]))
      by (rewrite length_app; simpl; lia).
    rewrite IH; [|rewrite length_app; simpl in *; lia|done].
    rewrite length_app.
    change (length [updateRenderPassInfo self shared camera (memory scene a)
                      aspect info])
      with 1.
    change (length (info :: found)) with (S (length found)).
    replace (length pre + 1 + length found) with (length pre + S (length found)) by lia.
    rewrite stateEvents_S, fmap_cons.
    replace (length pre + 1) with (S (length pre)) by lia.
    unfold rebuiltInfo at 2. rewrite Ha, Hcamera, Haspect'.
    f_equal.
    + by rewrite <- !(assoc_L (++)).
    + by rewrite <- !(assoc_L (++)).
Qed.

Lemma syncRenderPassStates_complete scene self shared numPasses infos events :
  length infos <= numPasses ->
  Forall (ready scene) infos ->
  syncRenderPassStates scene self shared numPasses (seq 0 (length infos)) infos events =
  Some (rebuiltInfo scene self shared <$> infos,
        events ++ stateEvents 0 (length infos), Completed).
Proof.
  intros Hlen Hcam.
  pose proof (syncRenderPassStates_found scene self shared numPasses infos [] [] events) as H.
  simpl in H. rewrite Nat.add_0_r, !app_nil_r in H. rewrite H by (done || lia). done.
Qed.

Lemma syncRenderPassStates_missing scene self shared numPasses found bad rest events a :
  length found + S (length rest) <= numPasses ->
  Forall (ready scene) found ->
  target bad = Some a ->
  cameraOf scene bad = None ->
  syncRenderPassStates scene self shared numPasses
    (seq 0 (length (found ++ bad :: rest))) (found ++ bad :: rest) events =
  Some ((rebuiltInfo scene self shared <$> found) ++ bad :: rest,
        events ++ stateEvents 0 (length found) ++
        [TF_CODING_ERROR_InvalidCamera (GetCamera (GetRenderPassState (memory scene a)))],
        Returned).
Proof.
  intros Hlen Hcam Ha Hbad.
  pose proof (syncRenderPassStates_found scene self shared numPasses found []
                (bad :: rest) events) as H.
  simpl in H. rewrite length_app. simpl. rewrite H by (done || lia). clear H.
  rewrite list_lookup_middle by (by rewrite length_fmap). cbn [mbind option_bind].
  rewrite option_guard_True by lia.
  rewrite Ha. cbn [mbind option_bind].
  unfold cameraOf, cameraIdOf in Hbad. rewrite Ha in Hbad. simpl in Hbad.
  rewrite Hbad. by rewrite <- (assoc_L (++)).
Qed.

(** At an entry whose camera exists and whose aspect is undefined, so is
    the loop. *)
Lemma syncRenderPassStates_undefined scene self shared numPasses found bad rest events :
  length found + S (length rest) <= numPasses ->
  Forall (ready scene) found ->
  is_Some (cameraOf scene bad) ->
  aspectOf scene bad = None ->
  syncRenderPassStates scene self shared numPasses
    (seq 0 (length (found ++ bad :: rest))) (found ++ bad :: rest) events = None.
Proof.
  intros Hlen Hcam [camera Hcamera] Hbad.
  pose proof (syncRenderPassStates_found scene self shared numPasses found []
                (bad :: rest) events) as H.
  simpl in H. rewrite length_app. simpl. rewrite H by (done || lia). clear H.
  rewrite list_lookup_middle by (by rewrite length_fmap). cbn [mbind option_bind].
  rewrite option_guard_True by lia.
  unfold cameraOf, cameraIdOf, aspectOf in *.
  destruct (target bad) as [a|]; [|done]. simpl in *.
  by rewrite Hcamera, Hbad.
Qed.

(** The entries split at the first one the loop does not get through. *)
Lemma split_at_unready scene (infos : list _RenderPassInfo) :
  Forall (ready scene) infos \/
  exists found bad rest,
    infos = found ++ bad :: rest /\
    Forall (ready scene) found /\
    (cameraOf scene bad = None \/
     is_Some (cameraOf scene bad) /\ aspectOf scene bad = None).
Proof.
  induction infos as [|info infos IH]; [by left|].
  destruct (cameraOf scene info) as [camera|] eqn:Hcam.
  - destruct (aspectOf scene info) as [aspect|] eqn:Haspect.
    + destruct IH as [Hall|(found & bad & rest & -> & Hfound & Hbad)].
      * left. constructor; [|done]. split; by eexists.
      * right. exists (info :: found), bad, rest. split_and!; [done| |done].
        constructor; [|done]. split; by eexists.
    + right. exists [], info, infos. split_and!; [done|done|].
      right. split; [by eexists|done].
  - right. exists [], info, infos. split_and!; [done|done|by left].
Qed.

Lemma syncParams_Some scene dirtyBits self :
  (Z.land dirtyBits DirtyParams <> 0%Z -> is_Some (_GetTaskParams scene)) ->
  exists self0, syncParams scene dirtyBits self = Some self0.
Proof.
  intros Hok. destruct (syncParams scene dirtyBits self) as [self0|] eqn:Hp; [by eexists|].
  apply syncParams_None in Hp as [Hbit Hnone].
  destruct (Hok Hbit) as [? Hsome]. congruence.
Qed.

Lemma rebuild_omap mem entries :
  forall acc,
  foldl (rebuildStep mem) acc entries =
  (acc.1 ++ omap (renderPassInfoOf mem) entries,
   acc.2 ++ omap (renderPassOf mem) entries).
Proof.
  induction entries as [|entry entries IH]; intros [infos passes].
  - simpl. by rewrite !app_nil_r.
  - simpl. rewrite IH. unfold rebuildStep, renderPassInfoOf, renderPassOf, enabledTarget.
    destruct (drawTarget entry) as [a|]; simpl; [|done].
    destruct (IsEnabled (mem a)); simpl; [|done].
    by rewrite <- !(assoc_L (++)).
Qed.

Lemma sameTarget_fmap (infos infos' : list _RenderPassInfo) :
  Forall2 sameTarget infos infos' ->
  (fun info => (target info, version info)) <$> infos' =
  (fun info => (target info, version info)) <$> infos.
Proof.
  induction 1 as [|x y l k [Ht Hv] _ IH]; [done|].
  rewrite !fmap_cons, IH. by rewrite Ht, Hv.
Qed.

Lemma syncDrawTargetSet_stale scene self :
  _currentDrawTargetSetVersion self <> GetStateVersion_drawTargetSet scene ->
  exists entries,
    _GetSortedDrawTargets scene = Some (entries, []) /\
    syncDrawTargetSet scene self =
      Some (omap (renderPassInfoOf (memory scene)) entries,
            omap (renderPassOf (memory scene)) entries, []).
Proof.
  intros Hstale.
  destruct (sort_spec (memory scene) (GetDrawTargets scene)) as (st & _ & _ & Hsort).
  eexists. split; [exact Hsort|].
  unfold syncDrawTargetSet. rewrite decide_True by done.
  unfold _GetSortedDrawTargets. rewrite Hsort. simpl.
  unfold rebuildRenderPasses. by rewrite rebuild_omap.
Qed.

(** A [Sync] that rebuilds and returns. *)
Lemma Sync_stale scene ctx dirtyBits self self' ctx' dirtyBits' events :
  wf_task self ->
  (Z.land dirtyBits DirtyParams <> 0%Z -> is_Some (_GetTaskParams scene)) ->
  _currentDrawTargetSetVersion self <> GetStateVersion_drawTargetSet scene ->
  Sync scene ctx dirtyBits self = Some (self', ctx', dirtyBits', events) ->
  exists entries infos' loopEnd self1,
    _GetSortedDrawTargets scene = Some (entries, []) /\
    Forall2 sameTarget (omap (renderPassInfoOf (memory scene)) entries) infos' /\
    self' = match loopEnd with
            | Returned => fun s => s
            | Completed => setEnableSampleAlphaToCoverage (alphaToCoverage scene)
            end
              (setRenderPasses (GetStateVersion_drawTargetSet scene) infos'
                 (omap (renderPassOf (memory scene)) entries) self1).
Proof.
  intros Hwf Hok Hstale Hsync.
  destruct (syncParams_Some scene dirtyBits self Hok) as [self0 Hp].
  destruct (Sync_run scene ctx dirtyBits self self0 _ _ _ _ Hwf Hp Hsync)
    as (infos1 & passes1 & infos' & loopEnd & Hset & _ & Hsame & _ & _ & -> & _ & _).
  destruct (syncParams_fields _ _ _ _ Hp) as (_ & Hv0 & _ & _).
  destruct (syncRenderTags_fields scene dirtyBits self0) as (_ & Hv1 & _ & _).
  destruct (syncDrawTargetSet_stale scene (syncRenderTags scene dirtyBits self0))
    as (entries & Hsorted & Hset'); [congruence|].
  rewrite Hset in Hset'. injection Hset' as -> ->.
  by exists entries, infos', loopEnd, (syncRenderTags scene dirtyBits self0).
Qed.

(** X9. A [Sync] that gets past its parameter block ([DirtyParams]
    is clear, or the parameters can be fetched), finds the version of the
    draw target set different from the cached one, and returns, has made
    exactly one render pass for each enabled, non-null entry of the
    sorted draw targets, in sorted order, with the target's surface and
    the entry's flag; the infos hold the targets and their versions, and
    the cached set version is the current one. *)
Theorem Sync_rebuilds_enabled scene ctx dirtyBits self self' ctx' dirtyBits' events :
  wf_task self ->
  (Z.land dirtyBits DirtyParams <> 0%Z -> is_Some (_GetTaskParams scene)) ->
  _currentDrawTargetSetVersion self <> GetStateVersion_drawTargetSet scene ->
  Sync scene ctx dirtyBits self = Some (self', ctx', dirtyBits', events) ->
  exists entries,
    _GetSortedDrawTargets scene = Some (entries, []) /\
    _renderPasses self' = omap (renderPassOf (memory scene)) entries /\
    (fun info => (target info, version info)) <$> _renderPassesInfo self' =
      omap (targetVersionOf (memory scene)) entries /\
    _currentDrawTargetSetVersion self' = GetStateVersion_drawTargetSet scene.
Proof.
  intros Hwf Hok Hstale Hsync.
  destruct (Sync_stale scene ctx dirtyBits self _ _ _ _ Hwf Hok Hstale Hsync)
    as (entries & infos' & loopEnd & self1 & Hsorted & Hsame & ->).
  exists entries. split; [done|].
  split_and!.
  - by destruct loopEnd.
  - transitivity ((fun info => (target info, version info)) <$> infos');
      [by destruct loopEnd|].
    rewrite (sameTarget_fmap _ _ Hsame). clear.
    induction entries as [|entry entries IH]; [done|]. simpl.
    unfold renderPassInfoOf, targetVersionOf.
    destruct (enabledTarget (memory scene) entry); simpl; [|done]. by f_equal.
  - by destruct loopEnd.
Qed.

(** X12. Whenever the parameters can be fetched, a [Sync] that
    returns has stored the render passes in the task context under the
    task's own key, left the lighting context of the task context alone,
    kept the task's id and recorded the current version of the draw
    target set, also when it returned early for a missing camera. *)
Theorem Sync_publishes scene ctx dirtyBits self self' ctx' dirtyBits' events :
  wf_task self ->
  (Z.land dirtyBits DirtyParams <> 0%Z -> is_Some (_GetTaskParams scene)) ->
  Sync scene ctx dirtyBits self = Some (self', ctx', dirtyBits', events) ->
  drawTargetRenderPasses ctx' = Some (taskId self) /\
  lightingContext ctx' = lightingContext ctx /\
  taskId self' = taskId self /\
  _currentDrawTargetSetVersion self' = GetStateVersion_drawTargetSet scene.
Proof.
  intros Hwf Hok Hsync.
  destruct (syncParams_Some scene dirtyBits self Hok) as [self0 Hp].
  destruct (Sync_run scene ctx dirtyBits self self0 _ _ _ _ Hwf Hp Hsync)
    as (infos1 & passes1 & infos' & loopEnd & _ & _ & _ & _ & _ & -> & -> & _).
  destruct (syncParams_fields _ _ _ _ Hp) as (Hid0 & _).
  destruct (syncRenderTags_fields scene dirtyBits self0) as (Hid1 & _).
  split_and!; simpl.
  - by rewrite Hid1, Hid0.
  - done.
  - destruct loopEnd; simpl; by rewrite Hid1, Hid0.
  - by destruct loopEnd.
Qed.

(** X13. A [Sync] that returns after a failed parameter fetch has
    taken neither the parameters nor the render tags.  Otherwise it has
    taken the parameters from the delegate when [DirtyParams] is set and
    kept its own when it is clear, and likewise the render tags with
    [DirtyRenderTags]; [GetRenderTags] returns the tags the task
    holds. *)
Theorem Sync_polls_only_when_dirty scene ctx dirtyBits self
    self' ctx' dirtyBits' events :
  wf_task self ->
  Sync scene ctx dirtyBits self = Some (self', ctx', dirtyBits', events) ->
  ((Z.land dirtyBits DirtyParams <> 0%Z /\ _GetTaskParams scene = None) ->
   taskParams self' = taskParams self /\
   GetRenderTags self' = GetRenderTags self) /\
  (~ (Z.land dirtyBits DirtyParams <> 0%Z /\ _GetTaskParams scene = None) ->
   (Z.land dirtyBits DirtyParams = 0%Z -> taskParams self' = taskParams self) /\
   (Z.land dirtyBits DirtyParams <> 0%Z ->
    Some (taskParams self') = _GetTaskParams scene) /\
   (Z.land dirtyBits DirtyRenderTags = 0%Z ->
    GetRenderTags self' = GetRenderTags self) /\
   (Z.land dirtyBits DirtyRenderTags <> 0%Z ->
    GetRenderTags self' = _GetTaskRenderTags scene)).
Proof.
  unfold GetRenderTags. intros Hwf Hsync. split.
  - intros Hfail. apply (syncParams_None scene dirtyBits self) in Hfail.
    unfold Sync in Hsync. rewrite Hfail in Hsync. by injection Hsync as <- _ _ _.
  - intros Hok.
    destruct (syncParams scene dirtyBits self) as [self0|] eqn:Hp;
      [|by apply syncParams_None in Hp].
    destruct (Sync_run scene ctx dirtyBits self self0 _ _ _ _ Hwf Hp Hsync)
      as (infos1 & passes1 & infos' & loopEnd & _ & _ & _ & _ & _ & -> & _ & _).
    assert (Hpar : taskParams
              (match loopEnd with
               | Returned => fun s => s
               | Completed => setEnableSampleAlphaToCoverage (alphaToCoverage scene)
               end (setRenderPasses (GetStateVersion_drawTargetSet scene) infos' passes1
                      (syncRenderTags scene dirtyBits self0))) = taskParams self0).
    { unfold syncRenderTags. by destruct loopEnd, (nonzero _). }
    assert (Htags : _renderTags
              (match loopEnd with
               | Returned => fun s => s
               | Completed => setEnableSampleAlphaToCoverage (alphaToCoverage scene)
               end (setRenderPasses (GetStateVersion_drawTargetSet scene) infos' passes1
                      (syncRenderTags scene dirtyBits self0))) =
              _renderTags (syncRenderTags scene dirtyBits self0))
      by (by destruct loopEnd).
    rewrite Hpar, Htags. clear Hpar Htags Hsync.
    unfold syncParams, syncRenderTags, nonzero in *.
    split_and!.
    + intros Hz. rewrite Hz in Hp. simpl in Hp. by injection Hp as <-.
    + intros Hnz. destruct (Z.eqb_spec (Z.land dirtyBits DirtyParams) 0); [done|].
      simpl in Hp. destruct (_GetTaskParams scene) as [[]|]; [|done].
      simpl in Hp. by injection Hp as <-.
    + intros Hz. rewrite Hz. simpl.
      destruct (negb _); [|by injection Hp as <-].
      destruct (_GetTaskParams scene); [|done]. simpl in Hp. by injection Hp as <-.
    + intros Hnz. by destruct (Z.eqb_spec (Z.land dirtyBits DirtyRenderTags) 0).
Qed.

(** X10. When [Sync] gets past its parameter block and the camera of
    a render pass is missing, while the passes before it have their
    cameras and defined aspects: those passes have their state rebuilt,
    that pass and the later ones are left as they were, one coding error
    naming the camera is reported after the events of the passes before,
    the dirty bits are kept, and the render passes are stored and
    published all the same. *)
Theorem Sync_stops_at_missing_camera scene ctx dirtyBits self self0
    infos1 passes1 events0 found bad rest a :
  wf_task self ->
  syncParams scene dirtyBits self = Some self0 ->
  let self1 := syncRenderTags scene dirtyBits self0 in
  syncDrawTargetSet scene self1 = Some (infos1, passes1, events0) ->
  infos1 = found ++ bad :: rest ->
  Forall (ready scene) found ->
  target bad = Some a ->
  cameraOf scene bad = None ->
  Sync scene ctx dirtyBits self =
    Some (setRenderPasses (GetStateVersion_drawTargetSet scene)
            ((rebuiltInfo scene self1 (lightingContext ctx) <$> found) ++ bad :: rest)
            passes1 self1,
          publish self1 ctx,
          dirtyBits,
          stateEvents 0 (length found) ++
          [TF_CODING_ERROR_InvalidCamera
             (GetCamera (GetRenderPassState (memory scene a)))]).
Proof.
  intros Hwf Hp self1 Hset -> Hfound Ha Hbad.
  destruct (Sync_unfold scene ctx dirtyBits self self0 Hwf Hp)
    as (infos1' & passes1' & Hset' & Hlen & _ & Hrun).
  fold self1 in Hset', Hrun. rewrite Hset in Hset'. injection Hset' as <- <- ->.
  rewrite Hrun.
  rewrite (syncRenderPassStates_missing _ _ _ _ found bad rest [] a); try done.
  rewrite Hlen, length_app. simpl. lia.
Qed.

(** X23. When [Sync] gets past its parameter block and reaches,
    after passes that have their cameras and defined aspects, a render
    pass whose camera exists and whose draw target has a resolution with
    an undefined integer quotient, as [INT_MIN] by [-1], the behaviour of
    [Sync] is undefined. *)
Theorem Sync_undefined_at_overflow scene ctx dirtyBits self self0
    infos1 passes1 events0 found bad rest :
  wf_task self ->
  syncParams scene dirtyBits self = Some self0 ->
  let self1 := syncRenderTags scene dirtyBits self0 in
  syncDrawTargetSet scene self1 = Some (infos1, passes1, events0) ->
  infos1 = found ++ bad :: rest ->
  Forall (ready scene) found ->
  is_Some (cameraOf scene bad) ->
  aspectOf scene bad = None ->
  Sync scene ctx dirtyBits self = None.
Proof.
  intros Hwf Hp self1 Hset -> Hfound Hcamera Hbad.
  destruct (Sync_unfold scene ctx dirtyBits self self0 Hwf Hp)
    as (infos1' & passes1' & Hset' & Hlen & _ & Hrun).
  fold self1 in Hset', Hrun. rewrite Hset in Hset'. injection Hset' as <- <- ->.
  rewrite Hrun.
  rewrite (syncRenderPassStates_undefined _ _ _ _ found bad rest []); try done.
  rewrite Hlen, length_app. simpl. lia.
Qed.

(** X11. When [Sync] gets past its parameter block, every camera
    exists and no draw target has a resolution whose integer quotient is
    undefined, [Sync] runs to its end: the dirty bits are clean, alpha to
    coverage is on unless the delegate hands it to the task and the debug
    flag disables it, and the state of every render pass carries the
    task's parameters, the depth function resolved against the priority
    of its draw target, the target's AOV bindings, a viewport of the
    target's resolution at the origin, and the camera's view matrix with
    the projection conformed to the aspect of that resolution and
    y-flipped, which the lighting shader receives too. *)
Theorem Sync_builds_render_state scene ctx dirtyBits self :
  wf_task self ->
  (Z.land dirtyBits DirtyParams <> 0%Z -> is_Some (_GetTaskParams scene)) ->
  (forall a, is_Some (GetSprim_camera scene
                        (GetCamera (GetRenderPassState (memory scene a))))) ->
  aspectsDefined scene ->
  exists self' ctx' events,
    Sync scene ctx dirtyBits self = Some (self', ctx', Clean, events) /\
    _enableSampleAlphaToCoverage self' =
      (if IsEnabled_taskSetAlphaToCoverage scene
       then negb (IsEnabled_HDX_DISABLE_ALPHA_TO_COVERAGE scene) else true) /\
    forall i info', _renderPassesInfo self' !! i = Some info' ->
      exists a camera aspect,
        target info' = Some a /\
        GetSprim_camera scene (GetCamera (GetRenderPassState (memory scene a)))
          = Some camera /\
        targetAspect (GetResolution (memory scene a)) = Some aspect /\
        let resolution := GetResolution (memory scene a) in
        let projection :=
          GfMatrix4d_mul
            (CameraUtilConformedWindow (GetProjectionMatrix camera)
               (GetWindowPolicy camera) aspect)
            SetScale_1_m1_1 in
        renderPassState info' =
          Some {| GetOverrideColor := _overrideColor self';
                  GetWireframeColor := _wireframeColor self';
                  GetLightingEnabled := _enableLighting self';
                  GetAlphaThreshold := _alphaThreshold self';
                  GetCullStyle := _cullStyle self';
                  GetDepthFunc :=
                    HdxDrawTargetTask_GetResolvedDepthFunc (_depthFunc self')
                      (GetDepthPriority (GetRenderPassState (memory scene a)));
                  GetAovBindings_ :=
                    GetAovBindings (GetRenderPassState (memory scene a));
                  GetCameraFramingState :=
                    (GetViewMatrix camera, projection,
                     (0%Z, 0%Z, resolution.1, resolution.2),
                     GetClipPlanes camera) |} /\
        lightingCamera (simpleLightingShader info') =
          Some (GetViewMatrix camera, projection).
Proof.
  intros Hwf Hok Hcameras Haspects.
  destruct (syncParams_Some scene dirtyBits self Hok) as [self0 Hp].
  destruct (Sync_unfold scene ctx dirtyBits self self0 Hwf Hp)
    as (infos1 & passes1 & Hset & Hlen & Hsome & Hrun).
  assert (Hready : Forall (ready scene) infos1).
  { eapply Forall_impl; [exact Hsome|]. intros info [a Ha]. simpl.
    unfold ready, cameraOf, cameraIdOf, aspectOf. rewrite Ha. simpl.
    split; [apply Hcameras|apply Haspects]. }
  rewrite syncRenderPassStates_complete in Hrun by (done || lia).
  simpl in Hrun.
  eexists _, _, _. split; [exact Hrun|]. split; [done|].
  simpl. intros i info' Hi. rewrite list_lookup_fmap in Hi.
  apply fmap_Some in Hi as (info & Hinfo & ->).
  pose proof (proj1 (Forall_lookup _ _) Hready i info Hinfo) as Hr.
  destruct (ready_inv _ _ Hr)
    as (a & camera & aspect & Ha & Hlookup & Haspect & Hcamera & Haspect').
  exists a, camera, aspect. unfold rebuiltInfo. rewrite Ha, Hcamera, Haspect'.
  split_and!; [done|done|done| |];
    by destruct (nonzero (Z.land dirtyBits DirtyRenderTags)).
Qed.

End MoreTaskProperties.

(** * Further properties of [Prepare] and [Execute] *)

Section MoreExecuteProperties.
Context {collaborators : Collaborators}.

Lemma prepareRenderPasses_spec numPasses m :
  forall s, s + m <= numPasses ->
  prepareRenderPasses numPasses (seq s m) = Some (RenderPass_Prepare <$> seq s m).
Proof.
  induction m as [|m IH]; intros s Hle; [done|].
  simpl. rewrite option_guard_True by lia. simpl.
  rewrite IH by lia. done.
Qed.

Lemma Execute_spec self :
  wf_task self ->
  Execute self =
  Some (glSetup self ++
        concat (imap (renderPassEvents (_renderTags self)) (_renderPasses self)) ++
        glRestore).
Proof.
  intros [Hlen _]. unfold Execute. rewrite <- Hlen.
  pose proof (executeRenderPasses_spec self (_renderPasses self) [] eq_refl
                (eq_sym Hlen)) as Hrun.
  simpl in Hrun. by rewrite Hrun.
Qed.

Lemma reachable_wf self : reachable self -> wf_task self.
Proof.
  induction 1 as [|scene ctx dirtyBits self self' ctx' dirtyBits' events _ IH Hsync].
  - apply HdxDrawTargetTask_new_wf.
  - by eapply Sync_wf.
Qed.

(** X16. A task made by the constructor and synced any number of
    times, on any scenes, never indexes its render passes out of range:
    [Prepare] prepares every render pass once, in order, [Execute]
    returns, and [Sync] returns on every scene on which no draw target
    has a resolution whose integer quotient is undefined. *)
Theorem task_stays_in_range self :
  reachable self ->
  (forall scene ctx dirtyBits,
     aspectsDefined scene -> is_Some (Sync scene ctx dirtyBits self)) /\
  Prepare self =
    Some (RenderPass_Prepare <$> seq 0 (length (_renderPasses self))) /\
  is_Some (Execute self).
Proof.
  intros Hwf%reachable_wf. split_and!.
  - intros. by apply Sync_returns.
  - destruct Hwf as [Hlen _]. unfold Prepare. rewrite <- Hlen.
    by rewrite prepareRenderPasses_spec.
  - by rewrite Execute_spec.
Qed.

Lemma executeRenderPasses_no_gl self indices :
  forall events, executeRenderPasses self indices = Some events ->
  forall cap, glEnable cap ∉ events.
Proof.
  induction indices as [|i indices IH]; intros events Hrun cap.
  - injection Hrun as <-. apply not_elem_of_nil.
  - simpl in Hrun.
    destruct (_renderPasses self !! i) as [pass|]; [|done]. simpl in Hrun.
    destruct (_renderPassesInfo self !! i); [|done]. simpl in Hrun.
    destruct (executeRenderPasses self indices) as [rest|]; [|done].
    injection Hrun as <-. specialize (IH rest eq_refl cap).
    unfold renderPassEvents, resolveEvents.
    rewrite !elem_of_cons, elem_of_app. intros [?|[?|[?|[Hin|?]]]]; try done.
    destruct (HasDependentDrawTargets pass), (GetDrawTarget pass);
      rewrite ?elem_of_cons, ?elem_of_nil in Hin; intuition discriminate.
Qed.

(** X17. A run of [Execute] ends with the block that restores the GL
    defaults; the front face is set clockwise before it, and every
    capability enabled before it is disabled by it. *)
Theorem Execute_restores_gl_state self events :
  Execute self = Some events ->
  exists body,
    events = body ++ glRestore /\
    glFrontFace GL_CW ∈ body /\
    forall cap, glEnable cap ∈ body -> glDisable cap ∈ glRestore.
Proof.
  unfold Execute. intros Hrun.
  destruct (executeRenderPasses self _) as [ev|] eqn:Hev; [|done].
  injection Hrun as <-.
  exists (glSetup self ++ ev). split; [by rewrite <- (assoc_L (++))|].
  split.
  - unfold glSetup. rewrite !elem_of_app, !elem_of_cons. tauto.
  - intros cap. rewrite elem_of_app. intros [Hin|Hin].
    + unfold glSetup in Hin. unfold glRestore.
      destruct (_depthBiasUseDefault self), (_depthBiasEnable self),
        (_enableSampleAlphaToCoverage self);
        rewrite ?elem_of_app, ?elem_of_cons, ?elem_of_nil in Hin;
        rewrite !elem_of_cons;
        intuition (try discriminate; simplify_eq; tauto).
    + by apply (executeRenderPasses_no_gl _ _ _ Hev) in Hin.
Qed.

End MoreExecuteProperties.

Section SyncAgain.
Context {collaborators : Collaborators}.

Lemma upToDate_refresh mem (infos : list _RenderPassInfo) :
  Forall (upToDate mem) infos ->
  forall passes : list HdxDrawTargetRenderPass,
  refreshInfo mem <$> infos = infos /\
  zip_with (refreshPass mem) infos passes = take (length infos) passes.
Proof.
  induction 1 as [|info infos (a & Ha & Hv) _ IH]; intros passes.
  - by destruct passes.
  - assert (Hi : refreshInfo mem info = info).
    { unfold refreshInfo. rewrite Ha.
      by rewrite decide_False by (by rewrite Hv; intros []). }
    assert (Hp : forall pass, refreshPass mem info pass = pass).
    { intros pass. unfold refreshPass. rewrite Ha.
      by rewrite decide_False by (by rewrite Hv; intros []). }
    rewrite fmap_cons, Hi. destruct (IH (tail passes)) as [IH1 IH2].
    rewrite IH1. split; [done|].
    destruct passes as [|pass passes]; [done|].
    cbn [zip_with length take]. simpl in IH2. by rewrite Hp, IH2.
Qed.

Lemma syncDrawTargetSet_upToDate scene self infos1 passes1 events :
  wf_task self ->
  syncDrawTargetSet scene self = Some (infos1, passes1, events) ->
  Forall (upToDate (memory scene)) infos1.
Proof.
  intros Hwf Hset.
  destruct (syncDrawTargetSet_spec scene self Hwf)
    as (infos & passes & Hset' & Hcase & _ & _).
  rewrite Hset in Hset'. injection Hset' as -> -> ->.
  destruct (decide _) as [Hstale|Hfresh].
  - destruct Hcase as (entries & _ & Heq).
    unfold rebuildRenderPasses in Heq. rewrite rebuild_omap in Heq.
    injection Heq as -> _. simpl. clear.
    induction entries as [|entry entries IH]; simpl; [constructor|].
    unfold renderPassInfoOf at 1.
    destruct (enabledTarget (memory scene) entry) as [a|]; simpl; [|done].
    constructor; [|done]. by exists a.
  - destruct Hcase as [-> _]. destruct Hwf as [_ Hsome].
    apply Forall_fmap. eapply Forall_impl; [exact Hsome|].
    intros info [a Ha]. exists a. unfold refreshInfo. rewrite Ha.
    by destruct (decide _) as [?|?%dec_stable].
Qed.

Lemma target_rebuiltInfo scene self shared info :
  target (rebuiltInfo scene self shared info) = target info.
Proof.
  unfold rebuiltInfo. destruct (target info) as [a|] eqn:Ha; [|done].
  by destruct (cameraOf scene info), (aspectOf scene info).
Qed.

Lemma ready_rebuiltInfo scene self shared info :
  ready scene info -> ready scene (rebuiltInfo scene self shared info).
Proof.
  unfold ready, cameraOf, cameraIdOf, aspectOf.
  by rewrite target_rebuiltInfo.
Qed.

Lemma upToDate_rebuiltInfo scene self shared info :
  upToDate (memory scene) info ->
  upToDate (memory scene) (rebuiltInfo scene self shared info).
Proof.
  intros (a & Ha & Hv). exists a. unfold rebuiltInfo. rewrite Ha.
  by destruct (cameraOf scene info), (aspectOf scene info).
Qed.

Lemma rebuiltInfo_again scene self self' shared info :
  taskParams self' = taskParams self ->
  rebuiltInfo scene self' shared (rebuiltInfo scene self shared info) =
  rebuiltInfo scene self shared info.
Proof.
  intros Hparams.
  unfold rebuiltInfo at 1. rewrite target_rebuiltInfo.
  assert (Hcam : cameraOf scene (rebuiltInfo scene self shared info) =
                 cameraOf scene info)
    by (unfold cameraOf, cameraIdOf; by rewrite target_rebuiltInfo).
  assert (Hasp : aspectOf scene (rebuiltInfo scene self shared info) =
                 aspectOf scene info)
    by (unfold aspectOf; by rewrite target_rebuiltInfo).
  rewrite Hcam, Hasp. unfold rebuiltInfo.
  destruct (target info) as [a|] eqn:Ha; [|done].
  destruct (cameraOf scene info) as [camera|] eqn:Hcamera; [|done].
  destruct (aspectOf scene info) as [aspect|] eqn:Haspect; [|done].
  unfold taskParams in Hparams.
  injection Hparams as Hc Hw Hl Ht _ _ _ _ Hd Hs.
  unfold updateRenderPassInfo. simpl. rewrite Hc, Hw, Hl, Ht, Hd, Hs.
  by destruct shared.
Qed.

(** X14. After a [Sync] that got past its parameter block and
    returned, a second [Sync] on the same scene with neither
    [DirtyParams] nor [DirtyRenderTags] set returns too, leaves the task
    and the task context as they are and reports the same events. *)
Theorem Sync_again_changes_nothing scene ctx dirtyBits dirtyBits2
    self self' ctx' dirtyBits' events :
  wf_task self ->
  (Z.land dirtyBits DirtyParams <> 0%Z -> is_Some (_GetTaskParams scene)) ->
  Sync scene ctx dirtyBits self = Some (self', ctx', dirtyBits', events) ->
  Z.land dirtyBits2 DirtyParams = 0%Z ->
  Z.land dirtyBits2 DirtyRenderTags = 0%Z ->
  exists dirtyBits2',
    Sync scene ctx' dirtyBits2 self' = Some (self', ctx', dirtyBits2', events).
Proof.
  intros Hwf Hok Hsync Hb1 Hb2.
  destruct (syncParams_Some scene dirtyBits self Hok) as [self0 Hp].
  destruct (syncParams_fields _ _ _ _ Hp) as (_ & _ & Hi0 & Hp0).
  destruct (syncRenderTags_fields scene dirtyBits self0) as (_ & _ & Hi1 & Hp1).
  assert (Hwf1 : wf_task (syncRenderTags scene dirtyBits self0)).
  { eapply wf_task_fields; [| |exact Hwf]; congruence. }
  destruct (Sync_unfold scene ctx dirtyBits self self0 Hwf Hp)
    as (infos1 & passes1 & Hset & Hlen & Hsome & Hrun).
  pose proof (syncDrawTargetSet_upToDate _ _ _ _ _ Hwf1 Hset) as Hup.
  set (self1 := syncRenderTags scene dirtyBits self0) in *.
  set (again := rebuiltInfo scene self1 (lightingContext ctx)) in *.
  assert (Hsecond : forall infos' loopEnd,
    Forall (upToDate (memory scene)) infos' ->
    length infos' = length infos1 ->
    (syncRenderPassStates scene
         (match loopEnd with
          | Returned => fun s => s
          | Completed => setEnableSampleAlphaToCoverage (alphaToCoverage scene)
          end (setRenderPasses (GetStateVersion_drawTargetSet scene) infos' passes1 self1))
         (lightingContext ctx) (length passes1) (seq 0 (length infos')) infos' [] =
       Some (infos', events, loopEnd)) ->
    exists dirtyBits2',
      Sync scene (publish self1 ctx) dirtyBits2
        (match loopEnd with
         | Returned => fun s => s
         | Completed => setEnableSampleAlphaToCoverage (alphaToCoverage scene)
         end (setRenderPasses (GetStateVersion_drawTargetSet scene) infos' passes1 self1)) =
      Some (match loopEnd with
            | Returned => fun s => s
            | Completed => setEnableSampleAlphaToCoverage (alphaToCoverage scene)
            end (setRenderPasses (GetStateVersion_drawTargetSet scene) infos' passes1 self1),
            publish self1 ctx, dirtyBits2', events)).
  { intros infos' loopEnd Hup' Hlen' Hloop.
    exists (match loopEnd with Returned => dirtyBits2 | Completed => Clean end).
    unfold Sync, syncParams, syncRenderTags, nonzero. rewrite Hb1, Hb2. simpl.
    unfold syncDrawTargetSet.
    rewrite decide_False by (by destruct loopEnd; intros []).
    replace (_renderPassesInfo _) with infos' by (by destruct loopEnd).
    replace (_renderPasses _) with passes1 by (by destruct loopEnd).
    rewrite refresh_all; [|congruence|].
    2:{ eapply Forall_impl; [exact Hup'|]. by intros info (a & -> & _). }
    destruct (upToDate_refresh _ _ Hup' passes1) as [-> ->].
    rewrite Hlen', <- Hlen, firstn_all. simpl.
    rewrite Hloop. simpl.
    by destruct loopEnd. }
  destruct (split_at_unready scene infos1)
    as [Hcam|(found & bad & rest & -> & Hfound & [Hbad|[Hcamera Hbad]])];
    cycle 2.
  { rewrite syncRenderPassStates_undefined in Hrun;
      [|rewrite Hlen, length_app; simpl; lia|done..].
    simpl in Hrun. congruence. }
  - rewrite syncRenderPassStates_complete in Hrun by (done || lia).
    simpl in Hrun. rewrite Hrun in Hsync. injection Hsync as <- <- <- <-.
    apply (Hsecond (again <$> infos1) Completed).
    + apply Forall_fmap. eapply Forall_impl; [exact Hup|].
      intros info. apply upToDate_rebuiltInfo.
    + by rewrite length_fmap.
    + rewrite syncRenderPassStates_complete.
      * rewrite length_fmap. simpl. do 3 f_equal.
        rewrite <- list_fmap_compose. apply list_fmap_ext. intros i info _. simpl.
        by apply rebuiltInfo_again.
      * rewrite length_fmap. lia.
      * apply Forall_fmap. eapply Forall_impl; [exact Hcam|].
        intros info. simpl. unfold again. apply ready_rebuiltInfo.
  - assert (Hsome' := Hsome). apply Forall_app in Hsome' as [_ Hsome'].
    apply Forall_cons in Hsome' as [[a Ha] _].
    rewrite (syncRenderPassStates_missing _ _ _ _ found bad rest [] a) in Hrun;
      [|rewrite Hlen, length_app; simpl; lia|done..].
    simpl in Hrun. rewrite Hrun in Hsync. injection Hsync as <- <- <- <-.
    apply Forall_app in Hup as [Hupf Hupr].
    apply (Hsecond ((again <$> found) ++ bad :: rest) Returned).
    + apply Forall_app. split; [|done].
      apply Forall_fmap. eapply Forall_impl; [exact Hupf|].
      intros info. apply upToDate_rebuiltInfo.
    + by rewrite !length_app, length_fmap.
    + rewrite (syncRenderPassStates_missing _ _ _ _ (again <$> found) bad rest [] a).
      * rewrite length_fmap. simpl. do 3 f_equal. f_equal.
        rewrite <- list_fmap_compose. apply list_fmap_ext. intros i info _. simpl.
        by apply rebuiltInfo_again.
      * rewrite Hlen, length_app, length_fmap; simpl; lia.
      * apply Forall_fmap. eapply Forall_impl; [exact Hfound|].
        intros info. simpl. unfold again. apply ready_rebuiltInfo.
      * done.
      * done.
Qed.


Lemma fmap_zip_with_refreshPass {B} (f : HdxDrawTargetRenderPass -> B) mem
    (infos : list _RenderPassInfo) :
  (forall info pass, f (refreshPass mem info pass) = f pass) ->
  forall passes : list HdxDrawTargetRenderPass,
  length passes = length infos ->
  f <$> zip_with (refreshPass mem) infos passes = f <$> passes.
Proof.
  intros Hf. induction infos as [|info infos IH]; intros [|pass passes] Hlen;
    try done.
  cbn [zip_with]. rewrite !fmap_cons, Hf, IH; [done|]. simpl in Hlen. lia.
Qed.

Lemma sameTarget_upToDate mem (infos infos' : list _RenderPassInfo) :
  Forall2 sameTarget infos infos' ->
  Forall (upToDate mem) infos -> Forall (upToDate mem) infos'.
Proof.
  induction 1 as [|x y l k [Ht Hv] _ IH]; [done|].
  intros [(a & Ha & Hva) Hl]%Forall_cons. constructor; [|by apply IH].
  exists a. by rewrite <- Ht, <- Hv.
Qed.

(** X21. A [Sync] that gets past its parameter block, finds the
    version of the draw target set equal to the cached one, and returns,
    has not sorted again: the render passes keep their order, their
    render pass states and their flags, whatever has become of the
    collections; a pass whose draw target has a new version takes the
    target's surface, the others keep theirs, and afterwards every cached
    version is the current one. *)
Theorem Sync_fresh_keeps_schedule scene ctx dirtyBits self
    self' ctx' dirtyBits' events :
  wf_task self ->
  (Z.land dirtyBits DirtyParams <> 0%Z -> is_Some (_GetTaskParams scene)) ->
  _currentDrawTargetSetVersion self = GetStateVersion_drawTargetSet scene ->
  Sync scene ctx dirtyBits self = Some (self', ctx', dirtyBits', events) ->
    GetDrawTargetRenderPassState <$> _renderPasses self' =
      GetDrawTargetRenderPassState <$> _renderPasses self /\
    HasDependentDrawTargets <$> _renderPasses self' =
      HasDependentDrawTargets <$> _renderPasses self /\
    target <$> _renderPassesInfo self' = target <$> _renderPassesInfo self /\
    Forall (upToDate (memory scene)) (_renderPassesInfo self') /\
    forall i info pass a,
      _renderPassesInfo self !! i = Some info ->
      _renderPasses self !! i = Some pass ->
      target info = Some a ->
      GetDrawTarget <$> _renderPasses self' !! i =
        Some (if decide (version info = GetVersion (memory scene a))
              then GetDrawTarget pass
              else GetGlfDrawTarget (memory scene a)).
Proof.
  intros Hwf Hok Hfresh Hsync.
  destruct (syncParams_Some scene dirtyBits self Hok) as [self0 Hp].
  destruct (Sync_run scene ctx dirtyBits self self0 _ _ _ _ Hwf Hp Hsync)
    as (infos1 & passes1 & infos' & loopEnd & Hset & _ & Hsame & _ & _ & -> & _ & _).
  destruct (syncParams_fields _ _ _ _ Hp) as (_ & Hv0 & Hi0 & Hp0).
  destruct (syncRenderTags_fields scene dirtyBits self0) as (_ & Hv1 & Hi1 & Hp1).
  assert (Hwf1 : wf_task (syncRenderTags scene dirtyBits self0)).
  { eapply wf_task_fields; [| |exact Hwf]; congruence. }
  pose proof (syncDrawTargetSet_upToDate _ _ _ _ _ Hwf1 Hset) as Hup.
  destruct (syncDrawTargetSet_spec scene _ Hwf1)
    as (infos & passes & Hset' & Hcase & _ & _).
  rewrite Hset in Hset'. injection Hset' as <- <-.
  rewrite decide_False in Hcase by (rewrite Hv1, Hv0; by intros []).
  rewrite Hi1, Hi0, Hp1, Hp0 in Hcase. destruct Hcase as [Hinfos Hpasses].
  destruct Hwf as [Hlen Hsome].
  assert (Hpasses' :
    _renderPasses
      (match loopEnd with
       | Returned => fun s => s
       | Completed => setEnableSampleAlphaToCoverage (alphaToCoverage scene)
       end (setRenderPasses (GetStateVersion_drawTargetSet scene) infos' passes1
              (syncRenderTags scene dirtyBits self0))) = passes1)
    by (by destruct loopEnd).
  assert (Hinfos' :
    _renderPassesInfo
      (match loopEnd with
       | Returned => fun s => s
       | Completed => setEnableSampleAlphaToCoverage (alphaToCoverage scene)
       end (setRenderPasses (GetStateVersion_drawTargetSet scene) infos' passes1
              (syncRenderTags scene dirtyBits self0))) = infos')
    by (by destruct loopEnd).
  rewrite Hpasses', Hinfos'. clear Hpasses' Hinfos' Hsync.
  split_and!.
  - rewrite Hpasses. apply fmap_zip_with_refreshPass; [|done].
    intros info pass. unfold refreshPass.
    destruct (target info); [|done]. by destruct (decide _).
  - rewrite Hpasses. apply fmap_zip_with_refreshPass; [|done].
    intros info pass. unfold refreshPass.
    destruct (target info); [|done]. by destruct (decide _).
  - transitivity (target <$> infos1).
    + clear -Hsame. induction Hsame as [|x y l k [Ht _] _ IH]; [done|].
      by rewrite !fmap_cons, IH, Ht.
    + rewrite Hinfos, <- list_fmap_compose. apply list_fmap_ext.
      intros i info _. simpl. unfold refreshInfo.
      destruct (target info) eqn:Ht; [|done]. by destruct (decide _).
  - by eapply sameTarget_upToDate.
  - intros i info pass a Hi Hpass Ha.
    rewrite Hpasses, lookup_zip_with, Hi. simpl. rewrite Hpass. simpl.
    unfold refreshPass. rewrite Ha.
    by destruct (decide (version info = _)) as [Heq|Hne];
      [rewrite decide_False by (by intros [])|rewrite decide_True by done].
Qed.

End SyncAgain.

Section EndToEnd.
Context {collaborators : Collaborators}.

Lemma lookup_total_Some_elem_of (dts : list HdStDrawTargetPtr) i a :
  dts !!! i = Some a -> dts !! i = Some (Some a).
Proof.
  unfold HdStDrawTargetPtr in *.
  intros Ha. destruct (dts !! i) as [t|] eqn:Hi.
  - rewrite (list_lookup_total_correct _ _ _ Hi) in Ha. by rewrite Ha.
  - by rewrite list_lookup_total_alt, Hi in Ha.
Qed.

Lemma sorted_target_from_input mem dts st e a :
  main_done mem dts st ->
  e ∈ result st ++ (newEntry dts <$> leftOver dts st) ->
  drawTarget e = Some a -> Some a ∈ dts.
Proof.
  intros Hst He Ha.
  rewrite (sort_entries_drawTarget mem dts st e Hst He) in Ha.
  apply lookup_total_Some_elem_of in Ha. by eapply list_elem_of_lookup_2.
Qed.

(** X15. When every draw target of the render index is disabled, a
    [Sync] that rebuilds leaves the task without render passes; [Prepare]
    then does nothing and [Execute] only sets and restores the GL
    state. *)
Theorem Sync_nothing_enabled scene ctx dirtyBits self :
  wf_task self ->
  (Z.land dirtyBits DirtyParams <> 0%Z -> is_Some (_GetTaskParams scene)) ->
  _currentDrawTargetSetVersion self <> GetStateVersion_drawTargetSet scene ->
  (forall a, Some a ∈ GetDrawTargets scene -> IsEnabled (memory scene a) = false) ->
  exists self' ctx' dirtyBits' events,
    Sync scene ctx dirtyBits self = Some (self', ctx', dirtyBits', events) /\
    _renderPasses self' = [] /\
    _renderPassesInfo self' = [] /\
    Prepare self' = Some [] /\
    Execute self' = Some (glSetup self' ++ glRestore).
Proof.
  intros Hwf Hok Hstale Hoff.
  destruct (syncParams_Some scene dirtyBits self Hok) as [self0 Hp].
  destruct (Sync_unfold scene ctx dirtyBits self self0 Hwf Hp)
    as (infos1 & passes1 & Hset & _ & _ & Hrun).
  destruct (syncParams_fields _ _ _ _ Hp) as (_ & Hv0 & _ & _).
  destruct (syncRenderTags_fields scene dirtyBits self0) as (_ & Hv1 & _ & _).
  destruct (syncDrawTargetSet_stale scene (syncRenderTags scene dirtyBits self0))
    as (entries & Hsorted & Hset'); [congruence|].
  rewrite Hset in Hset'. injection Hset' as -> ->.
  destruct (sort_spec (memory scene) (GetDrawTargets scene)) as (st & _ & Hst & Hsort).
  unfold _GetSortedDrawTargets in Hsorted. rewrite Hsort in Hsorted.
  injection Hsorted as <-.
  assert (Hnone : forall e, e ∈ result st ++
                    (newEntry (GetDrawTargets scene) <$> leftOver (GetDrawTargets scene) st) ->
                  enabledTarget (memory scene) e = None).
  { intros e He. unfold enabledTarget.
    destruct (drawTarget e) as [a|] eqn:Ha; [|done]. simpl.
    by rewrite (Hoff a (sorted_target_from_input _ _ _ _ _ Hst He Ha)). }
  revert Hnone Hrun.
  generalize (result st ++
    (newEntry (GetDrawTargets scene) <$> leftOver (GetDrawTargets scene) st)).
  intros entries Hnone Hrun.
  assert (Hpasses : omap (renderPassOf (memory scene)) entries = []).
  { clear Hrun. induction entries as [|e entries IH]; [done|].
    simpl. unfold renderPassOf at 1. rewrite Hnone by left. simpl.
    apply IH. intros e' He'. apply Hnone. by right. }
  assert (Hinfos : omap (renderPassInfoOf (memory scene)) entries = []).
  { clear Hrun Hpasses. induction entries as [|e entries IH]; [done|].
    simpl. unfold renderPassInfoOf at 1. rewrite Hnone by left. simpl.
    apply IH. intros e' He'. apply Hnone. by right. }
  rewrite Hpasses, Hinfos in Hrun. simpl in Hrun.
  eexists _, _, _, _. split; [exact Hrun|]. by split_and!.
Qed.

Lemma omap_middle {A B} (g : A -> option B) (l : list A) q e v :
  l !! q = Some e -> g e = Some v ->
  omap g l = omap g (take q l) ++ v :: omap g (drop (S q) l).
Proof.
  intros Hq Hg. rewrite <- (take_drop_middle l q e Hq) at 1.
  rewrite omap_app. simpl. by rewrite Hg.
Qed.

Lemma concat_imap_two {A B} (f : nat -> A -> list B) (l1 l2 l3 : list A) x y :
  exists u v w,
    concat (imap f (l1 ++ x :: l2 ++ y :: l3)) =
    u ++ f (length l1) x ++ v ++ f (length l1 + S (length l2)) y ++ w.
Proof.
  exists (concat (imap f l1)),
         (concat (imap ((fun n => f (length l1 + n)) ∘ S) l2)),
         (concat (imap (((fun n => f (length l1 + n)) ∘ S) ∘ S ∘
                        (fun n => length l2 + n)) l3)).
  rewrite imap_app, concat_app, imap_cons. cbn [concat].
  rewrite Nat.add_0_r. do 2 f_equal.
  rewrite imap_app, concat_app, imap_cons. cbn [concat]. f_equal.
  simpl. rewrite Nat.add_0_r. do 2 f_equal.
  apply imap_ext. intros k z _. simpl. f_equal. lia.
Qed.

(** The entries of a dependent target and of its dependency, when the
    graph has no cycle. *)
Lemma dependency_entries mem dts st x y a b :
  main_done mem dts st ->
  acyclic mem dts ->
  dts !! x = Some (Some a) ->
  dts !! y = Some (Some b) ->
  _IsDependentOn mem (Some a) (Some b) = true ->
  exists p q ex ey,
    q < p /\ result st !! p = Some ex /\ result st !! q = Some ey /\
    drawTarget ex = Some a /\ drawTarget ey = Some b /\
    hasDependentDrawTargets ey = true.
Proof.
  intros Hst Hacyclic Hx Hy Hdep.
  assert (Hdepxy : dependsOn mem dts x y = true).
  { unfold dependsOn.
    by rewrite (list_lookup_total_correct _ _ _ Hx), (list_lookup_total_correct _ _ _ Hy). }
  pose proof (acyclic_all_scheduled mem dts st x Hacyclic Hst (lookup_lt_Some _ _ _ Hx))
    as Hxin.
  apply list_elem_of_lookup in Hxin as [p Hp].
  unfold indices in Hp. rewrite list_lookup_fmap in Hp.
  apply fmap_Some in Hp as (ex & Hex & Hox).
  destruct (main_done_order mem dts st p ex y Hst Hex) as (q & Hqp & Hq);
    [by rewrite <- Hox|].
  unfold indices in Hq. rewrite list_lookup_fmap in Hq.
  apply fmap_Some in Hq as (ey & Hey & Hoy).
  pose proof (main_done_drawTarget mem dts st p ex Hst Hex) as Htx.
  pose proof (main_done_drawTarget mem dts st q ey Hst Hey) as Hty.
  rewrite <- Hox, (list_lookup_total_correct _ _ _ Hx) in Htx.
  rewrite <- Hoy, (list_lookup_total_correct _ _ _ Hy) in Hty.
  exists p, q, ex, ey. split_and!; try done.
  apply (main_done_flag mem dts st q ey Hst Hey). exists x. by rewrite <- Hoy.
Qed.

(** A [Sync] that rebuilds and returns, on a scene whose dependency
    graph has no cycle: the render passes come from the entries of the
    main pass. *)
Lemma Sync_stale_acyclic scene ctx dirtyBits self self' ctx' dirtyBits' events :
  wf_task self ->
  (Z.land dirtyBits DirtyParams <> 0%Z -> is_Some (_GetTaskParams scene)) ->
  _currentDrawTargetSetVersion self <> GetStateVersion_drawTargetSet scene ->
  acyclic (memory scene) (GetDrawTargets scene) ->
  Sync scene ctx dirtyBits self = Some (self', ctx', dirtyBits', events) ->
  exists st,
    main_done (memory scene) (GetDrawTargets scene) st /\
    wf_task self' /\
    _renderPasses self' = omap (renderPassOf (memory scene)) (result st).
Proof.
  intros Hwf Hok Hstale Hacyclic Hsync.
  pose proof (Sync_wf _ _ _ _ _ _ _ _ Hwf Hsync) as Hwf'.
  destruct (Sync_stale scene ctx dirtyBits self _ _ _ _ Hwf Hok Hstale Hsync)
    as (entries & infos' & loopEnd & self1 & Hsorted & Hsame & ->).
  destruct (sort_spec (memory scene) (GetDrawTargets scene)) as (st & _ & Hst & Hsort).
  unfold _GetSortedDrawTargets in Hsorted.
  rewrite Hsort in Hsorted. injection Hsorted as <-.
  rewrite (acyclic_leftOver _ _ st Hacyclic Hst) in *.
  rewrite fmap_nil, app_nil_r in *.
  exists st. split_and!; [done|done|].
  by destruct loopEnd.
Qed.

(** X18. From the render index to the GL calls: when the dependency
    graph has no cycle and an enabled draw target depends on another
    enabled one that has a surface, then after a [Sync] that gets past
    its parameter block and rebuilds, [Execute] draws the dependency,
    resolves its surface, and only later draws the dependent. *)
Theorem dependency_resolved_before_dependent_draws
    scene ctx dirtyBits self self' ctx' dirtyBits' events x y a b glf :
  wf_task self ->
  (Z.land dirtyBits DirtyParams <> 0%Z -> is_Some (_GetTaskParams scene)) ->
  _currentDrawTargetSetVersion self <> GetStateVersion_drawTargetSet scene ->
  acyclic (memory scene) (GetDrawTargets scene) ->
  GetDrawTargets scene !! x = Some (Some a) ->
  GetDrawTargets scene !! y = Some (Some b) ->
  IsEnabled (memory scene a) = true ->
  IsEnabled (memory scene b) = true ->
  _IsDependentOn (memory scene) (Some a) (Some b) = true ->
  GetGlfDrawTarget (memory scene b) = Some glf ->
  Sync scene ctx dirtyBits self = Some (self', ctx', dirtyBits', events) ->
  exists trace i j before between after,
    Execute self' = Some trace /\
    GetDrawTargetRenderPassState <$> _renderPasses self' !! i = Some b /\
    GetDrawTargetRenderPassState <$> _renderPasses self' !! j = Some a /\
    trace =
      before ++
      [RenderPass_Execute i (_renderTags self'); RenderPassState_Unbind i;
       DrawTarget_Resolve i glf] ++
      between ++ [RenderPass_Execute j (_renderTags self')] ++ after.
Proof.
  intros Hwf Hok Hstale Hacyclic Hx Hy Hena Henb Hdep Hglf Hsync.
  destruct (Sync_stale_acyclic scene ctx dirtyBits self _ _ _ _
              Hwf Hok Hstale Hacyclic Hsync)
    as (st & Hst & Hwf' & Hpasses).
  set (mem := memory scene) in *.
  destruct (dependency_entries _ _ st x y a b Hst Hacyclic Hx Hy Hdep)
    as (p & q & ex & ey & Hqp & Hex & Hey & Htx & Hty & Hflag).
  (* their render passes *)
  set (pb := {| GetDrawTarget := Some glf; GetDrawTargetRenderPassState := b;
                HasDependentDrawTargets := true |}).
  assert (Hpb : renderPassOf mem ey = Some pb).
  { unfold renderPassOf, enabledTarget. rewrite Hty. simpl. rewrite Henb. simpl.
    by rewrite Hglf, Hflag. }
  assert (Hpa : exists pa, renderPassOf mem ex = Some pa /\
                           GetDrawTargetRenderPassState pa = a).
  { unfold renderPassOf, enabledTarget. rewrite Htx. simpl. rewrite Hena. simpl.
    by eexists. }
  destruct Hpa as (pa & Hpa & Hsa).
  assert (Hex' : drop (S q) (result st) !! (p - S q) = Some ex).
  { rewrite lookup_drop. by replace (S q + (p - S q)) with p by lia. }
  rewrite (omap_middle (renderPassOf mem) _ _ _ _ Hey Hpb) in Hpasses.
  rewrite (omap_middle (renderPassOf mem) _ _ _ _ Hex' Hpa) in Hpasses.
  revert Hpasses.
  generalize (omap (renderPassOf mem) (take q (result st))).
  generalize (omap (renderPassOf mem) (take (p - S q) (drop (S q) (result st)))).
  generalize (omap (renderPassOf mem) (drop (S (p - S q)) (drop (S q) (result st)))).
  intros l3 l2 l1 Hpasses.
  (* the run of [Execute] *)
  pose proof (Execute_spec self' Hwf') as Hexec.
  rewrite Hpasses in Hexec.
  destruct (concat_imap_two (renderPassEvents (_renderTags self')) l1 l2 l3 pb pa)
    as (u & v & w & Htrace).
  rewrite Htrace in Hexec.
  eexists _, (length l1), (length l1 + S (length l2)).
  exists (glSetup self' ++ u ++ [RenderPassState_Bind (length l1)]),
    (v ++ [RenderPassState_Bind (length l1 + S (length l2))]),
    ([RenderPassState_Unbind (length l1 + S (length l2))] ++
     resolveEvents (length l1 + S (length l2)) pa ++ w ++ glRestore).
  split_and!.
  - exact Hexec.
  - by rewrite Hpasses, list_lookup_middle.
  - rewrite Hpasses.
    replace (l1 ++ pb :: l2 ++ pa :: l3) with ((l1 ++ pb :: l2) ++ pa :: l3)
      by (by rewrite <- (assoc_L (++))).
    rewrite list_lookup_middle by (rewrite length_app; simpl; lia).
    simpl. by rewrite Hsa.
  - unfold renderPassEvents, resolveEvents at 1. simpl.
    rewrite <- !(assoc_L (++)). simpl. do 6 f_equal.
    rewrite <- !(assoc_L (++)). simpl. by rewrite <- !(assoc_L (++)).
Qed.

Lemma elem_of_omap_renderPassOf mem (entries : list _DrawTargetEntry) pass :
  pass ∈ omap (renderPassOf mem) entries ->
  IsEnabled (mem (GetDrawTargetRenderPassState pass)) = true.
Proof.
  intros (entry & _ & Hpass)%list_elem_of_omap.
  unfold renderPassOf, enabledTarget in Hpass.
  destruct (drawTarget entry) as [a|]; [|done]. simpl in Hpass.
  destruct (IsEnabled (mem a)) eqn:Hen; [|done]. simpl in Hpass.
  by injection Hpass as <-.
Qed.

(** X22. The flags are computed before disabled draw targets are
    dropped: after a [Sync] that gets past its parameter block and
    rebuilds the render passes, the version of the draw target set
    differing from the cached one, when the dependency graph has no cycle
    and a disabled draw target depends on an enabled one that has a
    surface, [Execute] resolves that surface although no render pass
    draws the disabled dependent. *)
Theorem resolve_for_disabled_dependent
    scene ctx dirtyBits self self' ctx' dirtyBits' events x y a b glf :
  wf_task self ->
  (Z.land dirtyBits DirtyParams <> 0%Z -> is_Some (_GetTaskParams scene)) ->
  _currentDrawTargetSetVersion self <> GetStateVersion_drawTargetSet scene ->
  acyclic (memory scene) (GetDrawTargets scene) ->
  GetDrawTargets scene !! x = Some (Some a) ->
  GetDrawTargets scene !! y = Some (Some b) ->
  IsEnabled (memory scene a) = false ->
  IsEnabled (memory scene b) = true ->
  _IsDependentOn (memory scene) (Some a) (Some b) = true ->
  GetGlfDrawTarget (memory scene b) = Some glf ->
  Sync scene ctx dirtyBits self = Some (self', ctx', dirtyBits', events) ->
  exists trace i,
    Execute self' = Some trace /\
    DrawTarget_Resolve i glf ∈ trace /\
    GetDrawTargetRenderPassState <$> _renderPasses self' !! i = Some b /\
    forall pass, pass ∈ _renderPasses self' ->
      GetDrawTargetRenderPassState pass <> a.
Proof.
  intros Hwf Hok Hstale Hacyclic Hx Hy Hena Henb Hdep Hglf Hsync.
  destruct (Sync_stale_acyclic scene ctx dirtyBits self _ _ _ _
              Hwf Hok Hstale Hacyclic Hsync)
    as (st & Hst & Hwf' & Hpasses).
  set (mem := memory scene) in *.
  destruct (dependency_entries _ _ st x y a b Hst Hacyclic Hx Hy Hdep)
    as (p & q & ex & ey & Hqp & Hex & Hey & Htx & Hty & Hflag).
  set (pb := {| GetDrawTarget := Some glf; GetDrawTargetRenderPassState := b;
                HasDependentDrawTargets := true |}).
  assert (Hpb : renderPassOf mem ey = Some pb).
  { unfold renderPassOf, enabledTarget. rewrite Hty. simpl. rewrite Henb. simpl.
    by rewrite Hglf, Hflag. }
  assert (Hoff : forall pass, pass ∈ _renderPasses self' ->
                   GetDrawTargetRenderPassState pass <> a).
  { intros pass Hin Heq. rewrite Hpasses in Hin.
    apply elem_of_omap_renderPassOf in Hin. rewrite Heq in Hin.
    fold mem in Hin. congruence. }
  rewrite (omap_middle (renderPassOf mem) _ _ _ _ Hey Hpb) in Hpasses.
  revert Hpasses.
  generalize (omap (renderPassOf mem) (take q (result st))).
  generalize (omap (renderPassOf mem) (drop (S q) (result st))).
  intros l2 l1 Hpasses.
  pose proof (Execute_spec self' Hwf') as Hexec.
  eexists _, (length l1).
  split_and!; [exact Hexec| | |exact Hoff].
  - rewrite Hpasses, imap_app, concat_app, imap_cons. cbn [concat].
    rewrite Nat.add_0_r. unfold renderPassEvents at 2, resolveEvents. simpl.
    rewrite !elem_of_app, !elem_of_cons. tauto.
  - by rewrite Hpasses, list_lookup_middle.
Qed.

End EndToEnd.

(** * The stream output and the depth function table *)

Section VtValueProperties.
Context {collaborators : Collaborators}.

(** X19. The stream output of the task parameters does not show
    [depthBiasSlopeFactor]: two parameter sets that differ only there are
    unequal for [operator!=] and print the same. *)
Theorem stream_output_omits_slope_factor
    print_GfVec4f print_float print_bool print_HdCompareFunction print_HdCullStyle
    GfVec4f_eq float_eq HdCullStyle_eq
    (out : string) (pv : HdxDrawTargetTaskParams) (slope : float) :
  float_eq slope (depthBiasSlopeFactor pv) = false ->
  operator_ne GfVec4f_eq float_eq HdCullStyle_eq (withSlopeFactor slope pv) pv = true /\
  operator_shl print_GfVec4f print_float print_bool print_HdCompareFunction
    print_HdCullStyle out (withSlopeFactor slope pv) =
  operator_shl print_GfVec4f print_float print_bool print_HdCompareFunction
    print_HdCullStyle out pv.
Proof.
  intros Hne. split; [|done].
  unfold operator_ne, operator_eq. simpl. rewrite Hne.
  by rewrite !andb_false_r.
Qed.

(** X20. Resolving a depth function twice against the same priority
    gives the function back; so, for each priority, the resolution is a
    bijection on the comparison functions. *)
Theorem resolved_depth_func_involution depthFunc priority :
  HdxDrawTargetTask_GetResolvedDepthFunc
    (HdxDrawTargetTask_GetResolvedDepthFunc depthFunc priority) priority
  = depthFunc.
Proof. by destruct depthFunc, priority. Qed.

End VtValueProperties.

(** * The further properties on the sample scenes *)

Lemma sort_without_dependencies_witness :
  _SortDrawTargets Sample.mem MoreSamples.separate [] =
  Some ([ {| originalIndex := 0; drawTarget := Some 0; hasDependentDrawTargets := false |};
          {| originalIndex := 1; drawTarget := Some 2; hasDependentDrawTargets := false |} ],
        []).
Proof.
  apply (sort_without_dependencies Sample.mem MoreSamples.separate).
  intros i j. destruct i as [|[|i]], j as [|[|j]]; reflexivity.
Defined.

Lemma _DoesCollectionContainPath_order_independent_witness :
  @_DoesCollectionContainPath Sample.collaborators MoreSamples.collectionAB
    ["World"; "Screen"]%string =
  @_DoesCollectionContainPath Sample.collaborators MoreSamples.collectionBA
    ["World"; "Screen"]%string.
Proof.
  apply (@_DoesCollectionContainPath_order_independent Sample.collaborators).
  - intros r. simpl. rewrite !elem_of_cons, !elem_of_nil. tauto.
  - intros e. simpl. rewrite !elem_of_cons, !elem_of_nil. tauto.
Defined.

Lemma excluded_target_is_no_dependency_witness :
  @_IsDependentOn Sample.collaborators MoreSamples.memExcluding (Some 1) (Some 0) = false.
Proof.
  apply (@excluded_target_is_no_dependency Sample.collaborators
           MoreSamples.memExcluding 1 0 ["World"; "Mirror"]%string).
  - simpl. left.
  - reflexivity.
Defined.

Lemma Sample_task0_wf : wf_task Sample.task0.
Proof. split; [reflexivity|constructor]. Qed.

Lemma Sample_params_ok dirtyBits :
  Z.land dirtyBits (@DirtyParams Sample.collaborators) <> 0%Z ->
  is_Some (_GetTaskParams Sample.scene).
Proof. intros _. by eexists. Qed.

Lemma Sample_targets_acyclic :
  acyclic (memory Sample.scene) (GetDrawTargets Sample.scene).
Proof.
  apply (acyclic_by_rank _ _ (fun i => 2 - i)). intros i j Hij.
  destruct (dependsOn_lt _ _ _ _ Hij) as [Hi Hj]. simpl in Hi, Hj.
  destruct i as [|[|i]]; [| |lia];
    (destruct j as [|[|j]]; [| |lia]);
    vm_compute in Hij; try discriminate; lia.
Qed.

Lemma Sample_aspects_defined : aspectsDefined Sample.scene.
Proof. intros a. destruct a as [|[|[|[|a]]]]; by eexists. Qed.

Lemma sort_cycle_fallback_witness :
  _SortDrawTargets MoreSamples.memTail MoreSamples.withTail [] =
    Some ([ {| originalIndex := 4; drawTarget := Some 0; hasDependentDrawTargets := true |};
            {| originalIndex := 2; drawTarget := Some 1; hasDependentDrawTargets := false |};
            {| originalIndex := 0; drawTarget := Some 3; hasDependentDrawTargets := false |};
            {| originalIndex := 1; drawTarget := Some 5; hasDependentDrawTargets := false |};
            {| originalIndex := 3; drawTarget := Some 4; hasDependentDrawTargets := false |} ],
          []) /\
  (forall x, x < 5 ->
     (x ∈ [4; 2] <-> ~ reachesCycle MoreSamples.memTail MoreSamples.withTail x)) /\
  (forall x, x ∈ [0; 1; 3] <->
     x < 5 /\ reachesCycle MoreSamples.memTail MoreSamples.withTail x).
Proof.
  destruct (sort_cycle_fallback MoreSamples.memTail MoreSamples.withTail)
    as (st & Hmain & Hsort & _ & Hin & Hout & _ & _).
  vm_compute in Hmain. injection Hmain as <-.
  split; [|split].
  - rewrite Hsort. vm_compute. reflexivity.
  - exact Hin.
  - intros x. rewrite <- Hout. vm_compute filter. reflexivity.
Defined.

Lemma Sync_rebuilds_enabled_witness :
  exists self' ctx' dirtyBits' events entries,
    Sync Sample.scene Sample.ctx 20 Sample.task0 =
      Some (self', ctx', dirtyBits', events) /\
    _GetSortedDrawTargets Sample.scene = Some (entries, []) /\
    _renderPasses self' = omap (renderPassOf (memory Sample.scene)) entries /\
    (fun info => (target info, version info)) <$> _renderPassesInfo self' =
      omap (targetVersionOf (memory Sample.scene)) entries /\
    _currentDrawTargetSetVersion self' = GetStateVersion_drawTargetSet Sample.scene.
Proof.
  destruct (Sync Sample.scene Sample.ctx 20 Sample.task0)
    as [[[[self' ctx'] bits'] events]|] eqn:Hrun; [|by vm_compute in Hrun].
  destruct (Sync_rebuilds_enabled Sample.scene Sample.ctx 20 Sample.task0
              self' ctx' bits' events) as (entries & Hentries).
  - exact Sample_task0_wf.
  - apply Sample_params_ok.
  - simpl. lia.
  - exact Hrun.
  - by exists self', ctx', bits', events, entries.
Defined.

Lemma Sync_publishes_witness :
  exists self' ctx' dirtyBits' events,
    Sync Sample.sceneNoCamera Sample.ctx 20 Sample.task0 =
      Some (self', ctx', dirtyBits', events) /\
    drawTargetRenderPasses ctx' = Some (taskId Sample.task0) /\
    lightingContext ctx' = lightingContext Sample.ctx /\
    taskId self' = taskId Sample.task0 /\
    _currentDrawTargetSetVersion self' =
      GetStateVersion_drawTargetSet Sample.sceneNoCamera.
Proof.
  destruct (Sync Sample.sceneNoCamera Sample.ctx 20 Sample.task0)
    as [[[[self' ctx'] bits'] events]|] eqn:Hrun; [|by vm_compute in Hrun].
  exists self', ctx', bits', events. split; [reflexivity|].
  apply (Sync_publishes Sample.sceneNoCamera Sample.ctx 20 Sample.task0
           self' ctx' bits' events).
  - exact Sample_task0_wf.
  - intros _. by eexists.
  - exact Hrun.
Defined.

Lemma Sync_polls_only_when_dirty_witness :
  (exists self' ctx' dirtyBits' events,
     Sync Sample.scene Sample.ctx 16 Sample.task0 =
       Some (self', ctx', dirtyBits', events) /\
     taskParams self' = taskParams Sample.task0 /\
     GetRenderTags self' = _GetTaskRenderTags Sample.scene) /\
  (exists self' ctx' dirtyBits' events,
     Sync Sample.sceneNoParams Sample.ctx 20 Sample.task0 =
       Some (self', ctx', dirtyBits', events) /\
     taskParams self' = taskParams Sample.task0 /\
     GetRenderTags self' = GetRenderTags Sample.task0).
Proof.
  split.
  - destruct (Sync Sample.scene Sample.ctx 16 Sample.task0)
      as [[[[self' ctx'] bits'] events]|] eqn:Hrun; [|by vm_compute in Hrun].
    destruct (Sync_polls_only_when_dirty Sample.scene Sample.ctx 16 Sample.task0
                self' ctx' bits' events Sample_task0_wf Hrun) as [_ Hok].
    destruct Hok as (Hkeep & _ & _ & Htags); [by intros [Hbit _]|].
    exists self', ctx', bits', events. split_and!.
    + reflexivity.
    + by apply Hkeep.
    + by apply Htags.
  - destruct (Sync Sample.sceneNoParams Sample.ctx 20 Sample.task0)
      as [[[[self' ctx'] bits'] events]|] eqn:Hrun; [|by vm_compute in Hrun].
    destruct (Sync_polls_only_when_dirty Sample.sceneNoParams Sample.ctx 20
                Sample.task0 self' ctx' bits' events Sample_task0_wf Hrun)
      as [Hfail _].
    destruct Hfail as [Hpar Htags]; [by split|].
    by exists self', ctx', bits', events.
Defined.

Lemma Sync_stops_at_missing_camera_witness :
  exists self' ctx' mirror screen state,
    Sync MoreSamples.sceneLostCamera Sample.ctx 20 Sample.task0 =
      Some (self', ctx', 20%Z,
            [@RenderPassState_Prepare Sample.collaborators 0;
             RenderPass_Sync 0;
             @TF_CODING_ERROR_InvalidCamera Sample.collaborators
               ["cameras"; "lost"]%string]) /\
    _renderPassesInfo self' = [mirror; screen] /\
    renderPassState mirror = Some state /\
    renderPassState screen = None /\
    (GetCameraFramingState state).1.1.2 = [1%Q].
Proof.
  eexists _, _, _, _, _. split.
  - eapply (Sync_stops_at_missing_camera MoreSamples.sceneLostCamera Sample.ctx 20
              Sample.task0 _ _ _ _ [_] _ [] 1).
    + exact Sample_task0_wf.
    + reflexivity.
    + vm_compute. reflexivity.
    + reflexivity.
    + constructor; [|constructor]. split; by eexists.
    + reflexivity.
    + reflexivity.
  - split_and!; reflexivity.
Defined.

Lemma Sync_undefined_at_overflow_witness :
  Sync MoreSamples.sceneOverflow Sample.ctx 20 Sample.task0 = None.
Proof.
  eapply (Sync_undefined_at_overflow MoreSamples.sceneOverflow Sample.ctx 20
            Sample.task0 _ _ _ _ [_] _ []).
  - exact Sample_task0_wf.
  - reflexivity.
  - vm_compute. reflexivity.
  - reflexivity.
  - constructor; [|constructor]. split; by eexists.
  - by eexists.
  - reflexivity.
Defined.

Lemma Sync_builds_render_state_witness :
  exists self' ctx' events,
    Sync Sample.scene Sample.ctx 20 Sample.task0 =
      Some (self', ctx', @Clean Sample.collaborators, events) /\
    _enableSampleAlphaToCoverage self' = true /\
    forall i info', _renderPassesInfo self' !! i = Some info' ->
      exists state,
        renderPassState info' = Some state /\
        GetDepthFunc state = HdCmpFuncGEqual /\
        GetLightingEnabled state = true.
Proof.
  destruct (Sync_builds_render_state Sample.scene Sample.ctx 20 Sample.task0)
    as (self' & ctx' & events & Hrun & Halpha & Hstate).
  - exact Sample_task0_wf.
  - apply Sample_params_ok.
  - intros a. by eexists.
  - exact Sample_aspects_defined.
  - exists self', ctx', events. split_and!; [exact Hrun|exact Halpha|].
    intros i info' Hi.
    destruct (Hstate i info' Hi) as (a & camera & aspect & _ & _ & _ & Hs & _).
    eexists. split; [exact Hs|]. simpl.
    vm_compute in Hrun. injection Hrun as <- _ _.
    split; [|reflexivity].
    by destruct a as [|[|[|[|a]]]].
Defined.

Lemma task_stays_in_range_witness :
  is_Some (Sync Sample.sceneMirrorChanged Sample.ctx 0 Sample.task1) /\
  Prepare Sample.task1 =
    Some [@RenderPass_Prepare Sample.collaborators 0; RenderPass_Prepare 1] /\
  is_Some (Execute Sample.task1).
Proof.
  destruct (task_stays_in_range Sample.task1) as (Hsync & Hprepare & Hexecute).
  - eapply (reachable_Sync Sample.scene Sample.ctx 20 Sample.task0).
    + apply reachable_new.
    + reflexivity.
  - split_and!; [|exact Hprepare|exact Hexecute].
    apply Hsync. intros a. destruct a as [|[|[|[|a]]]]; by eexists.
Defined.

Lemma Execute_restores_gl_state_witness :
  exists events body,
    Execute Sample.task1 = Some events /\
    events = (body ++ glRestore)%list /\
    @glFrontFace Sample.collaborators GL_CW ∈ body /\
    forall cap, @glEnable Sample.collaborators cap ∈ body ->
      @glDisable Sample.collaborators cap ∈ @glRestore Sample.collaborators.
Proof.
  destruct (Execute Sample.task1) as [events|] eqn:Hrun; [|by vm_compute in Hrun].
  destruct (Execute_restores_gl_state Sample.task1 events Hrun) as (body & Hbody).
  by exists events, body.
Defined.

Lemma Sync_again_changes_nothing_witness :
  exists ctx' dirtyBits' events,
    Sync Sample.scene Sample.ctx 20 Sample.task0 =
      Some (Sample.task1, ctx', dirtyBits', events) /\
    exists dirtyBits2',
      Sync Sample.scene ctx' 0 Sample.task1 =
        Some (Sample.task1, ctx', dirtyBits2', events).
Proof.
  eexists _, _, _. split; [reflexivity|].
  eapply (Sync_again_changes_nothing Sample.scene Sample.ctx 20 0 Sample.task0).
  - exact Sample_task0_wf.
  - apply Sample_params_ok.
  - reflexivity.
  - reflexivity.
  - reflexivity.
Defined.

Lemma Sync_nothing_enabled_witness :
  exists self' ctx' dirtyBits' events,
    Sync MoreSamples.sceneDisabled Sample.ctx 20 Sample.task0 =
      Some (self', ctx', dirtyBits', events) /\
    _renderPasses self' = [] /\
    _renderPassesInfo self' = [] /\
    Prepare self' = Some [] /\
    Execute self' = Some (glSetup self' ++ glRestore)%list.
Proof.
  apply (Sync_nothing_enabled MoreSamples.sceneDisabled Sample.ctx 20 Sample.task0).
  - exact Sample_task0_wf.
  - intros _. by eexists.
  - simpl. lia.
  - reflexivity.
Defined.

Lemma dependency_resolved_before_dependent_draws_witness :
  exists self' ctx' dirtyBits' events trace i j before between after,
    Sync Sample.scene Sample.ctx 20 Sample.task0 =
      Some (self', ctx', dirtyBits', events) /\
    Execute self' = Some trace /\
    @GetDrawTargetRenderPassState Sample.collaborators <$>
      _renderPasses self' !! i = Some 0 /\
    @GetDrawTargetRenderPassState Sample.collaborators <$>
      _renderPasses self' !! j = Some 1 /\
    trace =
      (before ++
       [RenderPass_Execute i (_renderTags self'); RenderPassState_Unbind i;
        @DrawTarget_Resolve Sample.collaborators i 10] ++
       between ++ [RenderPass_Execute j (_renderTags self')] ++ after)%list.
Proof.
  destruct (Sync Sample.scene Sample.ctx 20 Sample.task0)
    as [[[[self' ctx'] bits'] events]|] eqn:Hrun; [|by vm_compute in Hrun].
  destruct (dependency_resolved_before_dependent_draws Sample.scene Sample.ctx 20
              Sample.task0 self' ctx' bits' events 0 1 1 0 10)
    as (trace & i & j & before & between & after & Htrace).
  - exact Sample_task0_wf.
  - apply Sample_params_ok.
  - simpl. lia.
  - exact Sample_targets_acyclic.
  - reflexivity.
  - reflexivity.
  - reflexivity.
  - reflexivity.
  - reflexivity.
  - reflexivity.
  - exact Hrun.
  - by exists self', ctx', bits', events, trace, i, j, before, between, after.
Defined.

Lemma stream_output_omits_slope_factor_witness :
  @operator_ne MoreSamples.numbers Z.eqb Z.eqb Nat.eqb
    (@withSlopeFactor MoreSamples.numbers 3%Z MoreSamples.numberParams)
    MoreSamples.numberParams = true /\
  @operator_shl MoreSamples.numbers MoreSamples.printSign MoreSamples.printSign
    MoreSamples.printBool MoreSamples.printFunc MoreSamples.printCull ""
    (@withSlopeFactor MoreSamples.numbers 3%Z MoreSamples.numberParams) =
  @operator_shl MoreSamples.numbers MoreSamples.printSign MoreSamples.printSign
    MoreSamples.printBool MoreSamples.printFunc MoreSamples.printCull ""
    MoreSamples.numberParams.
Proof.
  apply (@stream_output_omits_slope_factor MoreSamples.numbers).
  reflexivity.
Defined.

Lemma Sync_fresh_keeps_schedule_witness :
  exists self' ctx' dirtyBits' events,
    Sync Sample.sceneMirrorChanged Sample.ctx 0 Sample.task1 =
      Some (self', ctx', dirtyBits', events) /\
    @GetDrawTargetRenderPassState Sample.collaborators <$> _renderPasses self' = [0; 1] /\
    @HasDependentDrawTargets Sample.collaborators <$> _renderPasses self' = [true; false] /\
    @GetDrawTarget Sample.collaborators <$> _renderPasses self' !! 0 = Some (Some 20).
Proof.
  destruct (Sync Sample.sceneMirrorChanged Sample.ctx 0 Sample.task1)
    as [[[[self' ctx'] bits'] events]|] eqn:Hrun; [|by vm_compute in Hrun].
  destruct (Sync_fresh_keeps_schedule Sample.sceneMirrorChanged Sample.ctx 0
              Sample.task1 self' ctx' bits' events)
    as (Hstates & Hflags & _ & _ & Hsurface).
  - exact Sample_task1_wf.
  - intros _. by eexists.
  - reflexivity.
  - exact Hrun.
  - exists self', ctx', bits', events. split_and!.
    + reflexivity.
    + exact Hstates.
    + exact Hflags.
    + erewrite (Hsurface 0) by (vm_compute; reflexivity). reflexivity.
Defined.

Lemma Sample_screen_off_acyclic :
  acyclic (memory MoreSamples.sceneScreenOff) (GetDrawTargets MoreSamples.sceneScreenOff).
Proof.
  apply (acyclic_by_rank _ _ (fun i => 2 - i)). intros i j Hij.
  destruct (dependsOn_lt _ _ _ _ Hij) as [Hi Hj]. simpl in Hi, Hj.
  destruct i as [|[|i]]; [| |lia];
    (destruct j as [|[|j]]; [| |lia]);
    vm_compute in Hij; try discriminate; lia.
Qed.

Lemma resolve_for_disabled_dependent_witness :
  exists self' ctx' dirtyBits' events trace i,
    Sync MoreSamples.sceneScreenOff Sample.ctx 20 Sample.task0 =
      Some (self', ctx', dirtyBits', events) /\
    Execute self' = Some trace /\
    @DrawTarget_Resolve Sample.collaborators i 10 ∈ trace /\
    @GetDrawTargetRenderPassState Sample.collaborators <$>
      _renderPasses self' !! i = Some 0 /\
    forall pass, pass ∈ _renderPasses self' ->
      @GetDrawTargetRenderPassState Sample.collaborators pass <> 1.
Proof.
  destruct (Sync MoreSamples.sceneScreenOff Sample.ctx 20 Sample.task0)
    as [[[[self' ctx'] bits'] events]|] eqn:Hrun; [|by vm_compute in Hrun].
  destruct (resolve_for_disabled_dependent MoreSamples.sceneScreenOff Sample.ctx 20
              Sample.task0 self' ctx' bits' events 0 1 1 0 10)
    as (trace & i & Htrace).
  - exact Sample_task0_wf.
  - intros _. by eexists.
  - simpl. lia.
  - exact Sample_screen_off_acyclic.
  - reflexivity.
  - reflexivity.
  - reflexivity.
  - reflexivity.
  - reflexivity.
  - reflexivity.
  - exact Hrun.
  - by exists self', ctx', bits', events, trace, i.
Defined.
